(** * Precipitation overlay server: conversion cache and pipeline orchestrator

    A shallow embedding of the Node server of the repository (the file with
    [normalizeHourParam], [makeDominantBorderColorTransparent],
    [cropPngToNonTransparent], [convertGribToPngViaPipeline] and
    [ensureOverlayUpToDate]) and the properties its specification states.

    Conventions.
    - A JavaScript string is the list of its UTF-16 code units ([jsstring]).
    - A [Buffer] is a list of bytes held in [Z]; reading past the end gives
      [undefined], written [None].
    - [Date.now()] and file modification times are integers of milliseconds.
    - Geographic coordinates are real numbers: the rounding of IEEE doubles
      is not modelled there, the formulas are. The synthetic raster is
      computed in an arithmetic that is a parameter, of which the theorems
      assume what binary64 provides.
    - A write of [fs.writeFile] may be rejected: the runtime says which.
    - An [await] is a suspension point: the orchestrator is a step function
      on a world of suspended tasks, one step per synchronous run. *)

From Stdlib Require Import ZArith NArith Lia List Bool String Ascii.
From Stdlib Require Import DecimalString.
From Stdlib Require Import Reals Lra.
From stdpp Require Import base option list gmap.

Local Open Scope Z_scope.

(** ** JavaScript strings *)

Module JsString.

Abbreviation jsstring := (list N).

(** Code units of an ASCII literal. *)
Definition js (s : string) : jsstring :=
  List.map N_of_ascii (list_ascii_of_string s).

(** WhiteSpace and LineTerminator of ECMAScript: what [String.prototype.trim]
    strips and what the regular-expression class [\s] matches. *)
Definition isWhiteSpace (c : N) : bool :=
  ((9 <=? c) && (c <=? 13) || (c =? 32) || (c =? 0xA0) || (c =? 0x1680)
   || (0x2000 <=? c) && (c <=? 0x200A) || (c =? 0x2028) || (c =? 0x2029)
   || (c =? 0x202F) || (c =? 0x205F) || (c =? 0x3000) || (c =? 0xFEFF))%N.

Fixpoint trimStart (s : jsstring) : jsstring :=
  match s with
  | c :: s' => if isWhiteSpace c then trimStart s' else s
  | [] => []
  end.

Definition trimEnd (s : jsstring) : jsstring := rev (trimStart (rev s)).

Definition trim (s : jsstring) : jsstring := trimEnd (trimStart s).

(** [\d] *)
Definition isDigit (c : N) : bool := ((48 <=? c) && (c <=? 57))%N.

(** [s.replace(/X$/, '')] for one code unit [X]: drop it when it ends [s]. *)
Definition stripSuffixUnit (x : N) (s : jsstring) : jsstring :=
  match rev s with
  | c :: r => if (c =? x)%N then rev r else s
  | [] => s
  end.

(** [Number(s)] on a string of decimal digits. *)
Definition digitsValue (s : jsstring) : N :=
  fold_left (fun acc c => (10 * acc + (c - 48))%N) s 0%N.

(** [String(n)] for a non-negative integer. *)
Definition decimalString (n : N) : jsstring :=
  js (NilEmpty.string_of_uint (N.to_uint n)).

(** [s.padStart(len, pad)] with a one-unit pad. *)
Definition padStart (len : nat) (pad : N) (s : jsstring) : jsstring :=
  repeat pad (len - length s) ++ s.

(** [s.slice(0, n)] *)
Definition slice0 (n : nat) (s : jsstring) : jsstring := firstn n s.

(** [s.replace(/\s+/g, ' ')]: every maximal run of white space becomes one
    space; [inRun] tells that the previous unit was white space. *)
Fixpoint collapseFrom (inRun : bool) (s : jsstring) : jsstring :=
  match s with
  | [] => []
  | c :: s' =>
      if isWhiteSpace c
      then (if inRun then collapseFrom true s' else 32%N :: collapseFrom true s')
      else c :: collapseFrom false s'
  end.

Definition collapseSpaces (s : jsstring) : jsstring := collapseFrom false s.

(** [parts.join(sep)] *)
Fixpoint join (sep : jsstring) (parts : list jsstring) : jsstring :=
  match parts with
  | [] => []
  | [p] => p
  | p :: rest => p ++ sep ++ join sep rest
  end.

End JsString.

Import JsString.

(** ** Configuration

    The constants the server reads from the environment when it starts. The
    two numeric options are read with [Number(...)]; only their comparisons
    with integers are used, so an integer stands for each. *)

Record Config := {
  DATA_DIR : jsstring;
  CACHE_DIR : jsstring;
  pathSep : N;
  DEFAULT_GRIB_FILE : jsstring;
  GRIB_MATCHES : list jsstring;
  DEFAULT_VAR : jsstring;
  DATA_PALETTE : jsstring;
  RETRY_INTERVAL_MS : Z;
  BORDER_COLOR_TOLERANCE : Z;
  CROP_ALPHA_THRESHOLD : Z
}.

(** ** Request parameters *)

Section Params.

(** [String.prototype.toUpperCase] and [toLowerCase]: the Unicode case
    mappings are those of the runtime. *)
Variable toUpperCase : jsstring -> jsstring.
Variable toLowerCase : jsstring -> jsstring.
Variable cfg : Config.

(** [/^\d{1,2}$/.test(s)] *)
Definition isOneOrTwoDigits (s : jsstring) : bool :=
  match s with
  | [a] => isDigit a
  | [a; b] => isDigit a && isDigit b
  | _ => false
  end.

(** A query parameter is [None] when it is [undefined] or [null], and
    otherwise the string [String(value)]. *)
Definition normalizeHourParam (hour : option jsstring) : option jsstring :=
  match hour with
  | None => None
  | Some [] => None
  | Some h =>
      let s := stripSuffixUnit 72 (toUpperCase (trim h)) in
      if negb (isOneOrTwoDigits s) then None
      else
        let n := digitsValue s in
        if ((n <? 8) || (15 <? n))%N then None
        else Some (padStart 2 48 (decimalString n))
  end.

Definition allowedVars : list jsstring :=
  [js "CAPE"; js "RPRATE"; js "SPRATE"; js "GPRATE"; js "LCDC"; js "PRES"].

Definition normalizeVarParam (v : option jsstring) : option jsstring :=
  match v with
  | None => None
  | Some [] => None
  | Some v =>
      let s := toUpperCase (trim v) in
      if bool_decide (s ∈ allowedVars) then Some s else None
  end.

Definition matchExprsForVar (v : jsstring) : list jsstring :=
  if bool_decide (v = js "CAPE") then [js ":CAPE:"]
  else if bool_decide (v = js "RPRATE") then [js ":RPRATE:"; js ":PRATE:"; js ":APCP:"]
  else if bool_decide (v = js "SPRATE") then [js ":SPRATE:"]
  else if bool_decide (v = js "GPRATE") then [js ":GPRATE:"]
  else if bool_decide (v = js "LCDC") then [js ":LCDC:"]
  else if bool_decide (v = js "PRES") then [js ":PRES:"]
  else GRIB_MATCHES cfg.

(** [path.join(dir, name)] for a file name without separators. *)
Definition pathJoin (dir name : jsstring) : jsstring :=
  dir ++ pathSep cfg :: name.

Definition buildGribPathForHour (hh : jsstring) : jsstring :=
  pathJoin (DATA_DIR cfg) (hh ++ js "H.grib2").

(** The class [[a-z0-9_-]] under the [i] flag. *)
Definition isSafeUnit (c : N) : bool :=
  ((97 <=? c) && (c <=? 122) || (65 <=? c) && (c <=? 90)
   || (48 <=? c) && (c <=? 57) || (c =? 95) || (c =? 45))%N.

Definition safeKey (key : jsstring) : jsstring := List.filter isSafeUnit key.

Record Paths := {
  capeNc : jsstring;
  capeTif : jsstring;
  overlayPng : jsstring;
  overlayTmpPng : jsstring
}.

Definition getPathsForVarAndKey (varKey key : jsstring) : Paths :=
  let v := safeKey (toLowerCase (match varKey with [] => js "var" | _ => varKey end)) in
  let k := safeKey key in
  {| capeNc := pathJoin (CACHE_DIR cfg) (v ++ js "_" ++ k ++ js ".nc");
     capeTif := pathJoin (CACHE_DIR cfg) (v ++ js "_" ++ k ++ js "_3857.tif");
     overlayPng := pathJoin (CACHE_DIR cfg) (v ++ js "_" ++ k ++ js "_color.png");
     overlayTmpPng := pathJoin (CACHE_DIR cfg) (v ++ js "_" ++ k ++ js "_color.tmp.png") |}.

(** What both routes compute from the query before they call the
    orchestrator. *)
Record Resolved := {
  r_hour : option jsstring;
  r_varKey : jsstring;
  r_timeKey : jsstring;
  r_key : jsstring;
  r_gribPath : jsstring;
  r_paths : Paths;
  r_matchExprs : list jsstring
}.

Definition resolveQuery (qhour qvar : option jsstring) : Resolved :=
  let hour := normalizeHourParam qhour in
  let varKey := match normalizeVarParam qvar with
                | Some v => v
                | None => DEFAULT_VAR cfg
                end in
  let timeKey := match hour with Some h => h ++ js "H" | None => js "default" end in
  {| r_hour := hour;
     r_varKey := varKey;
     r_timeKey := timeKey;
     r_key := varKey ++ js "_" ++ timeKey;
     r_gribPath := match hour with
                   | Some h => buildGribPathForHour h
                   | None => DEFAULT_GRIB_FILE cfg
                   end;
     r_paths := getPathsForVarAndKey varKey timeKey;
     r_matchExprs := matchExprsForVar varKey |}.

(** The two rules in the words of the specification. The variable is
    uppercased and must belong to the enumerated set. The hour is trimmed, an
    optional trailing [H] is stripped, and what is left must be one or two
    digits denoting 8..15; it is returned padded to two digits. *)
Definition specNormalizeVar (raw : jsstring) : option jsstring :=
  if bool_decide (toUpperCase raw ∈ allowedVars) then Some (toUpperCase raw) else None.

Definition specNormalizeHour (raw : jsstring) : option jsstring :=
  let s := stripSuffixUnit 72 (trim raw) in
  if isOneOrTwoDigits s && (8 <=? digitsValue s)%N && (digitsValue s <=? 15)%N
  then Some (padStart 2 48 (decimalString (digitsValue s)))
  else None.

End Params.

(** The case mapping on the ASCII range, where every name, digit and letter
    the parameters are compared with lives. *)
Definition asciiUpperUnit (c : N) : N :=
  if ((97 <=? c) && (c <=? 122))%N then (c - 32)%N else c.

Definition asciiUpper (s : jsstring) : jsstring := List.map asciiUpperUnit s.


(** ** 32-bit integer operators

    [<<], [>>], [|] and [&] convert their operands with ToInt32 and give a
    signed 32-bit result. *)

Definition toInt32 (n : Z) : Z :=
  let m := n mod 2 ^ 32 in
  if 2 ^ 31 <=? m then m - 2 ^ 32 else m.

Definition jsShl (a k : Z) : Z := toInt32 (Z.shiftl (toInt32 a) k).
Definition jsSar (a k : Z) : Z := Z.shiftr (toInt32 a) k.
Definition jsOr (a b : Z) : Z := toInt32 (Z.lor (toInt32 a) (toInt32 b)).
Definition jsAnd (a b : Z) : Z := toInt32 (Z.land (toInt32 a) (toInt32 b)).

(** ** Rasters

    The object [pngjs] reads and writes: dimensions and the RGBA bytes in
    row-major order, four per pixel. *)

Record Png := {
  width : Z;
  height : Z;
  data : list Z
}.

(** [data[i]]: [None] is [undefined]. *)
Definition byteAt (d : list Z) (i : Z) : option Z :=
  if i <? 0 then None else d !! Z.to_nat i.

(** [data[i] = v]: an index outside the buffer is ignored. *)
Definition setByte (d : list Z) (i v : Z) : list Z :=
  if i <? 0 then d else <[Z.to_nat i := v]> d.

(** An operand of a bitwise operator: [undefined] counts as 0. *)
Definition orZero (o : option Z) : Z := default 0 o.

(** [(width * y + x) << 2] *)
Definition pixelIndex (w x y : Z) : Z := jsShl (w * y + x) 2.

(** [for (let y = 0; y < h; y++) for (let x = 0; x < w; x++) body], the
    state threaded through the iterations. *)
Definition forRows {S : Type} (w h : Z) (body : S -> Z -> Z -> S) (s : S) : S :=
  fold_left (fun s y => fold_left (fun s x => body s x y) (seqZ 0 w) s) (seqZ 0 h) s.

(** *** Border transparency *)

(** The [Map] of colour counts, in insertion order. *)
Fixpoint countsGet (k : Z) (m : list (Z * Z)) : option Z :=
  match m with
  | [] => None
  | (k', c) :: m' => if k =? k' then Some c else countsGet k m'
  end.

Fixpoint countsSet (k c : Z) (m : list (Z * Z)) : list (Z * Z) :=
  match m with
  | [] => [(k, c)]
  | (k', c') :: m' =>
      if k =? k' then (k, c) :: m' else (k', c') :: countsSet k c m'
  end.

(** [(r << 16) | (g << 8) | b] *)
Definition colorKey (r g b : Z) : Z := jsOr (jsOr (jsShl r 16) (jsShl g 8)) b.

Definition samplePixel (p : Png) (counts : list (Z * Z)) (x y : Z) : list (Z * Z) :=
  let i := pixelIndex (width p) x y in
  match byteAt (data p) (i + 3) with
  | Some 0 => counts
  | _ =>
      let r := byteAt (data p) (i + 0) in
      let g := byteAt (data p) (i + 1) in
      let b := byteAt (data p) (i + 2) in
      let key := colorKey (orZero r) (orZero g) (orZero b) in
      countsSet key (default 0 (countsGet key counts) + 1) counts
  end.

(** The two edge loops. *)
Definition sampleBorder (p : Png) : list (Z * Z) :=
  let counts :=
    fold_left (fun c x => samplePixel p (samplePixel p c x 0) x (height p - 1))
              (seqZ 0 (width p)) [] in
  fold_left (fun c y => samplePixel p (samplePixel p c 0 y) (width p - 1) y)
            (seqZ 0 (height p)) counts.

(** The most frequent key, the first seen among equals: [(bgKey, bgCount)]. *)
Definition pickDominant (counts : list (Z * Z)) : option Z * Z :=
  fold_left (fun '(bgKey, bgCount) '(k, c) =>
               if bgCount <? c then (Some k, c) else (bgKey, bgCount))
            counts (None, -1).

(** [Math.abs(v - bg) <= tol] on a byte that may be [undefined]. *)
Definition withinTol (tol bg : Z) (v : option Z) : bool :=
  match v with
  | Some v => Z.abs (v - bg) <=? tol
  | None => false
  end.

Definition clearPixel (w tol bgR bgG bgB : Z) (d : list Z) (x y : Z) : list Z :=
  let i := pixelIndex w x y in
  match byteAt d (i + 3) with
  | Some 0 => d
  | _ =>
      if withinTol tol bgR (byteAt d (i + 0))
         && withinTol tol bgG (byteAt d (i + 1))
         && withinTol tol bgB (byteAt d (i + 2))
      then setByte d (i + 3) 0
      else d
  end.

(** The raster the function writes back, or [None] when it returns before
    writing. *)
Definition makeDominantBorderColorTransparent (tol : Z) (p : Png) : option Png :=
  if (width p =? 0) || (height p =? 0) then None
  else
    match fst (pickDominant (sampleBorder p)) with
    | None => None
    | Some bgKey =>
        let bgR := jsAnd (jsSar bgKey 16) 255 in
        let bgG := jsAnd (jsSar bgKey 8) 255 in
        let bgB := jsAnd bgKey 255 in
        Some {| width := width p;
                height := height p;
                data := forRows (width p) (height p)
                          (clearPixel (width p) tol bgR bgG bgB) (data p) |}
    end.

(** The raster at the path after the call. *)
Definition borderTransparent (tol : Z) (p : Png) : Png :=
  default p (makeDominantBorderColorTransparent tol p).

(** *** Content crop *)

Record Crop := {
  minX : Z;
  minY : Z;
  maxX : Z;
  maxY : Z;
  fullWidth : Z;
  fullHeight : Z
}.

(** [a >= alphaThreshold] on a byte that may be [undefined]. *)
Definition alphaCounts (thr : Z) (a : option Z) : bool :=
  match a with
  | Some a => thr <=? a
  | None => false
  end.

Definition scanPixel (p : Png) (thr : Z) (st : Z * Z * Z * Z) (x y : Z) : Z * Z * Z * Z :=
  let '(mnX, mnY, mxX, mxY) := st in
  let i := pixelIndex (width p) x y in
  if alphaCounts thr (byteAt (data p) (i + 3)) then
    (if x <? mnX then x else mnX,
     if y <? mnY then y else mnY,
     if mxX <? x then x else mxX,
     if mxY <? y then y else mxY)
  else st.

Definition scanBounds (thr : Z) (p : Png) : Z * Z * Z * Z :=
  forRows (width p) (height p) (scanPixel p thr) (width p, height p, -1, -1).

(** A byte stored into a [Buffer]: [undefined] is stored as 0. *)
Definition copyPixel (p : Png) (mnX mnY cropW : Z) (out : list Z) (x y : Z) : list Z :=
  let srcI := pixelIndex (width p) (mnX + x) (mnY + y) in
  let dstI := jsShl (cropW * y + x) 2 in
  let out := setByte out (dstI + 0) (orZero (byteAt (data p) (srcI + 0))) in
  let out := setByte out (dstI + 1) (orZero (byteAt (data p) (srcI + 1))) in
  let out := setByte out (dstI + 2) (orZero (byteAt (data p) (srcI + 2))) in
  setByte out (dstI + 3) (orZero (byteAt (data p) (srcI + 3))).

(** [new PNG({ width, height })]: a zero-filled buffer. *)
Definition newPng (w h : Z) : Png :=
  {| width := w; height := h; data := replicate (Z.to_nat (4 * w * h)) 0 |}.

(** The value returned ([None] is [null]) and the raster written back, if
    any. *)
Definition cropPngToNonTransparent (thr : Z) (p : Png) : option Crop * option Png :=
  let '(mnX, mnY, mxX, mxY) := scanBounds thr p in
  if (mxX <? mnX) || (mxY <? mnY) then (None, None)
  else
    let cropW := mxX - mnX + 1 in
    let cropH := mxY - mnY + 1 in
    let rect := {| minX := mnX; minY := mnY; maxX := mxX; maxY := mxY;
                   fullWidth := width p; fullHeight := height p |} in
    if (cropW =? width p) && (cropH =? height p) then (Some rect, None)
    else
      let out := newPng cropW cropH in
      (Some rect,
       Some {| width := cropW;
               height := cropH;
               data := forRows cropW cropH (copyPixel p mnX mnY cropW) (data out) |}).

(** The raster at the path after the call. *)
Definition croppedRaster (thr : Z) (p : Png) : Png :=
  default p (snd (cropPngToNonTransparent thr p)).

(** *** What the properties of the two operations are stated with *)

(** Byte [c] of the pixel at column [x] and row [y]: 0, 1, 2 and 3 are red,
    green, blue and alpha. *)
Definition channel (p : Png) (x y c : Z) : option Z :=
  byteAt (data p) (4 * (width p * y + x) + c).

Definition inside (p : Png) (x y : Z) : Prop :=
  0 <= x < width p /\ 0 <= y < height p.

(** A raster as [pngjs] holds it: four bytes per pixel, and a buffer short
    enough for its offsets to be 32-bit integers. *)
Definition wfPng (p : Png) : Prop :=
  0 <= width p /\ 0 <= height p
  /\ Z.of_nat (length (data p)) = 4 * width p * height p
  /\ 4 * width p * height p < 2 ^ 31.

(** The pixel counts for the crop: its alpha is at or above the threshold. *)
Definition counted (thr : Z) (p : Png) (x y : Z) : Prop :=
  inside p x y /\ exists a, channel p x y 3 = Some a /\ thr <= a.

(** From [d] to [d'] nothing changed but alpha bytes that went from a
    non-zero value to zero. *)
Definition onlyClearsAlpha (d d' : list Z) : Prop :=
  length d' = length d
  /\ forall j : nat,
       d' !! j = d !! j
       \/ (Z.of_nat j mod 4 = 3
           /\ exists a, d !! j = Some a /\ a <> 0 /\ d' !! j = Some 0).

(** The test of the scan on pixel number [k], and the invariant of the scan
    after the pixels numbered below [n]: nothing counted yet and the bounds
    are the initial ones, or the bounds enclose every counted pixel and each
    is attained by one. *)
Definition countedAt (thr : Z) (p : Png) (k : Z) : bool :=
  alphaCounts thr
    (byteAt (data p) (pixelIndex (width p) (k mod width p) (k / width p) + 3)).

Definition scanInv (thr : Z) (p : Png) (n : Z) (st : Z * Z * Z * Z) : Prop :=
  let '(a, b, c, d) := st in
  (st = (width p, height p, -1, -1)
   /\ forall k, 0 <= k < n -> countedAt thr p k = false)
  \/ ((forall k, 0 <= k < n -> countedAt thr p k = true ->
         a <= k mod width p <= c /\ b <= k / width p <= d)
      /\ (exists k, 0 <= k < n /\ countedAt thr p k = true /\ k mod width p = a)
      /\ (exists k, 0 <= k < n /\ countedAt thr p k = true /\ k / width p = b)
      /\ (exists k, 0 <= k < n /\ countedAt thr p k = true /\ k mod width p = c)
      /\ (exists k, 0 <= k < n /\ countedAt thr p k = true /\ k / width p = d)).

(** Content crop in the words of the specification. With no counted pixel
    the result is empty and nothing is written. Otherwise the rectangle is
    the smallest one around the counted pixels and comes with the original
    dimensions; nothing is written when it is the whole raster; else the
    raster written has the size of the rectangle and, pixel by pixel and
    byte by byte, the content of the rectangle. *)
Definition cropSpec (thr : Z) (p : Png) : Prop :=
  match cropPngToNonTransparent thr p with
  | (None, written) =>
      written = None /\ forall x y, ~ counted thr p x y
  | (Some r, written) =>
      fullWidth r = width p /\ fullHeight r = height p
      /\ (forall x y, counted thr p x y ->
            minX r <= x <= maxX r /\ minY r <= y <= maxY r)
      /\ (exists y, counted thr p (minX r) y)
      /\ (exists x, counted thr p x (minY r))
      /\ (exists y, counted thr p (maxX r) y)
      /\ (exists x, counted thr p x (maxY r))
      /\ let cropW := maxX r - minX r + 1 in
         let cropH := maxY r - minY r + 1 in
         (cropW = width p /\ cropH = height p -> written = None)
         /\ (~ (cropW = width p /\ cropH = height p) ->
             exists out,
               written = Some out
               /\ width out = cropW /\ height out = cropH
               /\ Z.of_nat (length (data out)) = 4 * cropW * cropH
               /\ forall x y c, 0 <= x < cropW -> 0 <= y < cropH -> 0 <= c < 4 ->
                    is_Some (channel out x y c)
                    /\ channel out x y c = channel p (minX r + x) (minY r + y) c)
  end.

(** A raster that is opaque on the rectangle of columns [x0..x1] and rows
    [y0..y1] and transparent elsewhere. *)
Definition opaqueExactlyOn (p : Png) (x0 y0 x1 y1 : Z) : Prop :=
  0 <= x0 <= x1 /\ x1 < width p /\ 0 <= y0 <= y1 /\ y1 < height p
  /\ forall x y, inside p x y ->
       channel p x y 3
       = Some (if (x0 <=? x) && (x <=? x1) && (y0 <=? y) && (y <=? y1) then 255 else 0).

(** The particular case of the specification: on a raster opaque exactly on
    a rectangle, with a threshold that tells opaque from transparent, the
    crop returns the rectangle and leaves at the path its pixels. *)
Definition cropRectangleSpec (thr : Z) (p : Png) : Prop :=
  forall x0 y0 x1 y1,
    1 <= thr <= 255 ->
    opaqueExactlyOn p x0 y0 x1 y1 ->
    fst (cropPngToNonTransparent thr p)
    = Some {| minX := x0; minY := y0; maxX := x1; maxY := y1;
              fullWidth := width p; fullHeight := height p |}
    /\ width (croppedRaster thr p) = x1 - x0 + 1
    /\ height (croppedRaster thr p) = y1 - y0 + 1
    /\ forall x y c, 0 <= x < x1 - x0 + 1 -> 0 <= y < y1 - y0 + 1 -> 0 <= c < 4 ->
         channel (croppedRaster thr p) x y c = channel p (x0 + x) (y0 + y) c.

(** The bytes of a [Buffer]. *)
Definition wfBytes (p : Png) : Prop := Forall (fun v => 0 <= v <= 255) (data p).

(** The pixels of the four edges, and the rasters whose edges are fully
    transparent. *)
Definition edgePixel (p : Png) (x y : Z) : Prop :=
  inside p x y /\ (x = 0 \/ x = width p - 1 \/ y = 0 \/ y = height p - 1).

Definition edgesCleared (p : Png) : Prop :=
  forall x y, edgePixel p x y -> channel p x y 3 = Some 0.

(** The invariant of the sampling: every key counted is the colour of an
    edge pixel that is not fully transparent, and its count is positive. *)
Definition sampledFrom (p : Png) (counts : list (Z * Z)) : Prop :=
  forall k c, (k, c) ∈ counts ->
    1 <= c
    /\ exists x y r g b,
         edgePixel p x y
         /\ channel p x y 3 <> Some 0
         /\ channel p x y 0 = Some r /\ channel p x y 1 = Some g
         /\ channel p x y 2 = Some b
         /\ k = colorKey r g b.

(** The colour [bgKey] the function picks, if it picks one. *)
Definition dominantBorderColor (p : Png) : option Z :=
  if (width p =? 0) || (height p =? 0) then None
  else fst (pickDominant (sampleBorder p)).

(** ** Geographic bounds *)

(** [[southLat, westLon], [northLat, eastLon]] *)
Abbreviation Bounds := ((R * R) * (R * R))%type.

Definition FRANCE_BOUNDS : Bounds := ((41, -5.5), (51.5, 9.8))%R.

Definition Rleb (a b : R) : bool := if Rle_dec a b then true else false.
Definition Rltb (a b : R) : bool := if Rlt_dec a b then true else false.

(** [{ lon, lat }] as the pair [(lon, lat)]. *)
Definition mercatorToLonLat (x y : R) : R * R :=
  let Rm := 6378137%R in
  let lon := (x / Rm * (180 / PI))%R in
  let lat := ((2 * atan (exp (y / Rm)) - PI / 2) * (180 / PI))%R in
  (lon, lat).

(** [gt[k]]: [None] is [undefined], which every comparison rejects. *)
Definition geotransformLooksGeographic (gt : list R) : bool :=
  match gt !! 0%nat, gt !! 3%nat, gt !! 1%nat, gt !! 5%nat with
  | Some x0, Some y0, Some pxW, Some pxH =>
      Rleb (Rabs x0) 360
      && Rleb (Rabs y0) 180
      && Rltb 0 (Rabs pxW)
      && Rleb (Rabs pxW) 5
      && Rltb 0 (Rabs pxH)
      && Rleb (Rabs pxH) 5
  | _, _, _, _ => false
  end.

(** The geometry of the pipeline between the crop and the publication: from
    the transform (six numbers at least, checked by the caller) and the crop
    rectangle to the bounds. *)
Definition boundsOfCrop (gt : list R) (crop : Crop) : Bounds :=
  let x0 := nth 0 gt 0%R in
  let pxW := nth 1 gt 0%R in
  let y0 := nth 3 gt 0%R in
  let pxH := nth 5 gt 0%R in
  let minCol := IZR (minX crop) in
  let maxCol := IZR (maxX crop) in
  let minRow := IZR (minY crop) in
  let maxRow := IZR (maxY crop) in
  let mnX := (x0 + minCol * pxW)%R in
  let mxX := (x0 + (maxCol + 1) * pxW)%R in
  let mxY := (y0 + minRow * pxH)%R in
  let mnY := (y0 + (maxRow + 1) * pxH)%R in
  if geotransformLooksGeographic gt then
    ((Rmin mnY mxY, Rmin mnX mxX), (Rmax mnY mxY, Rmax mnX mxX))
  else
    let ll := mercatorToLonLat mnX mnY in
    let ur := mercatorToLonLat mxX mxY in
    ((Rmin (snd ll) (snd ur), Rmin (fst ll) (fst ur)),
     (Rmax (snd ll) (snd ur), Rmax (fst ll) (fst ur))).

(** ** Errors, files and the external toolchain *)

(** An [Error] object: [stdout] and [stderr] are attached by [runCmd]; an
    empty field stands for an absent one (both are falsy). *)
Record JsError := {
  e_name : jsstring;
  e_message : jsstring;
  e_stdout : jsstring;
  e_stderr : jsstring
}.

(** [new Error(msg)] *)
Definition newError (msg : jsstring) : JsError :=
  {| e_name := js "Error"; e_message := msg; e_stdout := []; e_stderr := [] |}.

Inductive Result (A : Type) : Type :=
| Ok (a : A)
| Throw (e : JsError).
Arguments Ok {A} a.
Arguments Throw {A} e.

(** What a path holds. [PartialFile] is a file opened for writing whose
    content is not complete yet. The PNG codec is taken to be lossless: a
    PNG file is the raster it encodes. *)
Inductive File :=
| PngFile (p : Png)
| OtherFile (size : Z)
| PartialFile.

Inductive Tool := Wgrib2 | Gdalwarp | Gdaldem | Gdalinfo.

(** What the program did to the outside, oldest first. *)
Inductive Action :=
| ActUnlink (path : jsstring)
| ActRename (src dst : jsstring)
| ActWriteBegin (path : jsstring)
| ActWriteEnd (path : jsstring)
| ActRun (tool : Tool) (args : list jsstring).

Record Env := {
  fs : gmap jsstring File;
  trace : list Action
}.

(** The parts of the runtime that are not the program's: an external command
    (it answers with its standard output and error, or fails, and may change
    files; the number of actions so far lets its answer vary from call to
    call), the [geoTransform] member of the JSON that [gdalinfo] prints
    ([Ok None] when it is not an array), the procedural raster of
    [writeSyntheticPng], a function of its seed, and the error with which
    [fs.writeFile] rejects, if it does, for a path and the number of actions
    so far (a missing directory, a full disk). *)
Record Runtime := {
  runTool : Tool -> list jsstring -> nat -> gmap jsstring File ->
            Result (jsstring * jsstring) * gmap jsstring File;
  parseGeoTransform : jsstring -> Result (option (list R));
  syntheticPng : Z -> Png;
  writeFails : jsstring -> nat -> option JsError
}.

(** A computation that reads and changes the environment and may throw. *)
Definition M (A : Type) : Type := Env -> Result A * Env.

Definition ret {A} (a : A) : M A := fun env => (Ok a, env).
Definition throw {A} (e : JsError) : M A := fun env => (Throw e, env).
Definition bind {A B} (c : M A) (k : A -> M B) : M B :=
  fun env =>
    match c env with
    | (Ok a, env') => k a env'
    | (Throw e, env') => (Throw e, env')
    end.
Definition tryCatch {A} (c : M A) (h : JsError -> M A) : M A :=
  fun env =>
    match c env with
    | (Ok a, env') => (Ok a, env')
    | (Throw e, env') => h e env'
    end.

Notation "x <- c ;; k" := (bind c (fun x => k))
  (at level 100, c at next level, right associativity).
Notation "c ;;; k" := (bind c (fun _ => k))
  (at level 100, right associativity).

Definition act (a : Action) (env : Env) : Env :=
  {| fs := fs env; trace := trace env ++ [a] |}.
Definition withFs (f : gmap jsstring File) (env : Env) : Env :=
  {| fs := f; trace := trace env |}.

(** *** File operations *)

Definition existsSync (path : jsstring) (env : Env) : bool :=
  bool_decide (is_Some (fs env !! path)).

(** [fs.unlink]: fails on a missing file. *)
Definition unlink (path : jsstring) : M unit :=
  fun env =>
    let env' := act (ActUnlink path) env in
    match fs env !! path with
    | Some _ => (Ok tt, withFs (delete path (fs env)) env')
    | None =>
        (Throw (newError (js "ENOENT: no such file or directory, unlink '" ++ path ++ js "'")),
         env')
    end.

(** [fs.rename]: replaces the destination; fails on a missing source. *)
Definition rename (src dst : jsstring) : M unit :=
  fun env =>
    let env' := act (ActRename src dst) env in
    match fs env !! src with
    | Some f => (Ok tt, withFs (<[dst := f]> (delete src (fs env))) env')
    | None => (Throw (newError (js "ENOENT: no such file or directory, rename '" ++ src
                                ++ js "' -> '" ++ dst ++ js "'")), env')
    end.

(** [fs.writeFile], first half: the file is created or truncated. *)
Definition writeBegin (path : jsstring) (env : Env) : Env :=
  withFs (<[path := PartialFile]> (fs env)) (act (ActWriteBegin path) env).

(** [fs.writeFile], second half: the content is complete. *)
Definition writeEnd (path : jsstring) (f : File) (env : Env) : Env :=
  withFs (<[path := f]> (fs env)) (act (ActWriteEnd path) env).

Definition atomicReplaceFile (tmpPath finalPath : jsstring) : M unit :=
  tryCatch (unlink finalPath) (fun _ => ret tt) ;;;
  rename tmpPath finalPath.

(** [fs.stat(...).size] of a complete file; a PNG encoding is never empty. *)
Definition fileSize (f : File) : Z :=
  match f with
  | PngFile _ => 1
  | OtherFile n => n
  | PartialFile => 0
  end.

Definition ensureNonEmptyFile (path : jsstring) (minBytes : Z) (label : jsstring) : M unit :=
  fun env =>
    match fs env !! path with
    | Some f =>
        if (fileSize f =? 0) || (fileSize f <? minBytes)
        then (Throw (newError (label ++ js " vide ou manquant: " ++ path)), env)
        else (Ok tt, env)
    | None => (Throw (newError (label ++ js " vide ou manquant: " ++ path)), env)
    end.

(** [readPngWithRetry] on files that no one else is writing: the raster, or
    the error that ends the retries; on a file that is not a PNG, the
    decoder stops at the signature and reports what follows it. *)
Definition readPngWithRetry (path : jsstring) : M Png :=
  fun env =>
    match fs env !! path with
    | Some (PngFile p) => (Ok p, env)
    | Some (OtherFile n) =>
        if n =? 0 then (Throw (newError (js "PNG vide")), env)
        else (Throw (newError (js "unrecognised content at end of stream")), env)
    | Some PartialFile => (Throw (newError (js "PNG vide")), env)
    | None =>
        (Throw (newError (js "ENOENT: no such file or directory, stat '" ++ path
                          ++ js "'")), env)
    end.

Section Pipeline.

Variable cfg : Config.
Variable rt : Runtime.

Definition runCmd (tool : Tool) (args : list jsstring) : M (jsstring * jsstring) :=
  fun env =>
    let '(res, f) := runTool rt tool args (length (trace env)) (fs env) in
    (res, withFs f (act (ActRun tool args) env)).

(** [fs.writeFile]: the promise is fulfilled once the content is complete,
    or rejected, the file being left as far as it was written. *)
Definition writeFile (path : jsstring) (f : File) : M unit :=
  fun env =>
    let env1 := writeBegin path env in
    match writeFails rt path (length (trace env1)) with
    | Some e => (Throw e, env1)
    | None => (Ok tt, writeEnd path f env1)
    end.

Definition writeSyntheticPng (outPath : jsstring) (seed : Z) : M unit :=
  writeFile outPath (PngFile (syntheticPng rt seed)).

(** The two post-processing steps on the file at [pngPath]. *)
Definition makeDominantBorderColorTransparentAt (pngPath : jsstring) : M unit :=
  png <- readPngWithRetry pngPath ;;
  match makeDominantBorderColorTransparent (BORDER_COLOR_TOLERANCE cfg) png with
  | Some png' => writeFile pngPath (PngFile png')
  | None => ret tt
  end.

Definition cropPngToNonTransparentAt (pngPath : jsstring) : M (option Crop) :=
  png <- readPngWithRetry pngPath ;;
  match cropPngToNonTransparent (CROP_ALPHA_THRESHOLD cfg) png with
  | (crop, Some out) => writeFile pngPath (PngFile out) ;;; ret crop
  | (crop, None) => ret crop
  end.

Record Converted := {
  c_bounds : Bounds;
  c_matchExpr : jsstring
}.

(** The body of the [try] for one candidate expression. *)
Definition tryCandidate (gribPath : jsstring) (paths : Paths) (matchExpr : jsstring)
  : M Converted :=
  tryCatch (unlink (capeNc paths)) (fun _ => ret tt) ;;;
  runCmd Wgrib2 [gribPath; js "-match"; matchExpr; js "-netcdf"; capeNc paths] ;;;
  ensureNonEmptyFile (capeNc paths) 200 (js "wgrib2 (" ++ matchExpr ++ js ") netcdf") ;;;
  runCmd Gdalwarp [js "-overwrite"; js "-t_srs"; js "EPSG:3857"; capeNc paths; capeTif paths] ;;;
  runCmd Gdaldem [js "color-relief"; capeTif paths; DATA_PALETTE cfg;
                  overlayTmpPng paths; js "-alpha"] ;;;
  makeDominantBorderColorTransparentAt (overlayTmpPng paths) ;;;
  info <- runCmd Gdalinfo [js "-json"; capeTif paths] ;;
  match parseGeoTransform rt (fst info) with
  | Throw e => throw e
  | Ok parsed =>
      match parsed with
      | None => throw (newError (js "gdalinfo: geoTransform manquant"))
      | Some gt =>
          if (length gt <? 6)%nat
          then throw (newError (js "gdalinfo: geoTransform manquant"))
          else
            crop <- cropPngToNonTransparentAt (overlayTmpPng paths) ;;
            match crop with
            | None =>
                atomicReplaceFile (overlayTmpPng paths) (overlayPng paths) ;;;
                ret {| c_bounds := FRANCE_BOUNDS; c_matchExpr := matchExpr |}
            | Some crop =>
                let bounds := boundsOfCrop gt crop in
                atomicReplaceFile (overlayTmpPng paths) (overlayPng paths) ;;;
                ret {| c_bounds := bounds; c_matchExpr := matchExpr |}
            end
      end
  end.

(** [(e && (e.stderr || e.stdout || e.message)) || e || 'Erreur inconnue'],
    as a string. *)
Definition errorText (e : option JsError) : jsstring :=
  match e with
  | None => js "Erreur inconnue"
  | Some e =>
      match e_stderr e, e_stdout e, e_message e with
      | _ :: _, _, _ => e_stderr e
      | [], _ :: _, _ => e_stdout e
      | [], [], _ :: _ => e_message e
      | [], [], [] => e_name e
      end
  end.

(** [String(...).replace(/\s+/g, ' ').slice(0, 600)] *)
Definition errorDetails (e : option JsError) : jsstring :=
  slice0 600 (collapseSpaces (errorText e)).

(** The message of the error thrown when no candidate is left. *)
Definition noFieldMessage (matches : list jsstring) (lastErr : option JsError) : jsstring :=
  js "Aucun champ trouv" ++ [233%N] ++ js " via -match. Tent" ++ [233%N] ++ js "s: "
  ++ join (js ", ") matches
  ++ js ". Derni" ++ [232%N] ++ js "re erreur: " ++ errorDetails lastErr.

(** The [for ... of] loop: the result of the first candidate that succeeds,
    or the last error once the list is exhausted. *)
Fixpoint tryCandidates (gribPath : jsstring) (paths : Paths)
  (candidates : list jsstring) (lastErr : option JsError) (env : Env)
  : (Converted + option JsError) * Env :=
  match candidates with
  | [] => (inr lastErr, env)
  | matchExpr :: rest =>
      match tryCandidate gribPath paths matchExpr env with
      | (Ok res, env') => (inl res, env')
      | (Throw e, env') => tryCandidates gribPath paths rest (Some e) env'
      end
  end.

Definition effectiveMatches (matchExprs : list jsstring) : list jsstring :=
  match matchExprs with
  | [] => GRIB_MATCHES cfg
  | _ :: _ => matchExprs
  end.

Definition convertGribToPngViaPipeline (gribPath : jsstring)
  (matchExprs : list jsstring) (paths : Paths) : M Converted :=
  fun env =>
    if negb (existsSync (DATA_PALETTE cfg) env)
    then (Throw (newError (js "Palette manquante: " ++ DATA_PALETTE cfg)), env)
    else
      let matches := effectiveMatches matchExprs in
      match tryCandidates gribPath paths matches None env with
      | (inl res, env') => (Ok res, env')
      | (inr lastErr, env') => (Throw (newError (noFieldMessage matches lastErr)), env')
      end.

(** Every candidate of the list, tried in order from [env], threw:
    [env'] is the environment after the last of them and [lastErr'] the
    error it threw ([lastErr] when the list is empty). *)
Inductive allFailed (gribPath : jsstring) (paths : Paths)
  : Env -> list jsstring -> option JsError -> Env -> option JsError -> Prop :=
| allFailed_nil env lastErr :
    allFailed gribPath paths env [] lastErr env lastErr
| allFailed_cons env c e env1 rest lastErr env' lastErr' :
    tryCandidate gribPath paths c env = (Throw e, env1) ->
    allFailed gribPath paths env1 rest (Some e) env' lastErr' ->
    allFailed gribPath paths env (c :: rest) lastErr env' lastErr'.

End Pipeline.

(** The expressions [wgrib2] was run with, oldest first. *)
Definition attemptedBy (a : Action) : list jsstring :=
  match a with
  | ActRun Wgrib2 args => [nth 2 args []]
  | _ => []
  end.

Definition attempted (tr : list Action) : list jsstring :=
  concat (List.map attemptedBy tr).

(** A computation that does not run [wgrib2]. *)
Definition quiet {A} (c : M A) : Prop :=
  forall env, attempted (trace (snd (c env))) = attempted (trace env).

(** ** Cache and refresh orchestrator *)

Inductive Source := SrcWgrib2 | SrcSynthetic.

Record CacheEntry := {
  updatedAt : Z;
  bounds : Bounds;
  source : Source;
  message : jsstring;
  gribMtimeMs : option Z;
  pipelineAvailable : option bool;
  lastErrorAt : Z
}.

Definition makeEmptyCache : CacheEntry :=
  {| updatedAt := 0;
     bounds := FRANCE_BOUNDS;
     source := SrcSynthetic;
     message := js "synthetic";
     gribMtimeMs := None;
     pipelineAvailable := None;
     lastErrorAt := 0 |}.

(** The arguments of [ensureOverlayUpToDate]. *)
Record Request := {
  q_key : jsstring;
  q_gribPath : jsstring;
  q_paths : Paths;
  q_matchExprs : list jsstring;
  q_varKey : jsstring
}.

(** [safeKey(key || 'default')] *)
Definition cacheKey (key : jsstring) : jsstring :=
  safeKey (match key with [] => js "default" | _ :: _ => key end).

Definition getCacheForKey (caches : gmap jsstring CacheEntry) (key : jsstring)
  : gmap jsstring CacheEntry * CacheEntry :=
  match caches !! cacheKey key with
  | Some e => (caches, e)
  | None => (<[cacheKey key := makeEmptyCache]> caches, makeEmptyCache)
  end.

(** The promise returned by [convertGribToPngViaPipeline]. *)
Inductive Promise :=
| Pending
| Fulfilled (res : Converted)
| Rejected (e : JsError).

(** Where a call of [ensureOverlayUpToDate] is suspended, with the local
    variables it still needs ([pid] names the promise held in [p]);
    [Returned] carries the entry the route reads right after the call,
    [Threw] the exception the route catches. *)
Inductive Task :=
| AwaitMtime (now : Z)
| AwaitHasWgrib2 (now : Z) (mtime : option Z) (prev : option bool)
| AwaitHasGdalwarp (now : Z) (mtime : option Z) (prev : option bool) (hasWgrib2 : bool)
| AwaitHasGdaldem (now : Z) (mtime : option Z) (prev : option bool)
    (hasWgrib2 hasGdalwarp : bool)
| AwaitInflight (pid : nat)
| AwaitConversion (pid : nat) (mtime : option Z)
| AwaitFallbackWrite (pid : nat) (png : Png)
| AwaitFallbackUnlink (pid : nat)
| AwaitFallbackRename (pid : nat)
| AwaitSyntheticWrite (png : Png)
| Returned (seen : CacheEntry)
| Threw (e : JsError).

(** The process: the two module-level maps, the promises created so far
    (a promise is named by its position), the calls in progress, the clock
    of [Date.now()] and the outside. *)
Record World := {
  caches : gmap jsstring CacheEntry;
  conversionsInFlight : gmap jsstring nat;
  promises : list (Request * Promise);
  tasks : list (Request * Task);
  clock : Z;
  env : Env
}.

Definition setCaches (c : gmap jsstring CacheEntry) (w : World) : World :=
  {| caches := c; conversionsInFlight := conversionsInFlight w;
     promises := promises w; tasks := tasks w; clock := clock w; env := env w |}.
Definition setInFlight (m : gmap jsstring nat) (w : World) : World :=
  {| caches := caches w; conversionsInFlight := m;
     promises := promises w; tasks := tasks w; clock := clock w; env := env w |}.
Definition setPromises (p : list (Request * Promise)) (w : World) : World :=
  {| caches := caches w; conversionsInFlight := conversionsInFlight w;
     promises := p; tasks := tasks w; clock := clock w; env := env w |}.
Definition setTasks (t : list (Request * Task)) (w : World) : World :=
  {| caches := caches w; conversionsInFlight := conversionsInFlight w;
     promises := promises w; tasks := t; clock := clock w; env := env w |}.
Definition setClock (c : Z) (w : World) : World :=
  {| caches := caches w; conversionsInFlight := conversionsInFlight w;
     promises := promises w; tasks := tasks w; clock := c; env := env w |}.
Definition setEnv (e : Env) (w : World) : World :=
  {| caches := caches w; conversionsInFlight := conversionsInFlight w;
     promises := promises w; tasks := tasks w; clock := clock w; env := e |}.

(** The entry a call holds in [cache]: the object stays in the map, so the
    call always sees its current fields. *)
Definition entryOf (rq : Request) (w : World) : CacheEntry :=
  default makeEmptyCache (caches w !! cacheKey (q_key rq)).

Definition setEntry (rq : Request) (e : CacheEntry) (w : World) : World :=
  setCaches (<[cacheKey (q_key rq) := e]> (caches w)) w.

Definition setTask (tid : nat) (rq : Request) (t : Task) (w : World) : World :=
  setTasks (<[tid := (rq, t)]> (tasks w)) w.

(** A modification time in a condition: [null] and 0 are falsy. *)
Definition truthy (m : option Z) : bool :=
  match m with
  | Some v => negb (v =? 0)
  | None => false
  end.

Definition isWgrib2 (s : Source) : bool :=
  match s with SrcWgrib2 => true | SrcSynthetic => false end.

Definition missingTools (hasWgrib2 hasGdalwarp hasGdaldem : bool) : list jsstring :=
  (if hasWgrib2 then [] else [js "wgrib2"])
  ++ (if hasGdalwarp then [] else [js "gdalwarp"])
  ++ (if hasGdaldem then [] else [js "gdaldem"]).

(** [cache.pipelineAvailable = available] *)
Definition setPipelineAvailable (available : bool) (c0 : CacheEntry) : CacheEntry :=
  {| updatedAt := updatedAt c0; bounds := bounds c0; source := source c0;
     message := message c0; gribMtimeMs := gribMtimeMs c0;
     pipelineAvailable := Some available;
     lastErrorAt := lastErrorAt c0 |}.

Section Orchestrator.

Variable cfg : Config.
Variable rt : Runtime.

(** [cache] is the entry after [cache.pipelineAvailable] was assigned. *)
Definition shouldRetryAfterError (cache : CacheEntry) (now : Z) (mtime : option Z) : bool :=
  truthy mtime
  && bool_decide (pipelineAvailable cache = Some true)
  && negb (isWgrib2 (source cache))
  && negb (lastErrorAt cache =? 0)
  && (RETRY_INTERVAL_MS cfg <=? now - lastErrorAt cache).

Definition pipelineJustBecameAvailable (cache : CacheEntry) (prev : option bool) : bool :=
  bool_decide (pipelineAvailable cache = Some true) && bool_decide (prev = Some false).

(** The condition of the first [if]. *)
Definition regenerationWarranted (cache : CacheEntry) (now : Z) (mtime : option Z)
  (prev : option bool) : bool :=
  truthy mtime
  && bool_decide (pipelineAvailable cache = Some true)
  && (negb (bool_decide (gribMtimeMs cache = mtime))
      || shouldRetryAfterError cache now mtime
      || pipelineJustBecameAvailable cache prev).

(** [cache.updatedAt === 0 || shouldRefreshSynthetic || !existsSync(overlayPng)] *)
Definition syntheticIsStale (cache : CacheEntry) (now : Z) (rq : Request) (e : Env) : bool :=
  (updatedAt cache =? 0)
  || (30000 <? now - updatedAt cache)
  || negb (existsSync (overlayPng (q_paths rq)) e).

Definition okMessage (rq : Request) (res : Converted) : jsstring :=
  js "OK: " ++ q_varKey rq ++ js " wgrib2 ("
  ++ (match c_matchExpr res with
      | [] => join (js ",") (q_matchExprs rq)
      | _ :: _ => c_matchExpr res
      end)
  ++ js ") -> gdalwarp EPSG:3857 -> gdaldem color-relief".

Definition onSuccess (rq : Request) (res : Converted) (mtime : option Z) (now : Z)
  (cache : CacheEntry) : CacheEntry :=
  {| updatedAt := now;
     bounds := c_bounds res;
     source := SrcWgrib2;
     message := okMessage rq res;
     gribMtimeMs := mtime;
     pipelineAvailable := pipelineAvailable cache;
     lastErrorAt := 0 |}.

Definition onFailure (e : JsError) (mtime : option Z) (now : Z) (cache : CacheEntry)
  : CacheEntry :=
  {| updatedAt := now;
     bounds := FRANCE_BOUNDS;
     source := SrcSynthetic;
     message := js "Erreur pipeline: " ++ errorDetails (Some e);
     gribMtimeMs := mtime;
     pipelineAvailable := pipelineAvailable cache;
     lastErrorAt := now |}.

Definition onMissingSource (rq : Request) (now : Z) (cache : CacheEntry) : CacheEntry :=
  {| updatedAt := now;
     bounds := FRANCE_BOUNDS;
     source := SrcSynthetic;
     message := js "GRIB manquant: place un fichier en " ++ q_gribPath rq;
     gribMtimeMs := None;
     pipelineAvailable := pipelineAvailable cache;
     lastErrorAt := lastErrorAt cache |}.

Definition onToolsMissing (missing : list jsstring) (mtime : option Z) (now : Z)
  (cache : CacheEntry) : CacheEntry :=
  {| updatedAt := now;
     bounds := FRANCE_BOUNDS;
     source := SrcSynthetic;
     message := js "GRIB d" ++ [233%N] ++ js "tect" ++ [233%N]
                ++ js " mais outils indisponibles (" ++ join (js ", ") missing
                ++ js "). Fallback synth" ++ [233%N] ++ js "tique.";
     gribMtimeMs := mtime;
     pipelineAvailable := pipelineAvailable cache;
     lastErrorAt := lastErrorAt cache |}.

(** A route calls [ensureOverlayUpToDate]: up to the first [await]. *)
Definition startRequest (rq : Request) (w : World) : World :=
  let w := setCaches (fst (getCacheForKey (caches w) (q_key rq))) w in
  setTasks (tasks w ++ [(rq, AwaitMtime (clock w))]) w.

(** [await inflight] on the promise registered for the key. *)
Definition awaitInflight (tid : nat) (rq : Request) (pid : nat) (w : World) : World :=
  match promises w !! pid with
  | Some (_, Rejected e) => setTask tid rq (Threw e) w
  | Some (_, Fulfilled _) => setTask tid rq (Returned (entryOf rq w)) w
  | _ => setTask tid rq (AwaitInflight pid) w
  end.

(** From the answer of the third probe to the next [await] or the return. *)
Definition afterProbes (tid : nat) (rq : Request) (now : Z) (mtime : option Z)
  (prev : option bool) (hasWgrib2 hasGdalwarp hasGdaldem : bool) (w : World) : World :=
  let missing := missingTools hasWgrib2 hasGdalwarp hasGdaldem in
  let cache := setPipelineAvailable (bool_decide (missing = [])) (entryOf rq w) in
  let w := setEntry rq cache w in
  if regenerationWarranted cache now mtime prev then
    match conversionsInFlight w !! q_key rq with
    | Some pid => awaitInflight tid rq pid w
    | None =>
        let pid := length (promises w) in
        let w := setPromises (promises w ++ [(rq, Pending)]) w in
        let w := setInFlight (<[q_key rq := pid]> (conversionsInFlight w)) w in
        setTask tid rq (AwaitConversion pid mtime) w
    end
  else if negb (truthy mtime) && syntheticIsStale cache now rq (env w) then
    let w := setEntry rq (onMissingSource rq (clock w) cache) w in
    let w := setEnv (writeBegin (overlayPng (q_paths rq)) (env w)) w in
    setTask tid rq (AwaitSyntheticWrite (syntheticPng rt (clock w))) w
  else if truthy mtime
          && negb (bool_decide (pipelineAvailable cache = Some true))
          && syntheticIsStale cache now rq (env w) then
    let w := setEntry rq (onToolsMissing missing mtime (clock w) cache) w in
    let w := setEnv (writeBegin (overlayPng (q_paths rq)) (env w)) w in
    setTask tid rq (AwaitSyntheticWrite (syntheticPng rt (clock w))) w
  else setTask tid rq (Returned cache) w.

(** The caller that started the conversion continues after [await p]. *)
Definition resumeInitiator (tid : nat) (rq : Request) (pid : nat) (mtime : option Z)
  (res : Result Converted) (w : World) : World :=
  match res with
  | Ok r =>
      let w := setEntry rq (onSuccess rq r mtime (clock w) (entryOf rq w)) w in
      let w := setInFlight (delete (q_key rq) (conversionsInFlight w)) w in
      setTask tid rq (Returned (entryOf rq w)) w
  | Throw e =>
      let w := setEntry rq (onFailure e mtime (clock w) (entryOf rq w)) w in
      let w := setEnv (writeBegin (overlayTmpPng (q_paths rq)) (env w)) w in
      setTask tid rq (AwaitFallbackWrite pid (syntheticPng rt (clock w))) w
  end.

(** A caller that awaited the promise of another continues. *)
Definition resumeWaiter (tid : nat) (rq : Request) (res : Result Converted) (w : World)
  : World :=
  match res with
  | Ok _ => setTask tid rq (Returned (entryOf rq w)) w
  | Throw e => setTask tid rq (Threw e) w
  end.

Definition resumeInitiators (pid : nat) (res : Result Converted) (w : World) : World :=
  fold_left
    (fun w tid =>
       match tasks w !! tid with
       | Some (rq, AwaitConversion pid' mtime) =>
           if (pid' =? pid)%nat then resumeInitiator tid rq pid mtime res w else w
       | _ => w
       end)
    (seq 0 (length (tasks w))) w.

Definition resumeWaiters (pid : nat) (res : Result Converted) (w : World) : World :=
  fold_left
    (fun w tid =>
       match tasks w !! tid with
       | Some (rq, AwaitInflight pid') =>
           if (pid' =? pid)%nat then resumeWaiter tid rq res w else w
       | _ => w
       end)
    (seq 0 (length (tasks w))) w.

Definition settled (res : Result Converted) : Promise :=
  match res with
  | Ok r => Fulfilled r
  | Throw e => Rejected e
  end.

(** The conversion behind promise [pid] runs to its end and the promise is
    settled; the reactions run in the order they were registered: the caller
    that created the promise, then those that found it in flight. *)
Definition settle (pid : nat) (w : World) : option World :=
  match promises w !! pid with
  | Some (rq, Pending) =>
      let '(res, env') :=
        convertGribToPngViaPipeline cfg rt (q_gribPath rq) (q_matchExprs rq)
          (q_paths rq) (env w) in
      let w := setEnv env' w in
      let w := setPromises (<[pid := (rq, settled res)]> (promises w)) w in
      Some (resumeWaiters pid res (resumeInitiators pid res w))
  | _ => None
  end.

(** A file operation of task [tid] completes, or is rejected: a rejected
    write throws out of the [catch] block, past the [finally] that removes
    the registration, or out of one of the two last branches. *)
Definition ioDone (tid : nat) (w : World) : option World :=
  match tasks w !! tid with
  | Some (rq, AwaitFallbackWrite pid png) =>
      match writeFails rt (overlayTmpPng (q_paths rq)) (length (trace (env w))) with
      | Some e =>
          let w := setInFlight (delete (q_key rq) (conversionsInFlight w)) w in
          Some (setTask tid rq (Threw e) w)
      | None =>
          let w :=
            setEnv (writeEnd (overlayTmpPng (q_paths rq)) (PngFile png) (env w)) w in
          Some (setTask tid rq (AwaitFallbackUnlink pid) w)
      end
  | Some (rq, AwaitFallbackUnlink pid) =>
      let w := setEnv (snd (unlink (overlayPng (q_paths rq)) (env w))) w in
      Some (setTask tid rq (AwaitFallbackRename pid) w)
  | Some (rq, AwaitFallbackRename _) =>
      let '(res, env') :=
        rename (overlayTmpPng (q_paths rq)) (overlayPng (q_paths rq)) (env w) in
      let w := setEnv env' w in
      let w := setInFlight (delete (q_key rq) (conversionsInFlight w)) w in
      match res with
      | Ok _ => Some (setTask tid rq (Returned (entryOf rq w)) w)
      | Throw e => Some (setTask tid rq (Threw e) w)
      end
  | Some (rq, AwaitSyntheticWrite png) =>
      match writeFails rt (overlayPng (q_paths rq)) (length (trace (env w))) with
      | Some e => Some (setTask tid rq (Threw e) w)
      | None =>
          let w := setEnv (writeEnd (overlayPng (q_paths rq)) (PngFile png) (env w)) w in
          Some (setTask tid rq (Returned (entryOf rq w)) w)
      end
  | _ => None
  end.

(** What drives the process: a request arrives, an awaited answer comes
    back, a conversion ends, time passes. *)
Inductive Event :=
| EvRequest (rq : Request)
| EvMtime (tid : nat) (mtime : option Z)
| EvHasCmd (tid : nat) (found : bool)
| EvSettle (pid : nat)
| EvIoDone (tid : nat)
| EvTick (dt : Z).

Definition step (w : World) (ev : Event) : option World :=
  match ev with
  | EvRequest rq => Some (startRequest rq w)
  | EvMtime tid mtime =>
      match tasks w !! tid with
      | Some (rq, AwaitMtime now) =>
          Some (setTask tid rq
                  (AwaitHasWgrib2 now mtime (pipelineAvailable (entryOf rq w))) w)
      | _ => None
      end
  | EvHasCmd tid found =>
      match tasks w !! tid with
      | Some (rq, AwaitHasWgrib2 now mtime prev) =>
          Some (setTask tid rq (AwaitHasGdalwarp now mtime prev found) w)
      | Some (rq, AwaitHasGdalwarp now mtime prev h1) =>
          Some (setTask tid rq (AwaitHasGdaldem now mtime prev h1 found) w)
      | Some (rq, AwaitHasGdaldem now mtime prev h1 h2) =>
          Some (afterProbes tid rq now mtime prev h1 h2 found w)
      | _ => None
      end
  | EvSettle pid => settle pid w
  | EvIoDone tid => ioDone tid w
  | EvTick dt => if 0 <=? dt then Some (setClock (clock w + dt) w) else None
  end.

Fixpoint run (w : World) (evs : list Event) : option World :=
  match evs with
  | [] => Some w
  | ev :: evs' =>
      match step w ev with
      | Some w' => run w' evs'
      | None => None
      end
  end.

Definition initialWorld (t0 : Z) (e : Env) : World :=
  {| caches := ∅; conversionsInFlight := ∅; promises := []; tasks := [];
     clock := t0; env := e |}.

Definition reachable (w : World) : Prop :=
  exists t0 e evs, run (initialWorld t0 e) evs = Some w.

End Orchestrator.

(** The invariant of the bounds: a synthetic entry reports the default box. *)
Definition syntheticDefault (e : CacheEntry) : Prop :=
  source e = SrcSynthetic -> bounds e = FRANCE_BOUNDS.

Definition cachesDefault (w : World) : Prop :=
  forall k e, caches w !! k = Some e -> syntheticDefault e.

(** The promise a suspended call holds in [p]: it created it and will
    deregister it. *)
Definition owned (t : Task) : option nat :=
  match t with
  | AwaitConversion pid _ => Some pid
  | AwaitFallbackWrite pid _ => Some pid
  | AwaitFallbackUnlink pid => Some pid
  | AwaitFallbackRename pid => Some pid
  | _ => None
  end.

(** The call is in its [catch] block, writing the fallback. *)
Definition inFallback (t : Task) : Prop :=
  match t with
  | AwaitFallbackWrite _ _ | AwaitFallbackUnlink _ | AwaitFallbackRename _ => True
  | _ => False
  end.

(** What [await p] gives a caller that found [p] in flight, once [p] is
    settled with [res]. *)
Definition waiterOutcome (rq : Request) (res : Result Converted) (w : World) : Task :=
  match res with
  | Ok _ => Returned (entryOf rq w)
  | Throw e => Threw e
  end.

(** What settling promise [pid] with [res] does to a call that awaited it
    in flight; [w] is the world the waiters are resumed in. *)
Definition resumedWaiter (pid : nat) (res : Result Converted) (w : World)
  (x : Request * Task) : Request * Task :=
  match x with
  | (rq, AwaitInflight pid') =>
      if (pid' =? pid)%nat then (rq, waiterOutcome rq res w) else x
  | _ => x
  end.

(** The invariant of the in-flight registry.
    - A registered promise is a promise for that key, and is not fulfilled.
    - A pending promise is the one registered for its key, and the call
      that created it is suspended on it.
    - A call that holds a promise finds it registered under its key,
      pending while the call awaits the conversion and rejected while the
      call writes the fallback.
    - No two calls hold the same promise.
    - A call that awaits a promise in flight awaits a pending promise for
      its own key. *)
Record singleFlight (w : World) : Prop := {
  sf_registered : forall key pid,
    conversionsInFlight w !! key = Some pid ->
    exists rq st, promises w !! pid = Some (rq, st) /\ q_key rq = key
                  /\ forall r, st <> Fulfilled r;
  sf_pending : forall pid rq,
    promises w !! pid = Some (rq, Pending) ->
    conversionsInFlight w !! q_key rq = Some pid
    /\ exists tid mtime, tasks w !! tid = Some (rq, AwaitConversion pid mtime);
  sf_owner : forall tid rq t pid,
    tasks w !! tid = Some (rq, t) -> owned t = Some pid ->
    conversionsInFlight w !! q_key rq = Some pid
    /\ exists st, promises w !! pid = Some (rq, st)
                  /\ match t with
                     | AwaitConversion _ _ => st = Pending
                     | _ => exists e, st = Rejected e
                     end;
  sf_unique : forall tid1 tid2 rq1 rq2 t1 t2 pid,
    tasks w !! tid1 = Some (rq1, t1) -> tasks w !! tid2 = Some (rq2, t2) ->
    owned t1 = Some pid -> owned t2 = Some pid -> tid1 = tid2;
  sf_waiter : forall tid rq pid,
    tasks w !! tid = Some (rq, AwaitInflight pid) ->
    exists rq', promises w !! pid = Some (rq', Pending) /\ q_key rq' = q_key rq
}.

(** The call both routes make once the query is resolved. *)
Definition requestOfQuery (q : Resolved) : Request :=
  {| q_key := r_key q;
     q_gribPath := r_gribPath q;
     q_paths := r_paths q;
     q_matchExprs := r_matchExprs q;
     q_varKey := r_varKey q |}.

(** The regeneration rule in the words of the specification: a modification
    time exists, the toolchain is available, and the time differs from the
    cached one, or the source is not the toolchain and the backoff interval
    has elapsed since [lastErrorAt], or the toolchain just became
    available. *)
Definition specRegenerationWarranted (backoff : Z) (cache : CacheEntry) (now : Z)
  (mtime : option Z) (toolsAvailable : bool) (prev : option bool) : bool :=
  bool_decide (is_Some mtime)
  && toolsAvailable
  && (negb (bool_decide (gribMtimeMs cache = mtime))
      || negb (isWgrib2 (source cache)) && (backoff <=? now - lastErrorAt cache)
      || bool_decide (prev = Some false)).

(** ** A concrete installation

    The default configuration on a POSIX layout, two toolchains (one whose
    commands all fail, one whose commands all succeed) and a small stand-in
    for the procedural raster, to run the definitions on. *)

Module Scenario.

Definition asciiLowerUnit (c : N) : N :=
  if ((65 <=? c) && (c <=? 90))%N then (c + 32)%N else c.

Definition asciiLower (s : jsstring) : jsstring := List.map asciiLowerUnit s.

Definition cfg : Config :=
  {| DATA_DIR := js "data";
     CACHE_DIR := js "cache";
     pathSep := 47%N;
     DEFAULT_GRIB_FILE := js "data/precip.grib2";
     GRIB_MATCHES := [js ":RPRATE:"; js ":PRATE:"; js ":APCP:"];
     DEFAULT_VAR := js "RPRATE";
     DATA_PALETTE := js "data/palette.txt";
     RETRY_INTERVAL_MS := 15000;
     BORDER_COLOR_TOLERANCE := 10;
     CROP_ALPHA_THRESHOLD := 1 |}.

(** One pixel stands for the 512 x 512 raster of [writeSyntheticPng]. *)
Definition smallSynthetic (seed : Z) : Png :=
  {| width := 1; height := 1; data := [255; 0; 0; seed mod 256] |}.

Definition toolError : JsError :=
  {| e_name := js "Error";
     e_message := js "Command failed";
     e_stdout := [];
     e_stderr := js "no  matching" ++ [10%N] ++ js "field" |}.

Definition failingTools : Runtime :=
  {| runTool := fun _ _ _ f => (Throw toolError, f);
     parseGeoTransform := fun _ => Ok None;
     syntheticPng := smallSynthetic;
     writeFails := fun _ _ => None |}.

(** A 3 x 3 rendering: a grey border around one opaque blue pixel. *)
Definition rendered : Png :=
  let grey := [128; 128; 128; 255] in
  let blue := [0; 0; 255; 255] in
  {| width := 3; height := 3;
     data := grey ++ grey ++ grey ++ grey ++ blue ++ grey ++ grey ++ grey ++ grey |}.

(** A 2 x 2 raster whose right column is opaque. *)
Definition rightColumn : Png :=
  {| width := 2; height := 2;
     data := [1; 2; 3; 0] ++ [4; 5; 6; 255] ++ [0; 0; 0; 0] ++ [7; 8; 9; 255] |}.

(** A 2 x 1 raster: a red pixel, then a blue one, both opaque. *)
Definition redBlue : Png :=
  {| width := 2; height := 1; data := [255; 0; 0; 255] ++ [0; 0; 255; 255] |}.

Definition workingTools : Runtime :=
  {| runTool := fun tool args _ f =>
       match tool with
       | Wgrib2 => (Ok ([], []), <[nth 4 args [] := OtherFile 4096]> f)
       | Gdalwarp => (Ok ([], []), <[nth 4 args [] := OtherFile 4096]> f)
       | Gdaldem => (Ok ([], []), <[nth 3 args [] := PngFile rendered]> f)
       | Gdalinfo => (Ok (js "{}", []), f)
       end;
     parseGeoTransform := fun _ => Ok (Some [-5.5; 0.05; 0; 51.5; 0; -0.05]%R);
     syntheticPng := smallSynthetic;
     writeFails := fun _ _ => None |}.

(** The request of [/api/precip/meta?var=RPRATE&hour=08]. *)
Definition rq08 : Request :=
  requestOfQuery (resolveQuery asciiUpper asciiLower cfg (Some (js "08")) (Some (js "RPRATE"))).

(** A cache directory that is empty, next to the palette. *)
Definition freshEnv : Env :=
  {| fs := {[ DATA_PALETTE cfg := OtherFile 64 ]}; trace := [] |}.

Definition w0 : World := initialWorld 1000000 freshEnv.

(** Three requests for the same key, one after the other. The first finds
    the source file but no [wgrib2] and writes the placeholder; the second,
    a second later, finds the toolchain but no source file; the third, much
    later, finds both, with the modification time the first one recorded.
    [stuckBefore] stops before the answer of its last probe. *)
Definition stuckBefore : list Event :=
  [EvRequest rq08; EvMtime 0 (Some 5000);
   EvHasCmd 0 false; EvHasCmd 0 true; EvHasCmd 0 true; EvIoDone 0;
   EvTick 1000;
   EvRequest rq08; EvMtime 1 None;
   EvHasCmd 1 true; EvHasCmd 1 true; EvHasCmd 1 true;
   EvTick 100000;
   EvRequest rq08; EvMtime 2 (Some 5000);
   EvHasCmd 2 true; EvHasCmd 2 true].

(** Two requests for the same key while the source file is there and the
    toolchain is installed: the first starts the conversion, the second
    finds it in flight; then the conversion ends. *)
Definition twoCallers : list Event :=
  [EvRequest rq08; EvRequest rq08;
   EvMtime 0 (Some 5000); EvHasCmd 0 true; EvHasCmd 0 true; EvHasCmd 0 true;
   EvMtime 1 (Some 5000); EvHasCmd 1 true; EvHasCmd 1 true; EvHasCmd 1 true;
   EvSettle 0].

(** The first caller then finishes its fallback: write, unlink, rename. *)
Definition twoCallersDone : list Event :=
  twoCallers ++ [EvIoDone 0; EvIoDone 0; EvIoDone 0].

(** One request while the source file is missing, up to the decision. *)
Definition sourceMissing : list Event :=
  [EvRequest rq08; EvMtime 0 None; EvHasCmd 0 true; EvHasCmd 0 true; EvHasCmd 0 true].

(** One request while [gdalwarp] is missing, up to the decision. *)
Definition toolMissing : list Event :=
  [EvRequest rq08; EvMtime 0 (Some 5000);
   EvHasCmd 0 true; EvHasCmd 0 false; EvHasCmd 0 true].

(** The world a run ends in; the initial one when an event was not enabled. *)
Definition worldAfter (rt : Runtime) (evs : list Event) : World :=
  default w0 (run cfg rt w0 evs).

End Scenario.

(** ** The client

    The functions of the browser application that choose what it asks the
    server for. Hours are integers. *)

Module Client.

(** [h >= 15 ? 8 : h + 1] *)
Definition nextHourFrom (h : Z) : Z := if 15 <=? h then 8 else h + 1.

(** [String(h)] for an integer. *)
Definition numberString (h : Z) : jsstring :=
  if h <? 0 then 45%N :: decimalString (Z.to_N (- h)) else decimalString (Z.to_N h).

(** [String(h).padStart(2, '0')] *)
Definition pad2 (h : Z) : jsstring := padStart 2 48 (numberString h).

(** The six values of the type [MeteoVar]. *)
Definition VARS : list jsstring :=
  [js "CAPE"; js "RPRATE"; js "SPRATE"; js "GPRATE"; js "LCDC"; js "PRES"].

Section Urls.

Variable toLowerCase : jsstring -> jsstring.

(** The file [fetchOfflineOverlayBlobUrl] asks the development server for,
    below [offlineBase]. *)
Definition offlineOverlayName (v h : jsstring) : jsstring :=
  toLowerCase v ++ js "_" ++ h ++ js "H_color.png".

Definition offlineOverlayUrl (v h : jsstring) : jsstring :=
  js "/local-cache" ++ js "/" ++ offlineOverlayName v h.

End Urls.

(** The [gribFile] of [offlineMetaForHour]. *)
Definition offlineGribFile (h : jsstring) : jsstring := h ++ js "H.grib2".

End Client.

(** ** What the properties of the routes are stated with *)

(** A string of the ASCII range, where the case mappings of the runtime are
    [asciiUpper] and [Scenario.asciiLower]. *)
Definition isAscii (s : jsstring) : Prop := Forall (fun c => (c < 128)%N) s.

(** The hours a request can select, the time keys and the keys both routes
    can build from them. *)
Definition hourSlots : list jsstring :=
  [js "08"; js "09"; js "10"; js "11"; js "12"; js "13"; js "14"; js "15"].

Definition timeKeys : list jsstring :=
  js "default" :: ((fun h => h ++ js "H") <$> hourSlots).

Definition keySpace (cfg : Config) : list jsstring :=
  (allowedVars ++ [DEFAULT_VAR cfg]) ≫= fun v => (fun t => v ++ js "_" ++ t) <$> timeKeys.

Definition pathsOf (ps : Paths) : list jsstring :=
  [capeNc ps; capeTif ps; overlayPng ps; overlayTmpPng ps].

(** A file name made of letters, digits, [_], [-] and dots. *)
Definition plainName (name : jsstring) : Prop :=
  Forall (fun c => isSafeUnit c = true \/ c = 46%N) name.

(** The entries and the calls of a world are for keys of [keys]. *)
Definition keysWithin (keys : list jsstring) (w : World) : Prop :=
  (forall k e, caches w !! k = Some e -> k ∈ cacheKey <$> keys)
  /\ (forall tid rq t, tasks w !! tid = Some (rq, t) -> q_key rq ∈ keys).

Definition requestsWithin (keys : list jsstring) (ev : Event) : Prop :=
  match ev with
  | EvRequest rq => q_key rq ∈ keys
  | _ => True
  end.

(** The requests of the run are those of the two routes. *)
Definition fromRoutes (toUpperCase toLowerCase : jsstring -> jsstring) (cfg : Config)
  (ev : Event) : Prop :=
  match ev with
  | EvRequest rq =>
      exists qhour qvar,
        rq = requestOfQuery (resolveQuery toUpperCase toLowerCase cfg qhour qvar)
  | _ => True
  end.
(** ** What the further properties of the rasters and bounds are stated with *)

(** The rectangle that is the whole raster. *)
Definition wholeRaster (p : Png) : Crop :=
  {| minX := 0; minY := 0; maxX := width p - 1; maxY := height p - 1;
     fullWidth := width p; fullHeight := height p |}.

(** Bounds whose first corner is south and west of the second. *)
Definition orderedBounds (b : Bounds) : Prop :=
  (fst (fst b) <= fst (snd b))%R /\ (snd (fst b) <= snd (snd b))%R.

(** ** The extent of a WGS84 ring *)

(** A Number: a real, an infinity or NaN. *)
Inductive JsNum :=
| Fin (r : R)
| PosInf
| NegInf
| NaN.

(** [Math.min] and [Math.max] of two Numbers. *)
Definition numMin (a b : JsNum) : JsNum :=
  match a, b with
  | NaN, _ | _, NaN => NaN
  | NegInf, _ | _, NegInf => NegInf
  | PosInf, x | x, PosInf => x
  | Fin x, Fin y => Fin (Rmin x y)
  end.

Definition numMax (a b : JsNum) : JsNum :=
  match a, b with
  | NaN, _ | _, NaN => NaN
  | PosInf, _ | _, PosInf => PosInf
  | NegInf, x | x, NegInf => x
  | Fin x, Fin y => Fin (Rmax x y)
  end.

(** A member of a point of the ring: a Number, or a value of another
    type. *)
Inductive Member :=
| Num (n : JsNum)
| NotNum.

(** One iteration of the [for ... of] loop on the point with members
    [lon] and [lat]. *)
Definition extendExtent (acc : JsNum * JsNum * JsNum * JsNum) (p : Member * Member)
  : JsNum * JsNum * JsNum * JsNum :=
  let '(minLon, minLat, maxLon, maxLat) := acc in
  match p with
  | (Num lon, Num lat) =>
      (numMin minLon lon, numMin minLat lat, numMax maxLon lon, numMax maxLat lat)
  | _ => acc
  end.

(** [ext] is the ring [wgs84Extent.coordinates[0]], a list of points, or
    [None] when one of the three guards of the first line rejects the
    argument. *)
Definition boundsFromWgs84Extent (ext : option (list (Member * Member))) : option Bounds :=
  match ext with
  | None => None
  | Some ring =>
      match fold_left extendExtent ring (PosInf, PosInf, NegInf, NegInf) with
      | (Fin minLon, Fin minLat, Fin maxLon, Fin maxLat) =>
          Some ((minLat, minLon), (maxLat, maxLon))
      | _ => None
      end
  end.

(** The points the loop does not skip, and those whose two members are
    finite. *)
Definition numericPoint (p : Member * Member) : bool :=
  match p with
  | (Num _, Num _) => true
  | _ => false
  end.

Definition finitePoint (p : Member * Member) : option (R * R) :=
  match p with
  | (Num (Fin lon), Num (Fin lat)) => Some (lon, lat)
  | _ => None
  end.

(** The states of the loop on the points seen so far. *)
Definition extentStuck (acc : JsNum * JsNum * JsNum * JsNum) : Prop :=
  let '(a, b, c, d) := acc in
  (a = NaN \/ a = NegInf) \/ (b = NaN \/ b = NegInf)
  \/ (c = NaN \/ c = PosInf) \/ (d = NaN \/ d = PosInf).

Definition extentOf (seen : list (Member * Member)) (w s e n : R) : Prop :=
  (forall p, p ∈ seen -> numericPoint p = true ->
     exists lon lat, finitePoint p = Some (lon, lat)
                     /\ (w <= lon <= e)%R /\ (s <= lat <= n)%R)
  /\ (exists p lat, p ∈ seen /\ finitePoint p = Some (w, lat))
  /\ (exists p lon, p ∈ seen /\ finitePoint p = Some (lon, s))
  /\ (exists p lat, p ∈ seen /\ finitePoint p = Some (e, lat))
  /\ (exists p lon, p ∈ seen /\ finitePoint p = Some (lon, n)).

Definition extentInv (seen : list (Member * Member)) (acc : JsNum * JsNum * JsNum * JsNum)
  : Prop :=
  (acc = (PosInf, PosInf, NegInf, NegInf)
   /\ forall p, p ∈ seen -> numericPoint p = false)
  \/ (exists w s e n, acc = (Fin w, Fin s, Fin e, Fin n) /\ extentOf seen w s e n)
  \/ (extentStuck acc
      /\ exists p, p ∈ seen /\ numericPoint p = true /\ finitePoint p = None).

(** ** The synthetic raster

    [writeSyntheticPng] computes in Numbers. The arithmetic of the runtime
    is a parameter: the Number a decimal literal denotes, the operations
    [+], [-], [*], [/] and [**], which round, and the functions of [Math],
    whose precision the language leaves to the implementation. *)
Record Arith := {
  lit : R -> JsNum;
  fadd : JsNum -> JsNum -> JsNum;
  fsub : JsNum -> JsNum -> JsNum;
  fmul : JsNum -> JsNum -> JsNum;
  fdiv : JsNum -> JsNum -> JsNum;
  fpow : JsNum -> JsNum -> JsNum;
  fexp : JsNum -> JsNum;
  fsin : JsNum -> JsNum;
  fcos : JsNum -> JsNum
}.

(** Unary minus. *)
Definition numNeg (a : JsNum) : JsNum :=
  match a with
  | Fin x => Fin (- x)
  | PosInf => NegInf
  | NegInf => PosInf
  | NaN => NaN
  end.

(** [Math.max(min, Math.min(max, v))] *)
Definition clamp (v mn mx : JsNum) : JsNum := numMax mn (numMin mx v).

(** [Math.round]: the nearest integer, a half going up. *)
Definition jsRound (x : R) : Z := Int_part (x + / 2).

Definition numRound (a : JsNum) : JsNum :=
  match a with
  | Fin x => Fin (IZR (jsRound x))
  | _ => a
  end.

(** A Number stored into a [Buffer]: 0 for [NaN] and the infinities,
    otherwise the integer part modulo 256. *)
Definition truncate (x : R) : Z :=
  if Rle_dec 0 x then Int_part x else - Int_part (- x).

Definition toUint8 (a : JsNum) : Z :=
  match a with
  | Fin x => truncate x mod 256
  | _ => 0
  end.

Section Synthetic.

Variable ar : Arith.

Local Notation "a +. b" := (fadd ar a b) (at level 50, left associativity).
Local Notation "a -. b" := (fsub ar a b) (at level 50, left associativity).
Local Notation "a *. b" := (fmul ar a b) (at level 40, left associativity).
Local Notation "a /. b" := (fdiv ar a b) (at level 40, left associativity).
Local Notation "a ^. b" := (fpow ar a b) (at level 30, right associativity).
Local Notation "# x" := (lit ar x%R) (at level 9, x at level 9).
Local Notation "'int' z" := (Fin (IZR z)) (at level 9, z at level 9).

(** [intensity] for the pixel at column [x] and row [y]; the seed is the
    [updatedAt] of the entry, an integer. *)
Definition syntheticIntensity (seed : Z) (x y : Z) : JsNum :=
  let size := int 512 in
  let nx := int x /. (size -. int 1) in
  let ny := int y /. (size -. int 1) in
  let v :=
    clamp (#1.2 *. fexp ar (numNeg ((nx -. #0.55) ^. int 2 +. (ny -. #0.45) ^. int 2)
                             /. #0.02)
           +. #0.8 *. fexp ar (numNeg ((nx -. #0.25) ^. int 2 +. (ny -. #0.7) ^. int 2)
                               /. #0.015)
           +. #0.6 *. fexp ar (numNeg ((nx -. #0.8) ^. int 2 +. (ny -. #0.2) ^. int 2)
                               /. #0.01))
          (int 0) (int 1) in
  let wave :=
    #0.15 *. fsin ar (int 10 *. nx +. int seed *. #0.001)
    *. fcos ar (int 8 *. ny -. int seed *. #0.001) in
  clamp (v +. wave) (int 0) (int 1).

(** The four Numbers assigned to the bytes of a pixel. *)
Definition syntheticColor (intensity : JsNum) : JsNum * JsNum * JsNum * JsNum :=
  let r := numRound (int 255 *. clamp (intensity *. #1.2) (int 0) (int 1)) in
  let g := numRound (int 255 *. clamp (numMax (int 0) (intensity -. #0.25) *. #1.3)
                                  (int 0) (int 1)) in
  let b := numRound (int 255 *. clamp (numMax (int 0) (intensity -. #0.55) *. #1.5)
                                  (int 0) (int 1)) in
  (r, g, b, numRound (int 220 *. intensity)).

Definition syntheticPixel (seed : Z) (x y : Z) : JsNum * JsNum * JsNum * JsNum :=
  syntheticColor (syntheticIntensity seed x y).

(** The body of the two loops of [writeSyntheticPng]. *)
Definition syntheticBody (seed : Z) (d : list Z) (x y : Z) : list Z :=
  let i := jsShl (512 * y + x) 2 in
  let '(r, g, b, a) := syntheticPixel seed x y in
  let d := setByte d (i + 0) (toUint8 r) in
  let d := setByte d (i + 1) (toUint8 g) in
  let d := setByte d (i + 2) (toUint8 b) in
  setByte d (i + 3) (toUint8 a).

(** The raster [writeSyntheticPng] encodes and writes. *)
Definition syntheticRaster (seed : Z) : Png :=
  {| width := 512; height := 512;
     data := forRows 512 512 (syntheticBody seed) (data (newPng 512 512)) |}.

End Synthetic.

(** Byte [c] of a pixel given as its four Numbers. *)
Definition component (c : Z) (px : JsNum * JsNum * JsNum * JsNum) : JsNum :=
  let '(r, g, b, a) := px in
  if c =? 0 then r else if c =? 1 then g else if c =? 2 then b else a.

(** What the properties of the synthetic raster take from the arithmetic of
    the runtime, all of it true of binary64 with rounding to nearest: a
    literal, a difference and a product of small Numbers that are not
    negative are finite and within a millionth of the exact value, a
    product by a Number that is not negative is monotone, and [NaN]
    propagates. *)
Definition nearly (a : JsNum) (x : R) : Prop :=
  exists z, a = Fin z /\ (x - / 1000000 <= z <= x + / 1000000)%R.

Record ieee (ar : Arith) : Prop := {
  lit_near : forall x, (0 <= x <= 2)%R -> nearly (lit ar x) x;
  sub_near : forall a b, (0 <= a <= 2)%R -> (0 <= b <= 2)%R ->
    nearly (fsub ar (Fin a) (Fin b)) (a - b);
  mul_near : forall a b, (0 <= a <= 256)%R -> (0 <= b <= 2)%R ->
    nearly (fmul ar (Fin a) (Fin b)) (a * b);
  mul_mono : forall a b b' z z', (0 <= a)%R -> (b <= b')%R ->
    fmul ar (Fin a) (Fin b) = Fin z -> fmul ar (Fin a) (Fin b') = Fin z' -> (z <= z')%R;
  sub_nan : forall b, fsub ar NaN b = NaN;
  mul_nan_l : forall b, fmul ar NaN b = NaN;
  mul_nan_r : forall a, fmul ar a NaN = NaN
}.

(** An arithmetic that does not round, to try the definitions on; its [**]
    is for integer exponents. *)
Definition lift1 (f : R -> R) (a : JsNum) : JsNum :=
  match a with
  | Fin x => Fin (f x)
  | _ => NaN
  end.

Definition lift2 (f : R -> R -> R) (a b : JsNum) : JsNum :=
  match a, b with
  | Fin x, Fin y => Fin (f x y)
  | _, _ => NaN
  end.

Definition exactArith : Arith :=
  {| lit := Fin;
     fadd := lift2 Rplus; fsub := lift2 Rminus; fmul := lift2 Rmult; fdiv := lift2 Rdiv;
     fpow := lift2 (fun x y => powerRZ x (Int_part y));
     fexp := lift1 exp; fsin := lift1 sin; fcos := lift1 cos |}.

(** ** What the properties of the pipeline are stated with *)

(** A computation that leaves what is at [path] as it is. *)
Definition keeps {A} (path : jsstring) (c : M A) : Prop :=
  forall env, fs (snd (c env)) !! path = fs env !! path.

(** A computation that, when it throws, has left what is at [path]. *)
Definition keepsOnThrow {A} (path : jsstring) (c : M A) : Prop :=
  forall env e env', c env = (Throw e, env') -> fs env' !! path = fs env !! path.

(** The external commands leave [path] alone. *)
Definition toolsKeep (rt : Runtime) (path : jsstring) : Prop :=
  forall tool args n f, snd (runTool rt tool args n f) !! path = f !! path.

(** The arguments [wgrib2] is run with for a candidate. *)
Definition wgrib2Args (gribPath : jsstring) (paths : Paths) (matchExpr : jsstring)
  : list jsstring :=
  [gribPath; js "-match"; matchExpr; js "-netcdf"; capeNc paths].

(** The commands of a candidate up to the colour relief: the first five
    statements of the [try]. *)
Definition renderCandidate (cfg : Config) (rt : Runtime) (gribPath : jsstring)
  (paths : Paths) (matchExpr : jsstring) : M (jsstring * jsstring) :=
  tryCatch (unlink (capeNc paths)) (fun _ => ret tt) ;;;
  runCmd rt Wgrib2 [gribPath; js "-match"; matchExpr; js "-netcdf"; capeNc paths] ;;;
  ensureNonEmptyFile (capeNc paths) 200 (js "wgrib2 (" ++ matchExpr ++ js ") netcdf") ;;;
  runCmd rt Gdalwarp [js "-overwrite"; js "-t_srs"; js "EPSG:3857"; capeNc paths;
                      capeTif paths] ;;;
  runCmd rt Gdaldem [js "color-relief"; capeTif paths; DATA_PALETTE cfg;
                     overlayTmpPng paths; js "-alpha"].

(** [gdalinfo] leaves [path] alone. *)
Definition infoKeeps (rt : Runtime) (path : jsstring) : Prop :=
  forall args n f, snd (runTool rt Gdalinfo args n f) !! path = f !! path.

(** ** What the further properties of the orchestrator are stated with *)

(** The entry of key [k], as a call that asks for it finds it. *)
Definition entryAt (k : jsstring) (w : World) : CacheEntry :=
  default makeEmptyCache (caches w !! k).

(** One assignment to the fields of an entry, made at time [now]: the
    result of the probes, or one of the four [Object.assign]. The result of
    a success is that of a conversion. *)
Inductive entryStep (cfg : Config) (rt : Runtime) (now : Z)
  : CacheEntry -> CacheEntry -> Prop :=
| es_probe b e : entryStep cfg rt now e (setPipelineAvailable b e)
| es_success rq rq0 r mtime env0 env1 e :
    convertGribToPngViaPipeline cfg rt (q_gribPath rq0) (q_matchExprs rq0) (q_paths rq0) env0
    = (Ok r, env1) ->
    entryStep cfg rt now e (onSuccess rq r mtime now e)
| es_failure err mtime e : entryStep cfg rt now e (onFailure err mtime now e)
| es_missing rq e : entryStep cfg rt now e (onMissingSource rq now e)
| es_tools missing mtime e : entryStep cfg rt now e (onToolsMissing missing mtime now e).

(** From [w] to [w'] the clock did not move and every entry went through
    assignments made at that time. *)
Definition evolves (cfg : Config) (rt : Runtime) (w w' : World) : Prop :=
  clock w' = clock w
  /\ forall k, rtc (entryStep cfg rt (clock w)) (entryAt k w) (entryAt k w').

(** [res] is what some conversion returned. *)
Definition converted (cfg : Config) (rt : Runtime) (res : Result Converted) : Prop :=
  forall r, res = Ok r ->
    exists rq0 env0 env1,
      convertGribToPngViaPipeline cfg rt (q_gribPath rq0) (q_matchExprs rq0) (q_paths rq0) env0
      = (Ok r, env1).

(** An entry as the meta route may report it: ordered bounds, and no error
    on record when the artifact comes from the toolchain. *)
Definition entryOk (e : CacheEntry) : Prop :=
  orderedBounds (bounds e) /\ (source e = SrcWgrib2 -> lastErrorAt e = 0).

(** The times of an entry at time [now]. *)
Definition stamped (now : Z) (e : CacheEntry) : Prop :=
  0 <= updatedAt e <= now /\ 0 <= lastErrorAt e <= now.

(** The clock and the time stamps of a world. *)
Definition timely (w : World) : Prop :=
  0 <= clock w /\ forall k, stamped (clock w) (entryAt k w).

(** A bound on the events a call still needs before it returns or throws:
    the answers it awaits, one after the other. *)
Definition remaining (t : Task) : nat :=
  match t with
  | AwaitMtime _ => 8
  | AwaitHasWgrib2 _ _ _ => 7
  | AwaitHasGdalwarp _ _ _ _ => 6
  | AwaitHasGdaldem _ _ _ _ _ => 5
  | AwaitConversion _ _ => 4
  | AwaitFallbackWrite _ _ => 3
  | AwaitFallbackUnlink _ => 2
  | AwaitFallbackRename _ => 1
  | AwaitInflight _ => 1
  | AwaitSyntheticWrite _ => 1
  | Returned _ | Threw _ => 0
  end.

(** Every registration belongs to a call that has not finished: the call
    that holds the promise. *)
Definition registeredOwned (w : World) : Prop :=
  forall key pid, conversionsInFlight w !! key = Some pid ->
    exists tid rq t, tasks w !! tid = Some (rq, t) /\ owned t = Some pid.

(** ** Reading a raster that may still be written

    The loop of [readPngWithRetry], with what it sees at each pass given
    from outside. *)

Module Retry.

(** What one pass sees: the size at the first [fs.stat], the size at the
    second one, and the result of [fs.readFile] followed by
    [PNG.sync.read]; each of the three may throw. *)
Record Observation := {
  stat1 : Result Z;
  stat2 : Result Z;
  decoded : Result Png
}.

(** [String(e && e.message ? e.message : e)] for an [Error]. *)
Definition messageOf (e : JsError) : jsstring :=
  match e_message e with
  | [] => e_name e
  | _ :: _ => e_message e
  end.

Fixpoint startsWith (p s : jsstring) : bool :=
  match p, s with
  | [], _ => true
  | a :: p', b :: s' => (a =? b)%N && startsWith p' s'
  | _ :: _, [] => false
  end.

(** [hay.includes(needle)] *)
Fixpoint includes (needle hay : jsstring) : bool :=
  startsWith needle hay
  || match hay with
     | [] => false
     | _ :: hay' => includes needle hay'
     end.

(** The test of the [catch] block. *)
Definition retryable (e : JsError) : bool :=
  includes (js "unrecognised content at end of stream") (messageOf e)
  || includes (js "PNG vide") (messageOf e).

(** How a pass ends: the function returns the raster, rethrows, or goes on
    to the next pass, after an error it keeps in [lastErr] or because the
    size changed. *)
Inductive Pass :=
| Return (p : Png)
| Rethrow (e : JsError)
| Retry (e : JsError)
| Changed.

Definition caught (e : JsError) : Pass := if retryable e then Retry e else Rethrow e.

Definition pass (o : Observation) : Pass :=
  match stat1 o with
  | Throw e => caught e
  | Ok s1 =>
      if s1 =? 0 then caught (newError (js "PNG vide"))
      else
        match stat2 o with
        | Throw e => caught e
        | Ok s2 =>
            if negb (s1 =? s2) then Changed
            else
              match decoded o with
              | Ok p => Return p
              | Throw e => caught e
              end
        end
  end.

(** The milliseconds a pass sleeps: 25 between the two [fs.stat], and
    [delayMs] before the next pass. *)
Definition slept (delayMs : Z) (o : Observation) : Z :=
  (match stat1 o with
   | Ok s1 => if s1 =? 0 then 0 else 25
   | Throw _ => 0
   end)
  + (match pass o with
     | Retry _ | Changed => delayMs
     | _ => 0
     end).

(** The passes from number [i] on, [attempts] of them at most; the result
    and the time slept. *)
Fixpoint loop (attempts : nat) (delayMs : Z) (obs : nat -> Observation) (i : nat)
  (lastErr : option JsError) : Result Png * Z :=
  match attempts with
  | O => (Throw (default (newError (js "Lecture PNG impossible")) lastErr), 0)
  | S n =>
      let t := slept delayMs (obs i) in
      match pass (obs i) with
      | Return p => (Ok p, t)
      | Rethrow e => (Throw e, t)
      | Retry e =>
          let '(r, t') := loop n delayMs obs (S i) (Some e) in (r, t + t')
      | Changed =>
          let '(r, t') := loop n delayMs obs (S i) lastErr in (r, t + t')
      end
  end.

Definition readPngWithRetry (attempts : nat) (delayMs : Z) (obs : nat -> Observation)
  : Result Png * Z :=
  loop attempts delayMs obs 0 None.

(** What every pass sees of a file that nobody is writing. *)
Definition still (path : jsstring) (f : option File) : Observation :=
  let missing op :=
    newError (js "ENOENT: no such file or directory, " ++ op ++ js " '" ++ path ++ js "'") in
  match f with
  | Some (PngFile p) => {| stat1 := Ok 1; stat2 := Ok 1; decoded := Ok p |}
  | Some (OtherFile n) =>
      {| stat1 := Ok n; stat2 := Ok n;
         decoded := Throw (newError (js "unrecognised content at end of stream")) |}
  | Some PartialFile =>
      {| stat1 := Ok 0; stat2 := Ok 0;
         decoded := Throw (newError (js "unrecognised content at end of stream")) |}
  | None =>
      {| stat1 := Throw (missing (js "stat"));
         stat2 := Throw (missing (js "stat"));
         decoded := Throw (missing (js "open")) |}
  end.

(** A pass that leads to the next one. *)
Definition goesOn (p : Pass) : Prop :=
  match p with
  | Retry _ | Changed => True
  | _ => False
  end.

End Retry.

(** ** Start-up: the configured expressions and the default variable *)

Module Startup.

(** [s.split(sep)] for a separator of one code unit. *)
Fixpoint split (sep : N) (s : jsstring) : list jsstring :=
  match s with
  | [] => [[]]
  | c :: s' =>
      if (c =? sep)%N then [] :: split sep s'
      else
        match split sep s' with
        | piece :: rest => (c :: piece) :: rest
        | [] => [[c]]
        end
  end.

(** [process.env.X || fallback]: a variable that is not set, or set to the
    empty string, is falsy. *)
Definition orElse (x : option jsstring) (fallback : jsstring) : jsstring :=
  match x with
  | Some (c :: s) => c :: s
  | _ => fallback
  end.

(** [String(...).split(',').map((s) => s.trim()).filter(Boolean)] *)
Definition parseMatches (raw : jsstring) : list jsstring :=
  List.filter (fun s => negb (bool_decide (s = []))) (List.map trim (split 44 raw)).

Definition GRIB_MATCHES (env_GRIB_MATCHES env_GRIB_MATCH : option jsstring)
  : list jsstring :=
  parseMatches
    (orElse env_GRIB_MATCHES (orElse env_GRIB_MATCH (js ":RPRATE:,:PRATE:,:APCP:"))).

Definition DEFAULT_VAR (toUpperCase : jsstring -> jsstring)
  (env_DEFAULT_VAR : option jsstring) : jsstring :=
  toUpperCase (trim (orElse env_DEFAULT_VAR (js "RPRATE"))).

End Startup.

(** An expression as the list keeps it: not empty, no white space around
    it, no comma in it. *)
Definition cleanMatch (e : jsstring) : Prop :=
  e <> [] /\ trim e = e /\ 44%N ∉ e.

(** A string that does not start with white space. *)
Definition headOk (l : jsstring) : Prop :=
  match l with
  | [] => True
  | c :: _ => isWhiteSpace c = false
  end.

(** ** What the properties of the messages are stated with *)

(** A text of one line: its only white space is the space, never twice in a
    row. *)
Fixpoint oneLine (s : jsstring) : Prop :=
  match s with
  | [] => True
  | c :: s' =>
      (isWhiteSpace c = true -> c = 32%N /\ head s' <> Some 32%N) /\ oneLine s'
  end.
(** ** What the order of the states of a call is stated with *)

(** From [t] to [t'] a call stayed where it was or came closer to its end. *)
Definition forward (t t' : Task) : Prop := t' = t \/ (remaining t' < remaining t)%nat.

(** From [w] to [w'] every call is still there, for the same request, at the
    same place or further. *)
Definition advances (w w' : World) : Prop :=
  forall tid rq t, tasks w !! tid = Some (rq, t) ->
    exists t', tasks w' !! tid = Some (rq, t') /\ forward t t'.

(** * Properties *)

(** ** Loops *)

Lemma fold_left_preserves {A B} (P : A -> Prop) (f : A -> B -> A) l a :
  (forall a b, P a -> P (f a b)) -> P a -> P (fold_left f l a).
Proof. intros Hf. revert a. induction l; simpl; auto. Qed.

Lemma fold_left_fmap_l {A B C} (f : A -> B -> A) (g : C -> B) (l : list C) a :
  fold_left f (g <$> l) a = fold_left (fun a x => f a (g x)) l a.
Proof. revert a. induction l; simpl; auto. Qed.

Lemma fold_left_ext_in {A B} (f g : A -> B -> A) l a :
  (forall a x, x ∈ l -> f a x = g a x) -> fold_left f l a = fold_left g l a.
Proof.
  revert a. induction l as [|x l IH]; simpl; intros a H; [done |].
  rewrite H by left. apply IH. intros a' x' Hx. apply H. by right.
Qed.

(** The two nested loops visit the pixels in the order of their numbers
    [w * y + x]. *)
Lemma forRows_flat {S : Type} (w h : Z) (body : S -> Z -> Z -> S) (s : S) :
  0 <= w -> 0 <= h ->
  forRows w h body s
  = fold_left (fun s k => body s (k mod w) (k / w)) (seqZ 0 (w * h)) s.
Proof.
  intros Hw Hh. unfold forRows. revert s.
  pattern h. apply natlike_ind; [| | done].
  - intros s. by rewrite Z.mul_0_r.
  - clear h Hh. intros h Hh IH s.
    replace (Z.succ h) with (h + 1) by lia.
    rewrite (seqZ_app 0 h 1), fold_left_app by lia. rewrite IH.
    replace (w * (h + 1)) with (w * h + w) by lia.
    rewrite (seqZ_app 0 (w * h) w), fold_left_app by lia.
    rewrite (seqZ_cons (0 + h) 1), (seqZ_nil _ (Z.pred 1)) by lia. simpl.
    replace (0 + w * h) with (w * h + 0) by lia.
    rewrite <- fmap_add_seqZ, fold_left_fmap_l.
    apply fold_left_ext_in. intros a x Hx. apply elem_of_seqZ in Hx.
    replace (w * h + x) with (x + h * w) by lia.
    rewrite Z_mod_plus_full, Z.mod_small by lia.
    rewrite Z.div_add, Z.div_small by lia. done.
Qed.

Lemma fold_left_preserves_in {A B} (P : A -> Prop) (f : A -> B -> A) (l : list B) a :
  (forall a b, b ∈ l -> P a -> P (f a b)) -> P a -> P (fold_left f l a).
Proof.
  revert a. induction l as [|x l IH]; simpl; intros a Hf Ha; [done |].
  apply IH; [intros; apply Hf; [by right | done] |]. apply Hf; [by left | done].
Qed.

(** A property that one iteration establishes and every iteration keeps
    holds at the end. *)
Lemma fold_left_reaches {A B} (Q : A -> Prop) (f : A -> B -> A) (l : list B) a x :
  x ∈ l -> (forall a, Q (f a x)) -> (forall a b, b ∈ l -> Q a -> Q (f a b)) ->
  Q (fold_left f l a).
Proof.
  intros Hx Hq Hkeep. revert a. induction l as [|y l IH]; simpl; intros a.
  - by apply elem_of_nil in Hx.
  - apply elem_of_cons in Hx as [<- | Hx].
    + apply fold_left_preserves_in; [| apply Hq].
      intros a' b Hb. apply Hkeep. by right.
    + apply IH; [done |]. intros a' b Hb. apply Hkeep. by right.
Qed.

Lemma fold_left_id_in {A B} (f : A -> B -> A) (l : list B) a :
  (forall x, x ∈ l -> f a x = a) -> fold_left f l a = a.
Proof.
  induction l as [|x l IH]; simpl; intros H; [done |].
  rewrite H by left. apply IH. intros y Hy. apply H. by right.
Qed.

(** ** Request parameters *)

Section ParamsFacts.

Variable toUpperCase : jsstring -> jsstring.
Variable toLowerCase : jsstring -> jsstring.
Variable cfg : Config.

Lemma isDigit_range c : isDigit c = true <-> (48 <= c <= 57)%N.
Proof. unfold isDigit. rewrite andb_true_iff, !N.leb_le. tauto. Qed.

(** Two digits or fewer denote a number below 100. *)
Lemma digitsValue_small s :
  isOneOrTwoDigits s = true -> (digitsValue s < 100)%N.
Proof.
  destruct s as [|a [|b [|c s]]]; simpl; try discriminate.
  - rewrite isDigit_range. unfold digitsValue. simpl. lia.
  - rewrite andb_true_iff, !isDigit_range. unfold digitsValue. simpl. lia.
Qed.

(** [String(n).padStart(2, '0')] on the accepted range is the two decimal
    digits of [n]. *)
Lemma padded_hour n :
  (8 <= n <= 15)%N ->
  padStart 2 48 (decimalString n) = [(48 + n / 10)%N; (48 + n mod 10)%N].
Proof.
  intros H.
  assert (Hn : n = 8%N \/ n = 9%N \/ n = 10%N \/ n = 11%N \/ n = 12%N
               \/ n = 13%N \/ n = 14%N \/ n = 15%N) by lia.
  repeat (destruct Hn as [-> | Hn]; [reflexivity |]). subst. reflexivity.
Qed.

Lemma normalizeVarParam_some qvar s :
  normalizeVarParam toUpperCase qvar = Some s <->
  exists raw, qvar = Some raw /\ raw <> [] /\
              s = toUpperCase (trim raw) /\ s ∈ allowedVars.
Proof.
  unfold normalizeVarParam. split.
  - destruct qvar as [[|c raw]|]; try discriminate.
    case_bool_decide; intros [= <-]. eauto 6.
  - intros (raw & -> & Hne & -> & Hin). destruct raw; [done |].
    rewrite bool_decide_true; done.
Qed.

Lemma normalizeHourParam_some qhour r :
  normalizeHourParam toUpperCase qhour = Some r <->
  exists raw n,
    qhour = Some raw /\ raw <> [] /\
    isOneOrTwoDigits (stripSuffixUnit 72 (toUpperCase (trim raw))) = true /\
    digitsValue (stripSuffixUnit 72 (toUpperCase (trim raw))) = n /\
    (8 <= n <= 15)%N /\
    r = [(48 + n / 10)%N; (48 + n mod 10)%N].
Proof.
  unfold normalizeHourParam. split.
  - destruct qhour as [[|c raw]|]; try discriminate.
    set (s := stripSuffixUnit 72 (toUpperCase (trim (c :: raw)))).
    destruct (isOneOrTwoDigits s) eqn:Hd; simpl; [| discriminate].
    destruct (digitsValue s <? 8)%N eqn:H8; simpl; [discriminate |].
    destruct (15 <? digitsValue s)%N eqn:H15; [discriminate |].
    apply N.ltb_ge in H8, H15. intros [= <-].
    exists (c :: raw), (digitsValue s). rewrite padded_hour by lia.
    repeat split; try done; lia.
  - intros (raw & n & -> & Hne & Hd & Hv & Hn & ->).
    destruct raw as [|c raw]; [done |].
    rewrite Hd, Hv. simpl.
    destruct (n <? 8)%N eqn:H8; [apply N.ltb_lt in H8; lia |].
    destruct (15 <? n)%N eqn:H15; [apply N.ltb_lt in H15; lia |].
    simpl. by rewrite padded_hour.
Qed.

(** C9, as amended. The variable is trimmed and uppercased, accepted exactly
    when the result is one of the six names, and replaced by the configured
    default otherwise. The hour is trimmed, uppercased and relieved of one
    trailing H; it is accepted exactly when what is left is one or two digits
    denoting 8 to 15, and is then the two-digit decimal of that number; any
    other value is absent, and the default source file is used. *)
Theorem request_normalization (qhour qvar : option jsstring) :
  let q := resolveQuery toUpperCase toLowerCase cfg qhour qvar in
  (forall s, normalizeVarParam toUpperCase qvar = Some s <->
             exists raw, qvar = Some raw /\ raw <> [] /\
                         s = toUpperCase (trim raw) /\ s ∈ allowedVars)
  /\ r_varKey q = default (DEFAULT_VAR cfg) (normalizeVarParam toUpperCase qvar)
  /\ (forall r, normalizeHourParam toUpperCase qhour = Some r <->
        exists raw n,
          qhour = Some raw /\ raw <> [] /\
          isOneOrTwoDigits (stripSuffixUnit 72 (toUpperCase (trim raw))) = true /\
          digitsValue (stripSuffixUnit 72 (toUpperCase (trim raw))) = n /\
          (8 <= n <= 15)%N /\
          r = [(48 + n / 10)%N; (48 + n mod 10)%N])
  /\ r_hour q = normalizeHourParam toUpperCase qhour
  /\ (normalizeHourParam toUpperCase qhour = None ->
      r_gribPath q = DEFAULT_GRIB_FILE cfg /\ r_timeKey q = js "default")
  /\ (forall r, normalizeHourParam toUpperCase qhour = Some r ->
      r_gribPath q = buildGribPathForHour cfg r /\ r_timeKey q = r ++ js "H").
Proof.
  cbv zeta. split; [apply normalizeVarParam_some |].
  split; [unfold resolveQuery; simpl; by destruct (normalizeVarParam _ _) |].
  split; [apply normalizeHourParam_some |].
  split; [done |].
  unfold resolveQuery; simpl.
  split; [intros -> | intros r ->]; done.
Qed.

End ParamsFacts.

(** C9, as stated, fails: the code uppercases the hour before it strips the
    H, so a lowercase h is stripped too, and it trims the variable before it
    looks it up. *)
Lemma request_normalization_counterexample :
  normalizeHourParam asciiUpper (Some (js "8h")) = Some (js "08")
  /\ specNormalizeHour (js "8h") = None
  /\ normalizeVarParam asciiUpper (Some (js " cape")) = Some (js "CAPE")
  /\ specNormalizeVar asciiUpper (js " cape") = None.
Proof. repeat split; vm_compute; reflexivity. Qed.

(** ** 32-bit offsets *)

Lemma toInt32_small n : - 2 ^ 31 <= n < 2 ^ 31 -> toInt32 n = n.
Proof.
  intros H. unfold toInt32.
  destruct (Z.leb_spec (2 ^ 31) (n mod 2 ^ 32)) as [Hm | Hm].
  - assert (n < 0).
    { destruct (Z.lt_ge_cases n 0); [done |]. rewrite Z.mod_small in Hm; lia. }
    rewrite <- (Z.mod_unique n (2 ^ 32) (-1) (n + 2 ^ 32)); lia.
  - destruct (Z.lt_ge_cases n 0) as [Hn | Hn].
    + rewrite <- (Z.mod_unique n (2 ^ 32) (-1) (n + 2 ^ 32)) in Hm; lia.
    + rewrite Z.mod_small; lia.
Qed.

Lemma toInt32_mod4 n : toInt32 n mod 4 = n mod 4.
Proof.
  unfold toInt32.
  assert (Hd : (n mod 2 ^ 32) mod 4 = n mod 4).
  { apply Z.mod_mod_divide. exists (2 ^ 30). lia. }
  destruct (2 ^ 31 <=? n mod 2 ^ 32); [| done].
  replace (n mod 2 ^ 32 - 2 ^ 32) with (n mod 2 ^ 32 + (- 2 ^ 30) * 4) by lia.
  by rewrite Z_mod_plus_full.
Qed.

Lemma pixelIndex_mod4 w x y : pixelIndex w x y mod 4 = 0.
Proof.
  unfold pixelIndex, jsShl. rewrite toInt32_mod4, Z.shiftl_mul_pow2 by lia.
  change (2 ^ 2) with 4. apply Z_mod_mult.
Qed.

Lemma pixelIndex_small w x y :
  0 <= w * y + x < 2 ^ 29 -> pixelIndex w x y = 4 * (w * y + x).
Proof.
  intros H. unfold pixelIndex, jsShl.
  rewrite (toInt32_small (w * y + x)) by lia.
  rewrite Z.shiftl_mul_pow2 by lia. change (2 ^ 2) with 4.
  rewrite toInt32_small; lia.
Qed.

(** ** Border transparency changes nothing but alpha, and only to zero *)

Lemma onlyClearsAlpha_refl d : onlyClearsAlpha d d.
Proof. split; [done | by left]. Qed.

Lemma onlyClearsAlpha_trans d1 d2 d3 :
  onlyClearsAlpha d1 d2 -> onlyClearsAlpha d2 d3 -> onlyClearsAlpha d1 d3.
Proof.
  intros [Hl1 H1] [Hl2 H2]. split; [congruence |]. intros j.
  destruct (H2 j) as [E2 | (Hm & a & Ha & Hne & E2)].
  - rewrite E2. apply H1.
  - destruct (H1 j) as [E1 | (_ & a' & Ha' & Hne' & E1)].
    + right. split; [done |]. exists a. by rewrite <- E1.
    + congruence.
Qed.

Lemma clearPixel_onlyClearsAlpha w tol bgR bgG bgB d x y :
  onlyClearsAlpha d (clearPixel w tol bgR bgG bgB d x y).
Proof.
  unfold clearPixel.
  assert (Hset : forall a, byteAt d (pixelIndex w x y + 3) = Some a -> a <> 0 ->
                           onlyClearsAlpha d (setByte d (pixelIndex w x y + 3) 0)).
  { intros a Ha Hne. unfold byteAt, setByte in *.
    destruct (pixelIndex w x y + 3 <? 0) eqn:Hneg; [discriminate |].
    apply Z.ltb_ge in Hneg.
    split; [apply length_insert |]. intros j.
    destruct (decide (j = Z.to_nat (pixelIndex w x y + 3))) as [-> | Hj].
    - right. split.
      + rewrite Z2Nat.id by done. rewrite <- Zplus_mod_idemp_l, pixelIndex_mod4. done.
      + exists a. repeat split; try done.
        apply list_lookup_insert_eq. by eapply lookup_lt_Some.
    - left. by apply list_lookup_insert_ne. }
  destruct (byteAt d (pixelIndex w x y + 3)) as [[|a|a]|] eqn:Ha;
    try apply onlyClearsAlpha_refl;
    destruct (_ && _); try apply onlyClearsAlpha_refl.
  - by eapply Hset.
  - by eapply Hset.
  - unfold byteAt, setByte in *.
    destruct (pixelIndex w x y + 3 <? 0); [apply onlyClearsAlpha_refl |].
    rewrite list_insert_ge; [apply onlyClearsAlpha_refl |].
    by apply lookup_ge_None.
Qed.

Lemma forRows_onlyClearsAlpha w h tol bgR bgG bgB d :
  onlyClearsAlpha d (forRows w h (clearPixel w tol bgR bgG bgB) d).
Proof.
  unfold forRows.
  apply (fold_left_preserves (onlyClearsAlpha d)); [| apply onlyClearsAlpha_refl].
  intros d1 y H1.
  apply (fold_left_preserves (onlyClearsAlpha d)); [| done].
  intros d2 x H2. eapply onlyClearsAlpha_trans; [done |].
  apply clearPixel_onlyClearsAlpha.
Qed.

Lemma borderTransparent_onlyClearsAlpha tol p :
  width (borderTransparent tol p) = width p
  /\ height (borderTransparent tol p) = height p
  /\ onlyClearsAlpha (data p) (data (borderTransparent tol p)).
Proof.
  unfold borderTransparent, makeDominantBorderColorTransparent.
  destruct (_ || _); simpl; [by auto using onlyClearsAlpha_refl |].
  destruct (fst _); simpl; [| by auto using onlyClearsAlpha_refl].
  repeat split; try done; apply forRows_onlyClearsAlpha.
Qed.

(** C10. Border transparency keeps the dimensions and the length of the
    buffer, leaves every byte that is not an alpha byte (offset 3 modulo 4)
    as it was, and an alpha byte either keeps its value or goes from a
    non-zero value to zero. *)
Theorem border_transparency_frame (tol : Z) (p : Png) :
  let p' := borderTransparent tol p in
  width p' = width p
  /\ height p' = height p
  /\ length (data p') = length (data p)
  /\ (forall j : nat, Z.of_nat j mod 4 <> 3 -> data p' !! j = data p !! j)
  /\ (forall (j : nat) (a a' : Z),
        data p !! j = Some a -> data p' !! j = Some a' ->
        a' = a \/ (a <> 0 /\ a' = 0)).
Proof.
  cbv zeta.
  destruct (borderTransparent_onlyClearsAlpha tol p) as (Hw & Hh & Hl & Hc).
  repeat split; try done.
  - intros j Hj. destruct (Hc j) as [E | (Hm & _)]; [done | congruence].
  - intros j a a' Ha Ha'.
    destruct (Hc j) as [E | (_ & a0 & Ha0 & Hne & E)]; [left | right]; split || idtac;
      congruence.
Qed.

(** ** Content crop *)

Section CropFacts.

Variable thr : Z.
Variable p : Png.

Ltac split_ltb :=
  repeat match goal with
    | |- context [?a <? ?b] => destruct (Z.ltb_spec a b)
    end.

Lemma pixel_coords w h n :
  0 <= n < w * h -> 0 <= h -> 0 <= n mod w < w /\ 0 <= n / w < h.
Proof.
  intros Hn Hh. assert (0 < w) by nia.
  split; [by apply Z.mod_pos_bound |].
  split; [apply Z.div_pos; lia |].
  apply Z.div_lt_upper_bound; lia.
Qed.

Lemma scanPixel_inv n st :
  0 <= height p ->
  0 <= n < width p * height p ->
  scanInv thr p n st ->
  scanInv thr p (n + 1) (scanPixel p thr st (n mod width p) (n / width p)).
Proof.
  intros Hh Hn. destruct (pixel_coords _ _ _ Hn Hh) as [Hx Hy].
  destruct st as [[[a b] c] d]. unfold scanInv, scanPixel.
  fold (countedAt thr p n).
  destruct (countedAt thr p n) eqn:Hq.
  - intros [[[= -> -> -> ->] Hnone] | (Henc & Ha & Hb & Hc & Hd)].
    + right.
      assert (Hk : forall k, 0 <= k < n + 1 -> countedAt thr p k = true -> k = n).
      { intros k Hk Hqk. destruct (decide (k = n)); [done |].
        rewrite Hnone in Hqk by lia. discriminate. }
      split; [| repeat split; exists n; repeat split; try lia; try done;
                  split_ltb; lia].
      intros k Hk1 Hk2. rewrite (Hk k Hk1 Hk2). split_ltb; lia.
    + right. split.
      * intros k Hk Hqk. destruct (decide (k = n)) as [-> | Hne].
        -- split_ltb; lia.
        -- specialize (Henc k ltac:(lia) Hqk). split_ltb; lia.
      * destruct Ha as (ka & ? & ? & ?), Hb as (kb & ? & ? & ?),
          Hc as (kc & ? & ? & ?), Hd as (kd & ? & ? & ?).
        repeat split.
        -- destruct (Z.ltb_spec (n mod width p) a);
             [exists n | exists ka]; repeat split; try lia; done.
        -- destruct (Z.ltb_spec (n / width p) b);
             [exists n | exists kb]; repeat split; try lia; done.
        -- destruct (Z.ltb_spec c (n mod width p));
             [exists n | exists kc]; repeat split; try lia; done.
        -- destruct (Z.ltb_spec d (n / width p));
             [exists n | exists kd]; repeat split; try lia; done.
  - intros [[Heq Hnone] | (Henc & Ha & Hb & Hc & Hd)].
    + left. split; [done |]. intros k Hk.
      destruct (decide (k = n)) as [-> | Hne]; [done | apply Hnone; lia].
    + right. split.
      * intros k Hk Hqk. destruct (decide (k = n)) as [-> | Hne]; [congruence |].
        apply Henc; [lia | done].
      * destruct Ha as (ka & ? & ? & ?), Hb as (kb & ? & ? & ?),
          Hc as (kc & ? & ? & ?), Hd as (kd & ? & ? & ?).
        repeat split; [exists ka | exists kb | exists kc | exists kd];
          repeat split; try lia; done.
Qed.

Lemma scan_fold_inv (n : nat) :
  0 <= height p ->
  Z.of_nat n <= width p * height p ->
  scanInv thr p (Z.of_nat n)
    (fold_left (fun st k => scanPixel p thr st (k mod width p) (k / width p))
       (seqZ 0 (Z.of_nat n)) (width p, height p, -1, -1)).
Proof.
  intros Hh. induction n as [|n IH]; intros Hn.
  - left. split; [done | lia].
  - rewrite seqZ_S, fold_left_app. simpl.
    replace (Z.of_nat (S n)) with (Z.of_nat n + 1) by lia.
    apply scanPixel_inv; [done | lia | apply IH; lia].
Qed.

Lemma scanBounds_inv :
  wfPng p -> scanInv thr p (width p * height p) (scanBounds thr p).
Proof.
  intros (Hw & Hh & _). unfold scanBounds. rewrite forRows_flat by done.
  rewrite <- (Z2Nat.id (width p * height p)) by lia. apply scan_fold_inv; [done | lia].
Qed.

Lemma pixel_number x y :
  wfPng p -> inside p x y ->
  0 <= width p * y + x < width p * height p
  /\ width p * y + x < 2 ^ 29
  /\ (width p * y + x) mod width p = x
  /\ (width p * y + x) / width p = y.
Proof.
  intros (Hw & Hh & Hl & Hs) [Hx Hy].
  assert (0 <= width p * y + x < width p * height p) by nia.
  repeat split; try lia.
  - replace (width p * y + x) with (x + y * width p) by lia.
    rewrite Z_mod_plus_full. apply Z.mod_small. lia.
  - replace (width p * y + x) with (x + y * width p) by lia.
    rewrite Z.div_add by lia. rewrite Z.div_small; lia.
Qed.

(** Inside the raster the offsets of the code are the plain ones, and the
    bytes are there. *)
Lemma byteAt_pixel x y c :
  wfPng p -> inside p x y -> 0 <= c < 4 ->
  byteAt (data p) (pixelIndex (width p) x y + c) = channel p x y c
  /\ is_Some (channel p x y c).
Proof.
  intros Hwf Hin Hc. destruct (pixel_number x y Hwf Hin) as (Hk & Hs & _).
  destruct Hwf as (Hw & Hh & Hl & _).
  rewrite pixelIndex_small by lia. split; [done |].
  unfold channel, byteAt.
  destruct (Z.ltb_spec (4 * (width p * y + x) + c) 0); [lia |].
  apply lookup_lt_is_Some. lia.
Qed.

Lemma countedAt_counted k :
  wfPng p -> 0 <= k < width p * height p ->
  countedAt thr p k = true <-> counted thr p (k mod width p) (k / width p).
Proof.
  intros Hwf Hk.
  assert (Hin : inside p (k mod width p) (k / width p)).
  { destruct Hwf as (_ & Hh & _). by apply pixel_coords. }
  unfold countedAt, counted.
  destruct (byteAt_pixel _ _ 3 Hwf Hin ltac:(lia)) as [-> [a Ha]].
  rewrite Ha. simpl. rewrite Z.leb_le. split.
  - intros Hle. split; [done |]. by exists a.
  - intros (_ & a' & [= <-] & Hle). done.
Qed.

(** The scan: no pixel counts and the bounds are the initial ones, or the
    bounds are those of the smallest rectangle around the counted pixels. *)
Lemma scanBounds_spec :
  wfPng p ->
  let '(a, b, c, d) := scanBounds thr p in
  ((a, b, c, d) = (width p, height p, -1, -1)
   /\ forall x y, ~ counted thr p x y)
  \/ ((forall x y, counted thr p x y -> a <= x <= c /\ b <= y <= d)
      /\ (exists y, counted thr p a y)
      /\ (exists x, counted thr p x b)
      /\ (exists y, counted thr p c y)
      /\ (exists x, counted thr p x d)).
Proof.
  intros Hwf. pose proof (scanBounds_inv Hwf) as H.
  destruct (scanBounds thr p) as [[[a b] c] d]. unfold scanInv in H.
  destruct H as [[Heq Hnone] | (Henc & Ha & Hb & Hc & Hd)].
  - left. split; [done |]. intros x y Hc.
    destruct (pixel_number x y Hwf (proj1 Hc)) as (Hk & _ & Hx & Hy).
    specialize (Hnone _ Hk).
    assert (countedAt thr p (width p * y + x) = true); [| congruence].
    apply countedAt_counted; [done | done |]. by rewrite Hx, Hy.
  - right. split.
    + intros x y Hcnt.
      destruct (pixel_number x y Hwf (proj1 Hcnt)) as (Hk & _ & Hx & Hy).
      specialize (Henc _ Hk). rewrite Hx, Hy in Henc. apply Henc.
      apply countedAt_counted; [done | done |]. by rewrite Hx, Hy.
    + destruct Ha as (ka & ? & Hqa & <-), Hb as (kb & ? & Hqb & <-),
        Hc as (kc & ? & Hqc & <-), Hd as (kd & ? & Hqd & <-).
      apply countedAt_counted in Hqa, Hqb, Hqc, Hqd; try done.
      repeat split; eauto.
Qed.

Lemma length_setByte d i v : length (setByte d i v) = length d.
Proof. unfold setByte. destruct (i <? 0); [done | apply length_insert]. Qed.

Lemma byteAt_setByte_eq d i v :
  0 <= i < Z.of_nat (length d) -> byteAt (setByte d i v) i = Some v.
Proof.
  intros Hi. unfold byteAt, setByte. destruct (Z.ltb_spec i 0); [lia |].
  apply list_lookup_insert_eq. lia.
Qed.

Lemma byteAt_setByte_ne d i j v : i <> j -> byteAt (setByte d i v) j = byteAt d j.
Proof.
  intros Hne. unfold byteAt, setByte.
  destruct (Z.ltb_spec j 0); [done |]. destruct (Z.ltb_spec i 0); [done |].
  apply list_lookup_insert_ne. lia.
Qed.

(** The copy loop after the pixels numbered below [n]. *)
Lemma copy_fold_inv (mnX mnY cropW cropH : Z) (out0 : list Z) (n : nat) :
  wfPng p ->
  0 <= mnX -> 0 <= mnY -> 0 < cropW -> 0 < cropH ->
  mnX + cropW <= width p -> mnY + cropH <= height p ->
  Z.of_nat (length out0) = 4 * cropW * cropH ->
  Z.of_nat n <= cropW * cropH ->
  let out := fold_left (fun o k => copyPixel p mnX mnY cropW o (k mod cropW) (k / cropW))
               (seqZ 0 (Z.of_nat n)) out0 in
  length out = length out0
  /\ forall k c, 0 <= k < Z.of_nat n -> 0 <= c < 4 ->
       is_Some (byteAt out (4 * k + c))
       /\ byteAt out (4 * k + c) = channel p (mnX + k mod cropW) (mnY + k / cropW) c.
Proof.
  intros Hwf HmnX HmnY HcW HcH HxW HyH Hlen. cbv zeta.
  induction n as [|n IH]; intros Hn.
  - split; [done | lia].
  - destruct IH as [IHl IHb]; [lia |].
    rewrite seqZ_S, fold_left_app. simpl. rewrite Z.add_0_l.
    set (out := fold_left _ (seqZ 0 (Z.of_nat n)) out0) in *.
    assert (Hk : 0 <= Z.of_nat n < cropW * cropH) by lia.
    assert (HS : Z.of_nat (S n) = Z.of_nat n + 1) by lia. rewrite HS. clear HS Hn.
    clearbody out. remember (Z.of_nat n) as k eqn:Heqk in *. clear Heqk.
    destruct (pixel_coords _ _ _ Hk ltac:(lia)) as [Hx Hy].
    assert (Hin : inside p (mnX + k mod cropW) (mnY + k / cropW)) by (split; lia).
    assert (Hdst : jsShl (cropW * (k / cropW) + k mod cropW) 2 = 4 * k).
    { rewrite <- Z.div_mod by lia. destruct Hwf as (? & ? & ? & ?).
      apply (pixelIndex_small 1 k 0). nia. }
    unfold copyPixel. rewrite Hdst.
    destruct (byteAt_pixel _ _ 0 Hwf Hin ltac:(lia)) as [-> [v0 E0]].
    destruct (byteAt_pixel _ _ 1 Hwf Hin ltac:(lia)) as [-> [v1 E1]].
    destruct (byteAt_pixel _ _ 2 Hwf Hin ltac:(lia)) as [-> [v2 E2]].
    destruct (byteAt_pixel _ _ 3 Hwf Hin ltac:(lia)) as [-> [v3 E3]].
    rewrite E0, E1, E2, E3. simpl.
    split; [by rewrite !length_setByte |].
    intros k' c Hk' Hc.
    destruct (decide (k' = k)) as [-> | Hne].
    + assert (Hc4 : c = 0 \/ c = 1 \/ c = 2 \/ c = 3) by lia.
      destruct Hc4 as [-> | [-> | [-> | ->]]].
      * rewrite !byteAt_setByte_ne, byteAt_setByte_eq, E0 by (rewrite ?length_setByte; lia).
        done.
      * rewrite !byteAt_setByte_ne, byteAt_setByte_eq, E1 by (rewrite ?length_setByte; lia).
        done.
      * rewrite !byteAt_setByte_ne, byteAt_setByte_eq, E2 by (rewrite ?length_setByte; lia).
        done.
      * rewrite byteAt_setByte_eq, E3 by (rewrite ?length_setByte; lia). done.
    + rewrite !byteAt_setByte_ne by lia. apply IHb; lia.
Qed.

(** The general case of Content Crop. *)
Lemma content_crop_general : wfPng p -> cropSpec thr p.
Proof.
  intros Hwf. unfold cropSpec, cropPngToNonTransparent.
  pose proof (scanBounds_spec Hwf) as H.
  destruct (scanBounds thr p) as [[[a b] c] d].
  destruct H as [[[= -> -> -> ->] Hnone] | (Henc & Ha & Hb & Hc & Hd)].
  - destruct Hwf as (Hw & _).
    destruct (Z.ltb_spec (-1) (width p)); [| lia]. simpl. done.
  - assert (Hac : a <= c) by (destruct Ha as [y Hy]; apply (Henc _ _ Hy)).
    assert (Hbd : b <= d) by (destruct Hb as [x Hx]; apply (Henc _ _ Hx)).
    destruct (Z.ltb_spec c a); [lia |]. destruct (Z.ltb_spec d b); [lia |]. simpl.
    assert (Hin : 0 <= a /\ c < width p /\ 0 <= b /\ d < height p).
    { destruct Ha as [? [[? ?] _]], Hb as [? [[? ?] _]],
        Hc as [? [[? ?] _]], Hd as [? [[? ?] _]]. lia. }
    assert (Hcopy : forall out,
      out = {| width := c - a + 1; height := d - b + 1;
               data := forRows (c - a + 1) (d - b + 1) (copyPixel p a b (c - a + 1))
                         (data (newPng (c - a + 1) (d - b + 1))) |} ->
      width out = c - a + 1 /\ height out = d - b + 1
      /\ Z.of_nat (length (data out)) = 4 * (c - a + 1) * (d - b + 1)
      /\ forall x y c0, 0 <= x < c - a + 1 -> 0 <= y < d - b + 1 -> 0 <= c0 < 4 ->
           is_Some (channel out x y c0)
           /\ channel out x y c0 = channel p (a + x) (b + y) c0).
    { intros out ->. simpl.
      pose proof (copy_fold_inv a b (c - a + 1) (d - b + 1)
                    (replicate (Z.to_nat (4 * (c - a + 1) * (d - b + 1))) 0)
                    (Z.to_nat ((c - a + 1) * (d - b + 1))) Hwf) as Hcopy.
      rewrite Z2Nat.id in Hcopy by nia. rewrite <- forRows_flat in Hcopy by lia.
      destruct Hcopy as [Hl Hb']; try lia.
      { rewrite length_replicate, Z2Nat.id; nia. }
      split_and!; try done.
      { rewrite Hl, length_replicate, Z2Nat.id; nia. }
      intros x y c0 Hx Hy Hc0. unfold channel at 1 2. simpl.
      destruct (Hb' ((c - a + 1) * y + x) c0 ltac:(nia) ltac:(done)) as [Hs He].
      split; [exact Hs |]. rewrite He.
      replace ((c - a + 1) * y + x) with (x + y * (c - a + 1)) by lia.
      rewrite Z_mod_plus_full, Z.mod_small, Z.div_add, Z.div_small by lia.
      done. }
    destruct (Z.eqb_spec (c - a + 1) (width p)) as [Hcw | Hcw]; simpl;
      [destruct (Z.eqb_spec (d - b + 1) (height p)) as [Hch | Hch]; simpl |].
    + split_and!; try done. intros Hn. exfalso. by apply Hn.
    + split_and!; try done; [intros [_ ?]; done |]. intros _.
      eexists. split; [done |]. by apply Hcopy.
    + split_and!; try done; [intros [? _]; done |]. intros _.
      eexists. split; [done |]. by apply Hcopy.
Qed.

Lemma counted_opaqueExactlyOn x0 y0 x1 y1 x y :
  1 <= thr <= 255 ->
  opaqueExactlyOn p x0 y0 x1 y1 ->
  counted thr p x y <-> x0 <= x <= x1 /\ y0 <= y <= y1.
Proof.
  intros Hthr (Hx & Hx1 & Hy & Hy1 & Hop). unfold counted. split.
  - intros (Hin & a & Ha & Hle). rewrite (Hop _ _ Hin) in Ha.
    destruct (Z.leb_spec x0 x), (Z.leb_spec x x1), (Z.leb_spec y0 y), (Z.leb_spec y y1);
      simpl in Ha; injection Ha as <-; lia.
  - intros [Hxx Hyy]. assert (Hin : inside p x y) by (split; lia).
    split; [done |]. exists 255. rewrite (Hop _ _ Hin).
    destruct (Z.leb_spec x0 x), (Z.leb_spec x x1), (Z.leb_spec y0 y), (Z.leb_spec y y1);
      simpl; try lia. split; [done | lia].
Qed.

Lemma content_crop_rectangle : wfPng p -> cropRectangleSpec thr p.
Proof.
  intros Hwf x0 y0 x1 y1 Hthr Hop.
  pose proof (content_crop_general Hwf) as H. unfold cropSpec in H.
  pose proof (counted_opaqueExactlyOn x0 y0 x1 y1) as Hc.
  assert (H00 : counted thr p x0 y0).
  { apply Hc; try done. destruct Hop as (? & ? & ? & ? & _). lia. }
  unfold croppedRaster.
  destruct (cropPngToNonTransparent thr p) as [[r|] written]; simpl.
  2:{ destruct H as [_ Hn]. by destruct (Hn _ _ H00). }
  destruct H as (Hfw & Hfh & Henc & [ya Ha] & [xb Hb] & [yc Hcc] & [xd Hd] & Hsame & Hout).
  apply Hc in Ha, Hb, Hcc, Hd; try done.
  assert (Hlo : counted thr p x0 y0) by done.
  assert (Hhi : counted thr p x1 y1).
  { apply Hc; try done. destruct Hop as (? & ? & ? & ? & _). lia. }
  apply Henc in Hlo, Hhi.
  assert (minX r = x0 /\ minY r = y0 /\ maxX r = x1 /\ maxY r = y1) as (E1 & E2 & E3 & E4)
    by lia.
  split; [destruct r; simpl in *; congruence |].
  rewrite E1, E2, E3, E4 in Hsame, Hout.
  destruct (decide (x1 - x0 + 1 = width p /\ y1 - y0 + 1 = height p)) as [Hfull | Hpart].
  - rewrite (Hsame Hfull). simpl. destruct Hfull as [Hfx Hfy].
    destruct Hop as (? & ? & ? & ? & _).
    split_and!; [lia | lia |]. intros x y c _ _ _.
    replace (x0 + x) with x by lia. replace (y0 + y) with y by lia. done.
  - destruct (Hout Hpart) as (out & -> & Hw & Hh & _ & Hpx). simpl.
    split_and!; [done | done |]. intros x y c Hx Hy Hcc'. by apply Hpx.
Qed.

(** C6. On a well-formed raster Content Crop meets its specification: empty
    exactly when no pixel has its alpha at or above the threshold, the raster
    then left as it is; otherwise the smallest rectangle around those pixels,
    with the original dimensions, nothing written when the rectangle is the
    whole raster, and else a written raster that holds the pixels of the
    rectangle, bytes and order kept. In particular, on a raster opaque on a
    rectangle and transparent elsewhere it returns that rectangle and leaves
    its pixels. *)
Theorem content_crop : wfPng p -> cropSpec thr p /\ cropRectangleSpec thr p.
Proof.
  intros Hwf. split; [by apply content_crop_general | by apply content_crop_rectangle].
Qed.

End CropFacts.

Lemma content_crop_witness :
  wfPng Scenario.rightColumn
  /\ cropSpec 1 Scenario.rightColumn /\ cropRectangleSpec 1 Scenario.rightColumn.
Proof.
  assert (H : wfPng Scenario.rightColumn) by (repeat split; vm_compute; congruence).
  split; [exact H | exact (content_crop 1 Scenario.rightColumn H)].
Defined.

(** The rectangle of [Scenario.rightColumn] is its right column. *)
Example content_crop_rightColumn :
  cropPngToNonTransparent 1 Scenario.rightColumn
  = (Some {| minX := 1; minY := 0; maxX := 1; maxY := 1;
             fullWidth := 2; fullHeight := 2 |},
     Some {| width := 1; height := 2; data := [4; 5; 6; 255; 7; 8; 9; 255] |})
  /\ opaqueExactlyOn Scenario.rightColumn 1 0 1 1.
Proof.
  split; [vm_compute; reflexivity |].
  unfold opaqueExactlyOn. split_and!; try (vm_compute; congruence).
  intros x y [Hx Hy]. change (width Scenario.rightColumn) with 2 in Hx.
  change (height Scenario.rightColumn) with 2 in Hy.
  assert (Hxy : (x = 0 \/ x = 1) /\ (y = 0 \/ y = 1)) by lia.
  destruct Hxy as [[-> | ->] [-> | ->]]; vm_compute; reflexivity.
Qed.

(** ** Border transparency: the colour key *)

Lemma lor_shiftl_add a n b :
  0 <= n -> 0 <= b < 2 ^ n -> Z.lor (Z.shiftl a n) b = a * 2 ^ n + b.
Proof.
  intros Hn Hb.
  assert (Hland : Z.land (Z.shiftl a n) b = 0).
  { rewrite <- (Z.mod_small b (2 ^ n)) by done.
    rewrite <- (Z.land_ones b) by done.
    rewrite (Z.land_comm b), Z.land_assoc, Z.land_ones by done.
    rewrite Z.shiftl_mul_pow2, Z_mod_mult by done. apply Z.land_0_l. }
  pose proof (Z.add_lor_land (Z.shiftl a n) b) as H.
  rewrite Hland, Z.shiftl_mul_pow2 in H by done.
  rewrite Z.shiftl_mul_pow2 by done. lia.
Qed.

Lemma jsShl_small a n :
  0 <= n -> - 2 ^ 31 <= a * 2 ^ n < 2 ^ 31 -> - 2 ^ 31 <= a < 2 ^ 31 ->
  jsShl a n = a * 2 ^ n.
Proof.
  intros Hn Hs Ha. unfold jsShl.
  rewrite (toInt32_small a), Z.shiftl_mul_pow2 by done. by apply toInt32_small.
Qed.

Lemma jsOr_shifted a n b :
  0 <= n -> 0 <= b < 2 ^ n -> 0 <= a -> a * 2 ^ n + b < 2 ^ 31 ->
  jsOr (a * 2 ^ n) b = a * 2 ^ n + b.
Proof.
  intros Hn Hb Ha Hs. unfold jsOr.
  rewrite (toInt32_small (a * 2 ^ n)), (toInt32_small b) by nia.
  pose proof (lor_shiftl_add a n b Hn Hb) as H.
  rewrite Z.shiftl_mul_pow2 in H by done. rewrite H.
  apply toInt32_small. nia.
Qed.

Lemma colorKey_value r g b :
  0 <= r <= 255 -> 0 <= g <= 255 -> 0 <= b <= 255 ->
  colorKey r g b = r * 65536 + g * 256 + b.
Proof.
  intros Hr Hg Hb. unfold colorKey.
  rewrite (jsShl_small r 16), (jsShl_small g 8) by lia.
  replace (r * 2 ^ 16) with ((r * 2 ^ 8) * 2 ^ 8) by lia.
  replace (g * 2 ^ 8) with (0 * 2 ^ 8 + g * 2 ^ 8) by lia.
  assert (E : jsOr (r * 2 ^ 8 * 2 ^ 8) (0 * 2 ^ 8 + g * 2 ^ 8) = (r * 256 + g) * 2 ^ 8).
  { replace (r * 2 ^ 8 * 2 ^ 8) with (r * 2 ^ 16) by lia.
    replace (0 * 2 ^ 8 + g * 2 ^ 8) with (g * 256) by lia.
    rewrite jsOr_shifted by lia. lia. }
  rewrite E, jsOr_shifted by lia. lia.
Qed.

(** The three masks give back the three components. *)
Lemma colorKey_unpack r g b :
  0 <= r <= 255 -> 0 <= g <= 255 -> 0 <= b <= 255 ->
  jsAnd (jsSar (colorKey r g b) 16) 255 = r
  /\ jsAnd (jsSar (colorKey r g b) 8) 255 = g
  /\ jsAnd (colorKey r g b) 255 = b.
Proof.
  intros Hr Hg Hb. rewrite colorKey_value by done.
  unfold jsAnd, jsSar.
  rewrite (toInt32_small (r * 65536 + g * 256 + b)) by lia.
  rewrite !Z.shiftr_div_pow2 by lia.
  rewrite (toInt32_small 255) by lia. change 255 with (Z.ones 8).
  assert (E16 : (r * 65536 + g * 256 + b) / 2 ^ 16 = r).
  { symmetry. apply (Z.div_unique _ _ _ (g * 256 + b)); lia. }
  assert (E8 : (r * 65536 + g * 256 + b) / 2 ^ 8 = r * 256 + g).
  { symmetry. apply (Z.div_unique _ _ _ b); lia. }
  rewrite E16, E8.
  rewrite !Z.land_ones by lia.
  assert (M1 : r mod 2 ^ 8 = r) by (apply Z.mod_small; lia).
  assert (M2 : (r * 256 + g) mod 2 ^ 8 = g).
  { symmetry. apply (Z.mod_unique _ _ r); lia. }
  assert (M3 : (r * 65536 + g * 256 + b) mod 2 ^ 8 = b).
  { symmetry. apply (Z.mod_unique _ _ (r * 256 + g)); lia. }
  rewrite (toInt32_small r), (toInt32_small (r * 256 + g)) by lia.
  rewrite M1, M2, M3. rewrite !toInt32_small by lia. done.
Qed.

(** ** Border transparency: the sampling of the edges *)

Lemma countsSet_elem k c m k' c' :
  (k', c') ∈ countsSet k c m -> (k', c') = (k, c) \/ (k', c') ∈ m.
Proof.
  induction m as [|[k0 c0] m IH]; simpl.
  - intros H. apply list_elem_of_singleton in H. by left.
  - destruct (k =? k0).
    + intros H. apply elem_of_cons in H as [H | H]; [by left | right; by right].
    + intros H. apply elem_of_cons in H as [-> | H]; [right; by left |].
      destruct (IH H) as [? | ?]; [by left | right; by right].
Qed.

Lemma countsGet_elem k m c : countsGet k m = Some c -> (k, c) ∈ m.
Proof.
  induction m as [|[k0 c0] m IH]; simpl; [done |].
  destruct (Z.eqb_spec k k0) as [-> | Hne].
  - intros [= ->]. by left.
  - intros H. right. by apply IH.
Qed.

Lemma countsSet_nonempty k c m : countsSet k c m <> [].
Proof. destruct m as [|[k0 c0] m]; simpl; [done |]. by destruct (k =? k0). Qed.

Section BorderFacts.

Variable p : Png.
Hypothesis Hwf : wfPng p.

Lemma samplePixel_cases counts x y :
  inside p x y ->
  (channel p x y 3 = Some 0 /\ samplePixel p counts x y = counts)
  \/ (exists a r g b,
        channel p x y 3 = Some a /\ a <> 0
        /\ channel p x y 0 = Some r /\ channel p x y 1 = Some g
        /\ channel p x y 2 = Some b
        /\ samplePixel p counts x y
           = countsSet (colorKey r g b)
               (default 0 (countsGet (colorKey r g b) counts) + 1) counts).
Proof.
  intros Hin. unfold samplePixel.
  destruct (byteAt_pixel p x y 3 Hwf Hin ltac:(lia)) as [-> [a Ha]].
  destruct (byteAt_pixel p x y 0 Hwf Hin ltac:(lia)) as [-> [r Hr]].
  destruct (byteAt_pixel p x y 1 Hwf Hin ltac:(lia)) as [-> [g Hg]].
  destruct (byteAt_pixel p x y 2 Hwf Hin ltac:(lia)) as [-> [b Hb]].
  rewrite Ha, Hr, Hg, Hb. simpl.
  destruct a as [|a|a]; [by left | right | right];
    eexists _, r, g, b; split_and!; done.
Qed.

Lemma samplePixel_sampledFrom counts x y :
  edgePixel p x y -> sampledFrom p counts -> sampledFrom p (samplePixel p counts x y).
Proof.
  intros Hedge Hs.
  destruct (samplePixel_cases counts x y (proj1 Hedge))
    as [[_ ->] | (a & r & g & b & Ha & Hne & Hr & Hg & Hb & ->)]; [done |].
  intros k c Hin. apply countsSet_elem in Hin as [[= -> ->] | Hin]; [| by apply Hs].
  split.
  - destruct (countsGet _ counts) as [c0|] eqn:E; simpl; [| lia].
    apply countsGet_elem, Hs in E. lia.
  - exists x, y, r, g, b. split_and!; try done. rewrite Ha. by intros [= ->].
Qed.

Lemma samplePixel_keeps_nonempty counts x y :
  inside p x y -> counts <> [] -> samplePixel p counts x y <> [].
Proof.
  intros Hin Hne.
  destruct (samplePixel_cases counts x y Hin)
    as [[_ ->] | (a & r & g & b & _ & _ & _ & _ & _ & ->)];
    [done | apply countsSet_nonempty].
Qed.

Lemma samplePixel_nonempty counts x y :
  inside p x y -> channel p x y 3 <> Some 0 -> samplePixel p counts x y <> [].
Proof.
  intros Hin Ha.
  destruct (samplePixel_cases counts x y Hin)
    as [[? _] | (a & r & g & b & _ & _ & _ & _ & _ & ->)];
    [done | apply countsSet_nonempty].
Qed.

Lemma samplePixel_transparent counts x y :
  inside p x y -> channel p x y 3 = Some 0 -> samplePixel p counts x y = counts.
Proof.
  intros Hin Ha.
  destruct (samplePixel_cases counts x y Hin)
    as [[_ ->] | (a & r & g & b & Ha' & Hne & _)]; [done | congruence].
Qed.

(** The coordinates the two loops sample are edge pixels. *)
Lemma sampled_rows x :
  0 < height p -> x ∈ seqZ 0 (width p) ->
  edgePixel p x 0 /\ edgePixel p x (height p - 1).
Proof.
  intros Hh Hx. apply elem_of_seqZ in Hx. unfold edgePixel, inside.
  split_and!; try lia; auto.
Qed.

Lemma sampled_columns y :
  0 < width p -> y ∈ seqZ 0 (height p) ->
  edgePixel p 0 y /\ edgePixel p (width p - 1) y.
Proof.
  intros Hw Hy. apply elem_of_seqZ in Hy. unfold edgePixel, inside.
  split_and!; try lia; auto.
Qed.

Lemma sampleBorder_sampledFrom :
  0 < width p -> 0 < height p -> sampledFrom p (sampleBorder p).
Proof.
  intros Hw Hh. unfold sampleBorder.
  apply fold_left_preserves_in.
  { intros c y Hy Hc. destruct (sampled_columns y Hw Hy).
    by repeat apply samplePixel_sampledFrom. }
  apply fold_left_preserves_in.
  { intros c x Hx Hc. destruct (sampled_rows x Hh Hx).
    by repeat apply samplePixel_sampledFrom. }
  intros k c Hin. by apply elem_of_nil in Hin.
Qed.

Lemma sampleBorder_cleared :
  0 < width p -> 0 < height p -> edgesCleared p -> sampleBorder p = [].
Proof.
  intros Hw Hh Hc. unfold sampleBorder.
  apply (fold_left_preserves_in (fun c => c = [])).
  { intros c y Hy ->. destruct (sampled_columns y Hw Hy) as [H1 H2].
    rewrite (samplePixel_transparent _ 0 y (proj1 H1) (Hc _ _ H1)).
    apply (samplePixel_transparent _ _ y (proj1 H2) (Hc _ _ H2)). }
  apply (fold_left_preserves_in (fun c => c = [])); [| done].
  intros c x Hx ->. destruct (sampled_rows x Hh Hx) as [H1 H2].
  rewrite (samplePixel_transparent _ x 0 (proj1 H1) (Hc _ _ H1)).
  apply (samplePixel_transparent _ x _ (proj1 H2) (Hc _ _ H2)).
Qed.

Lemma sampleBorder_nonempty x y :
  edgePixel p x y -> channel p x y 3 <> Some 0 -> sampleBorder p <> [].
Proof.
  intros [[Hx Hy] Hedge] Ha. unfold sampleBorder.
  assert (Hw : 0 < width p) by lia. assert (Hh : 0 < height p) by lia.
  assert (Hin : inside p x y) by done.
  assert (Hrows : forall c x', x' ∈ seqZ 0 (width p) -> c <> [] ->
            samplePixel p (samplePixel p c x' 0) x' (height p - 1) <> []).
  { intros c x' Hx' Hc. destruct (sampled_rows x' Hh Hx') as [H1 H2].
    apply samplePixel_keeps_nonempty; [apply H2 |].
    apply samplePixel_keeps_nonempty; [apply H1 | done]. }
  assert (Hcols : forall c y', y' ∈ seqZ 0 (height p) -> c <> [] ->
            samplePixel p (samplePixel p c 0 y') (width p - 1) y' <> []).
  { intros c y' Hy' Hc. destruct (sampled_columns y' Hw Hy') as [H1 H2].
    apply samplePixel_keeps_nonempty; [apply H2 |].
    apply samplePixel_keeps_nonempty; [apply H1 | done]. }
  assert (Hxs : x ∈ seqZ 0 (width p)) by (apply elem_of_seqZ; lia).
  assert (Hys : y ∈ seqZ 0 (height p)) by (apply elem_of_seqZ; lia).
  destruct (decide (y = 0 \/ y = height p - 1)) as [Hrow | Hcol].
  - apply (fold_left_preserves_in (fun c => c <> [])); [done |].
    apply (fold_left_reaches (fun c => c <> []) _ _ _ x); [done | | done].
    intros c. destruct (sampled_rows x Hh Hxs) as [H1 H2].
    destruct Hrow as [-> | ->].
    + apply samplePixel_keeps_nonempty; [apply H2 |]. by apply samplePixel_nonempty.
    + by apply samplePixel_nonempty.
  - apply (fold_left_reaches (fun c => c <> []) _ _ _ y); [done | | done].
    intros c. destruct (sampled_columns y Hw Hys) as [H1 H2].
    assert (Hx0 : x = 0 \/ x = width p - 1) by tauto.
    destruct Hx0 as [-> | ->].
    + apply samplePixel_keeps_nonempty; [apply H2 |]. by apply samplePixel_nonempty.
    + by apply samplePixel_nonempty.
Qed.

End BorderFacts.

(** ** Border transparency: the dominant colour and the clearing loop *)

Lemma pickDominant_fold (l : list (Z * Z)) (st : option Z * Z) :
  let st' := fold_left (fun '(bgKey, bgCount) '(k, c) =>
                          if bgCount <? c then (Some k, c) else (bgKey, bgCount)) l st in
  st' = st \/ exists k, fst st' = Some k /\ (k, snd st') ∈ l.
Proof.
  cbv zeta. revert st. induction l as [|[k c] l IH]; intros [bk bc]; simpl; [by left |].
  destruct (bc <? c).
  - right. destruct (IH (Some k, c)) as [-> | (k' & E & Hin)].
    + exists k. split; [done | by left].
    + exists k'. split; [done | by right].
  - destruct (IH (bk, bc)) as [-> | (k' & E & Hin)]; [by left |].
    right. exists k'. split; [done | by right].
Qed.

Lemma pickDominant_some counts :
  counts <> [] -> (forall k c, (k, c) ∈ counts -> 1 <= c) ->
  exists k c, pickDominant counts = (Some k, c) /\ (k, c) ∈ counts.
Proof.
  intros Hne Hpos. destruct counts as [|[k0 c0] l]; [done |].
  unfold pickDominant. simpl.
  assert (1 <= c0) by (apply (Hpos k0); by left).
  destruct (Z.ltb_spec (-1) c0); [| lia].
  pose proof (pickDominant_fold l (Some k0, c0)) as H1. cbv zeta in H1.
  destruct H1 as [-> | (k & E & Hin)].
  - exists k0, c0. split; [done | by left].
  - destruct (fold_left _ l (Some k0, c0)) as [bk bc]. simpl in *. subst bk.
    exists k, bc. split; [done | by right].
Qed.

Lemma byteAt_lookup d i : 0 <= i -> byteAt d i = d !! Z.to_nat i.
Proof. intros Hi. unfold byteAt. by destruct (Z.ltb_spec i 0); [lia |]. Qed.

Lemma clear_fold_onlyClearsAlpha w tol bgR bgG bgB l d :
  onlyClearsAlpha d
    (fold_left (fun d k => clearPixel w tol bgR bgG bgB d (k mod w) (k / w)) l d).
Proof.
  apply (fold_left_preserves (onlyClearsAlpha d)); [| apply onlyClearsAlpha_refl].
  intros d1 k H1. eapply onlyClearsAlpha_trans; [done |].
  apply clearPixel_onlyClearsAlpha.
Qed.

Lemma withinTol_self tol v : 0 <= tol -> withinTol tol v (Some v) = true.
Proof. intros H. simpl. rewrite Z.sub_diag. simpl. by apply Z.leb_le. Qed.

(** The loop clears the pixels that have exactly the background colour. *)
Lemma clear_reaches q tol x y r g b :
  wfPng q -> 0 <= tol -> inside q x y ->
  channel q x y 0 = Some r -> channel q x y 1 = Some g -> channel q x y 2 = Some b ->
  byteAt (forRows (width q) (height q) (clearPixel (width q) tol r g b) (data q))
    (4 * (width q * y + x) + 3) = Some 0.
Proof.
  intros Hwf Htol Hin Hr Hg Hb.
  destruct (pixel_number q x y Hwf Hin) as (Hk & Hs & Hx & Hy).
  pose proof Hwf as (Hw & Hh & Hlen & _).
  rewrite forRows_flat by done.
  remember (width q * y + x) as k eqn:Ek.
  replace (width q * height q) with (k + (width q * height q - k)) by lia.
  rewrite seqZ_app, fold_left_app by lia.
  rewrite (seqZ_cons (0 + k)), Z.add_0_l by lia. cbn [fold_left]. rewrite Hx, Hy.
  set (d1 := fold_left _ (seqZ 0 k) (data q)).
  pose proof (clear_fold_onlyClearsAlpha (width q) tol r g b (seqZ 0 k) (data q))
    as [Hl1 H1]. fold d1 in Hl1, H1.
  set (d2 := clearPixel (width q) tol r g b d1 x y).
  assert (H2 : byteAt d2 (4 * k + 3) = Some 0).
  { unfold d2, clearPixel. rewrite pixelIndex_small by lia. rewrite <- Ek.
    assert (Hsame : forall c, 0 <= c < 3 -> byteAt d1 (4 * k + c) = channel q x y c).
    { intros c Hc. unfold channel. rewrite <- Ek. rewrite !byteAt_lookup by lia.
      destruct (H1 (Z.to_nat (4 * k + c))) as [E | (Hm & _)]; [done |].
      rewrite Z2Nat.id in Hm by lia.
      replace (4 * k + c) with (c + k * 4) in Hm by lia.
      rewrite Z_mod_plus_full, Z.mod_small in Hm; lia. }
    destruct (byteAt d1 (4 * k + 3)) as [[|a|a]|] eqn:E3; try done.
    - rewrite !Hsame, Hr, Hg, Hb, !withinTol_self by lia. simpl.
      apply byteAt_setByte_eq. rewrite byteAt_lookup in E3 by lia.
      apply lookup_lt_Some in E3. lia.
    - rewrite !Hsame, Hr, Hg, Hb, !withinTol_self by lia. simpl.
      apply byteAt_setByte_eq. rewrite byteAt_lookup in E3 by lia.
      apply lookup_lt_Some in E3. lia.
    - exfalso. rewrite byteAt_lookup in E3 by lia. apply lookup_ge_None in E3. lia. }
  match goal with
  | |- byteAt (fold_left ?f ?l d2) _ = _ =>
      pose proof (clear_fold_onlyClearsAlpha (width q) tol r g b l d2) as [_ H3]
  end.
  rewrite byteAt_lookup in H2 |- * by lia.
  destruct (H3 (Z.to_nat (4 * k + 3))) as [E | (_ & a & Ha & Hne & _)]; [| congruence].
  by rewrite E.
Qed.

Lemma borderTransparent_wf tol p :
  wfPng p -> wfBytes p ->
  wfPng (borderTransparent tol p) /\ wfBytes (borderTransparent tol p).
Proof.
  intros (Hw & Hh & Hl & Hs) Hb.
  destruct (borderTransparent_onlyClearsAlpha tol p) as (Ew & Eh & El & Ec).
  split.
  - unfold wfPng. rewrite Ew, Eh, El. done.
  - unfold wfBytes in *. rewrite Forall_lookup in Hb |- *. intros j v Hv.
    destruct (Ec j) as [E | (_ & a & _ & _ & E)].
    + rewrite E in Hv. by eapply Hb.
    + rewrite E in Hv. injection Hv as <-. lia.
Qed.

(** A raster is left as it is exactly when its edges are transparent. *)
Lemma borderTransparent_fixed_iff tol q :
  wfPng q -> wfBytes q -> 0 <= tol ->
  borderTransparent tol q = q <-> edgesCleared q.
Proof.
  intros Hwf Hbytes Htol. split.
  - intros Hfix x y Hedge.
    destruct (byteAt_pixel q x y 3 Hwf (proj1 Hedge) ltac:(lia)) as [_ [a Ha]].
    destruct (decide (a = 0)) as [-> | Hne]; [done |]. exfalso.
    assert (Hnz : channel q x y 3 <> Some 0) by (rewrite Ha; by intros [= ->]).
    assert (Hw : 0 < width q) by (destruct Hedge as [[? ?] _]; lia).
    assert (Hh : 0 < height q) by (destruct Hedge as [[? ?] _]; lia).
    pose proof (sampleBorder_nonempty q Hwf x y Hedge Hnz) as Hcounts.
    pose proof (sampleBorder_sampledFrom q Hwf Hw Hh) as Hfrom.
    destruct (pickDominant_some _ Hcounts (fun k c H => proj1 (Hfrom k c H)))
      as (k & c & Hpick & Hin).
    destruct (Hfrom k c Hin) as (_ & x' & y' & r & g & b & He' & Hnz' & Hr & Hg & Hb & ->).
    assert (Hrange : forall ch v, channel q x' y' ch = Some v -> 0 <= ch -> 0 <= v <= 255).
    { intros ch v Hv Hch. unfold channel in Hv. rewrite byteAt_lookup in Hv.
      - unfold wfBytes in Hbytes. rewrite Forall_lookup in Hbytes. by eapply Hbytes.
      - destruct He' as [[? ?] _]. destruct Hwf as (? & ? & _). nia. }
    destruct (colorKey_unpack r g b) as (Ur & Ug & Ub);
      [by eapply Hrange | by eapply Hrange | by eapply Hrange |].
    unfold borderTransparent, makeDominantBorderColorTransparent in Hfix.
    destruct (Z.eqb_spec (width q) 0); [lia |].
    destruct (Z.eqb_spec (height q) 0); [lia |]. simpl in Hfix.
    rewrite Hpick in Hfix. simpl in Hfix. rewrite Ur, Ug, Ub in Hfix.
    apply (f_equal data) in Hfix. simpl in Hfix.
    pose proof (clear_reaches q tol x' y' r g b Hwf Htol (proj1 He') Hr Hg Hb) as Hclr.
    rewrite Hfix in Hclr. by apply Hnz'.
  - intros Hc. unfold borderTransparent, makeDominantBorderColorTransparent.
    destruct (Z.eqb_spec (width q) 0); [done |].
    destruct (Z.eqb_spec (height q) 0); [done |]. simpl.
    pose proof Hwf as (Hw & Hh & _).
    rewrite sampleBorder_cleared; [done | done | lia | lia | done].
Qed.

Lemma sampleBorder_empty q :
  wfPng q -> sampleBorder q = [] -> edgesCleared q.
Proof.
  intros Hwf He x y Hedge.
  destruct (byteAt_pixel q x y 3 Hwf (proj1 Hedge) ltac:(lia)) as [_ [a Ha]].
  destruct (decide (a = 0)) as [-> | Hne]; [done |]. exfalso.
  apply (sampleBorder_nonempty q Hwf x y Hedge); [| done].
  rewrite Ha. by intros [= ->].
Qed.

Lemma channel_range q x y c v :
  wfPng q -> wfBytes q -> inside q x y -> 0 <= c < 4 ->
  channel q x y c = Some v -> 0 <= v <= 255.
Proof.
  intros Hwf Hb Hin Hc Hv. unfold channel in Hv. rewrite byteAt_lookup in Hv.
  - unfold wfBytes in Hb. rewrite Forall_lookup in Hb. by eapply Hb.
  - destruct Hin as [? ?]. destruct Hwf as (? & ? & _). nia.
Qed.

(** The colour the function picks on a raster with a visible edge pixel, and
    what its clearing loop does to the pixels of that colour. *)
Lemma dominant_cleared tol q :
  wfPng q -> wfBytes q -> 0 <= tol -> ~ edgesCleared q ->
  exists x y r g b,
    dominantBorderColor q = Some (colorKey r g b)
    /\ edgePixel q x y /\ channel q x y 3 <> Some 0
    /\ channel q x y 0 = Some r /\ channel q x y 1 = Some g /\ channel q x y 2 = Some b
    /\ data (borderTransparent tol q)
       = forRows (width q) (height q) (clearPixel (width q) tol r g b) (data q)
    /\ forall x' y', inside q x' y' ->
         channel q x' y' 0 = Some r -> channel q x' y' 1 = Some g ->
         channel q x' y' 2 = Some b ->
         channel (borderTransparent tol q) x' y' 3 = Some 0.
Proof.
  intros Hwf Hbytes Htol Hnc.
  assert (Hcounts : sampleBorder q <> []).
  { intros He. by apply Hnc, sampleBorder_empty. }
  assert (Hw : 0 < width q).
  { destruct (decide (width q = 0)) as [E | ?]; [| destruct Hwf; lia].
    exfalso. apply Hnc. intros x y [[? ?] _]. lia. }
  assert (Hh : 0 < height q).
  { destruct (decide (height q = 0)) as [E | ?]; [| destruct Hwf as (? & ? & _); lia].
    exfalso. apply Hnc. intros x y [[? ?] _]. lia. }
  pose proof (sampleBorder_sampledFrom q Hwf Hw Hh) as Hfrom.
  destruct (pickDominant_some _ Hcounts (fun k c H => proj1 (Hfrom k c H)))
    as (k & c & Hpick & Hin).
  destruct (Hfrom k c Hin) as (_ & x & y & r & g & b & He & Hnz & Hr & Hg & Hb & ->).
  exists x, y, r, g, b.
  assert (Hdom : dominantBorderColor q = Some (colorKey r g b)).
  { unfold dominantBorderColor.
    destruct (Z.eqb_spec (width q) 0); [lia |].
    destruct (Z.eqb_spec (height q) 0); [lia |]. simpl. by rewrite Hpick. }
  destruct (colorKey_unpack r g b) as (Ur & Ug & Ub);
    [apply (channel_range q x y 0 r Hwf Hbytes (proj1 He)); [lia | done]
    | apply (channel_range q x y 1 g Hwf Hbytes (proj1 He)); [lia | done]
    | apply (channel_range q x y 2 b Hwf Hbytes (proj1 He)); [lia | done] |].
  assert (Hq : borderTransparent tol q
               = {| width := width q; height := height q;
                    data := forRows (width q) (height q)
                              (clearPixel (width q) tol r g b) (data q) |}).
  { unfold borderTransparent, makeDominantBorderColorTransparent.
    destruct (Z.eqb_spec (width q) 0); [lia |].
    destruct (Z.eqb_spec (height q) 0); [lia |]. simpl.
    rewrite Hpick. simpl. by rewrite Ur, Ug, Ub. }
  split_and!; try done; [by rewrite Hq |].
  intros x' y' Hin' Hr' Hg' Hb'. rewrite Hq. unfold channel. simpl.
  by apply clear_reaches.
Qed.

Lemma colorKey_inj r g b r' g' b' :
  0 <= r <= 255 -> 0 <= g <= 255 -> 0 <= b <= 255 ->
  0 <= r' <= 255 -> 0 <= g' <= 255 -> 0 <= b' <= 255 ->
  colorKey r g b = colorKey r' g' b' -> r = r' /\ g = g' /\ b = b'.
Proof.
  intros Hr Hg Hb Hr' Hg' Hb' E.
  destruct (colorKey_unpack r g b) as (Ur & Ug & Ub); try done.
  destruct (colorKey_unpack r' g' b') as (Ur' & Ug' & Ub'); try done.
  rewrite E in Ur, Ug, Ub. split_and!; congruence.
Qed.

(** Border transparency leaves the colours and never makes a pixel visible. *)
Lemma borderTransparent_channels tol p x y :
  wfPng p -> inside p x y ->
  (forall c, 0 <= c < 3 -> channel (borderTransparent tol p) x y c = channel p x y c)
  /\ (channel (borderTransparent tol p) x y 3 <> Some 0 ->
      channel p x y 3 = channel (borderTransparent tol p) x y 3).
Proof.
  intros Hwf Hin.
  destruct (borderTransparent_onlyClearsAlpha tol p) as (Ew & Eh & El & Ec).
  destruct (pixel_number p x y Hwf Hin) as (Hk & _).
  unfold channel. rewrite Ew. split.
  - intros c Hc. rewrite !byteAt_lookup by lia.
    destruct (Ec (Z.to_nat (4 * (width p * y + x) + c))) as [E | (Hm & _)]; [done |].
    rewrite Z2Nat.id in Hm by lia.
    replace (4 * (width p * y + x) + c) with (c + (width p * y + x) * 4) in Hm by lia.
    rewrite Z_mod_plus_full, Z.mod_small in Hm; lia.
  - rewrite !byteAt_lookup by lia.
    destruct (Ec (Z.to_nat (4 * (width p * y + x) + 3))) as [E | (_ & a & _ & _ & E)];
      [by rewrite E | by rewrite E].
Qed.

(** C7, as amended. On a well-formed raster, with a tolerance that is not
    negative, a second application of border transparency changes nothing
    exactly when the first one left no edge pixel with a non-zero alpha.
    When one is left, the second application picks its dominant colour among
    the edge pixels that are left: it is the colour of one of them, another
    colour than the first application picked, and the clearing loop runs
    with it, so that this pixel and every pixel of that colour are
    cleared. *)
Theorem border_transparency_twice (tol : Z) (p : Png) :
  wfPng p -> wfBytes p -> 0 <= tol ->
  let q := borderTransparent tol p in
  (borderTransparent tol q = q <-> edgesCleared q)
  /\ (~ edgesCleared q ->
      exists r1 g1 b1 x y r g b,
        dominantBorderColor p = Some (colorKey r1 g1 b1)
        /\ dominantBorderColor q = Some (colorKey r g b)
        /\ colorKey r g b <> colorKey r1 g1 b1
        /\ edgePixel q x y /\ channel q x y 3 <> Some 0
        /\ channel q x y 0 = Some r /\ channel q x y 1 = Some g
        /\ channel q x y 2 = Some b
        /\ data (borderTransparent tol q)
           = forRows (width q) (height q) (clearPixel (width q) tol r g b) (data q)
        /\ channel (borderTransparent tol q) x y 3 = Some 0
        /\ forall x' y', inside q x' y' ->
             channel q x' y' 0 = Some r -> channel q x' y' 1 = Some g ->
             channel q x' y' 2 = Some b ->
             channel (borderTransparent tol q) x' y' 3 = Some 0).
Proof.
  intros Hwf Hb Htol. cbv zeta.
  destruct (borderTransparent_wf tol p Hwf Hb) as [Hwf' Hb'].
  split; [by apply borderTransparent_fixed_iff |].
  intros Hnc.
  destruct (dominant_cleared tol _ Hwf' Hb' Htol Hnc)
    as (x & y & r & g & b & Hdom & He & Hnz & Hr & Hg & Hbl & Hdata & Hclr).
  destruct (borderTransparent_onlyClearsAlpha tol p) as (Ew & Eh & _).
  assert (Hin : inside p x y).
  { destruct He as [[? ?] _]. unfold inside. rewrite <- Ew, <- Eh. done. }
  destruct (borderTransparent_channels tol p x y Hwf Hin) as [Hcol Halpha].
  assert (Hncp : ~ edgesCleared p).
  { intros Hc. apply Hnz. rewrite <- Halpha by done. apply Hc.
    destruct He as [_ He]. split; [done |]. by rewrite <- Ew, <- Eh. }
  destruct (dominant_cleared tol p Hwf Hb Htol Hncp)
    as (x1 & y1 & r1 & g1 & b1 & Hdom1 & He1 & _ & Hr1 & Hg1 & Hb1 & _ & Hclr1).
  exists r1, g1, b1, x, y, r, g, b. split_and!; try done.
  - intros E.
    apply colorKey_inj in E as (-> & -> & ->);
      try (eapply (channel_range _ x y); [exact Hwf' | exact Hb' | apply He | | done]; lia);
      try (eapply (channel_range p x1 y1); [exact Hwf | exact Hb | apply He1 | | done]; lia).
    apply Hnz, Hclr1; [done | | |]; rewrite <- Hcol by lia; done.
  - apply Hclr; [apply He | done | done | done].
Qed.

Lemma border_transparency_twice_witness :
  wfPng Scenario.redBlue /\ wfBytes Scenario.redBlue /\ 0 <= 10
  /\ (borderTransparent 10 (borderTransparent 10 Scenario.redBlue)
      = borderTransparent 10 Scenario.redBlue
      <-> edgesCleared (borderTransparent 10 Scenario.redBlue)).
Proof.
  assert (Hwf : wfPng Scenario.redBlue) by (repeat split; vm_compute; congruence).
  assert (Hb : wfBytes Scenario.redBlue).
  { unfold wfBytes. simpl. repeat constructor; lia. }
  assert (Ht : 0 <= 10) by lia.
  split; [exact Hwf |]. split; [exact Hb |]. split; [exact Ht |].
  exact (proj1 (border_transparency_twice 10 Scenario.redBlue Hwf Hb Ht)).
Defined.

(** C7, as stated, fails. On the raster of one red and one blue pixel the
    first application takes red, seen first, and clears the red pixel; the
    second takes blue, the only colour left on the edge, and clears the blue
    pixel, which the first had kept. *)
Lemma border_transparency_twice_counterexample :
  data (borderTransparent 10 Scenario.redBlue) = [255; 0; 0; 0; 0; 0; 255; 255]
  /\ data (borderTransparent 10 (borderTransparent 10 Scenario.redBlue))
     = [255; 0; 0; 0; 0; 0; 255; 0].
Proof. split; vm_compute; reflexivity. Qed.

(** ** Geo-bounds resolver *)

Section GeoFacts.

Local Open Scope R_scope.

Lemma Rleb_true a b : Rleb a b = true <-> a <= b.
Proof. unfold Rleb. destruct (Rle_dec a b); split; try done; lra. Qed.

Lemma Rltb_true a b : Rltb a b = true <-> a < b.
Proof. unfold Rltb. destruct (Rlt_dec a b); split; try done; lra. Qed.

Lemma geotransformLooksGeographic_iff x0 pxW r2 y0 r4 pxH rest :
  geotransformLooksGeographic (x0 :: pxW :: r2 :: y0 :: r4 :: pxH :: rest) = true <->
  Rabs x0 <= 360 /\ Rabs y0 <= 180 /\ 0 < Rabs pxW <= 5 /\ 0 < Rabs pxH <= 5.
Proof.
  unfold geotransformLooksGeographic. simpl.
  rewrite !andb_true_iff, !Rleb_true, !Rltb_true. tauto.
Qed.

(** C5. From the transform [(x0, pxW, _, y0, _, pxH)] and the inclusive crop
    rectangle the resolver computes the four extents as the specification
    writes them; the transform is geographic exactly when [|x0| <= 360],
    [|y0| <= 180] and both pixel sizes have absolute value in [(0, 5]]; the
    bounds are the min and max of the extents themselves when geographic and
    of the two corners taken through the inverse spherical Mercator with
    R = 6378137 otherwise. *)
Theorem geo_bounds_resolver (x0 pxW r2 y0 r4 pxH : R) (rest : list R) (crop : Crop) :
  let gt := x0 :: pxW :: r2 :: y0 :: r4 :: pxH :: rest in
  let mnX := x0 + IZR (minX crop) * pxW in
  let mxX := x0 + (IZR (maxX crop) + 1) * pxW in
  let mxY := y0 + IZR (minY crop) * pxH in
  let mnY := y0 + (IZR (maxY crop) + 1) * pxH in
  let lonOf := fun x => x / 6378137 * (180 / PI) in
  let latOf := fun y => (2 * atan (exp (y / 6378137)) - PI / 2) * (180 / PI) in
  (geotransformLooksGeographic gt = true <->
   Rabs x0 <= 360 /\ Rabs y0 <= 180 /\ 0 < Rabs pxW <= 5 /\ 0 < Rabs pxH <= 5)
  /\ (geotransformLooksGeographic gt = true ->
      boundsOfCrop gt crop
      = ((Rmin mnY mxY, Rmin mnX mxX), (Rmax mnY mxY, Rmax mnX mxX)))
  /\ (geotransformLooksGeographic gt = false ->
      boundsOfCrop gt crop
      = ((Rmin (latOf mnY) (latOf mxY), Rmin (lonOf mnX) (lonOf mxX)),
         (Rmax (latOf mnY) (latOf mxY), Rmax (lonOf mnX) (lonOf mxX)))).
Proof.
  cbv zeta. split; [apply geotransformLooksGeographic_iff |].
  unfold boundsOfCrop. split; intros ->; reflexivity.
Qed.

(** The transform of the specification's example, in degrees: origin
    (-5.5, 51.5), pixels of 0.05 by -0.05, and the crop of columns 10..109
    and rows 20..219. *)
Example geo_bounds_geographic_example :
  boundsOfCrop [-5.5; 0.05; 0; 51.5; 0; -0.05]
    {| minX := 10; minY := 20; maxX := 109; maxY := 219;
       fullWidth := 306; fullHeight := 210 |}
  = ((40.5, -5), (50.5, 0)).
Proof.
  assert (Hg : geotransformLooksGeographic [-5.5; 0.05; 0; 51.5; 0; -0.05] = true).
  { apply geotransformLooksGeographic_iff.
    repeat split; unfold Rabs; repeat destruct (Rcase_abs _); lra. }
  unfold boundsOfCrop. rewrite Hg. simpl.
  unfold Rmin, Rmax. repeat destruct (Rle_dec _ _); repeat f_equal; lra.
Qed.

(** A transform in metres is not geographic, and the origin of the Mercator
    plane is the origin of the sphere. *)
Example geo_bounds_projected_example :
  geotransformLooksGeographic [-612257; 2000; 0; 6710219; 0; -2000] = false
  /\ mercatorToLonLat 0 0 = (0, 0).
Proof.
  split.
  - destruct (geotransformLooksGeographic _) eqn:E; [| done].
    apply geotransformLooksGeographic_iff in E. destruct E as (E & _).
    unfold Rabs in E. destruct (Rcase_abs _); lra.
  - unfold mercatorToLonLat. f_equal.
    + lra.
    + replace (0 / 6378137) with 0 by lra. rewrite exp_0, atan_1. lra.
Qed.

End GeoFacts.

(** ** Conversion pipeline *)

Section PipelineFacts.

Variable cfg : Config.
Variable rt : Runtime.

Lemma attempted_app tr1 tr2 : attempted (tr1 ++ tr2) = attempted tr1 ++ attempted tr2.
Proof. unfold attempted. by rewrite map_app, concat_app. Qed.

Lemma attempted_snoc tr a : attempted (tr ++ [a]) = attempted tr ++ attemptedBy a.
Proof. rewrite attempted_app. unfold attempted. simpl. by rewrite app_nil_r. Qed.

Lemma quiet_ret {A} (a : A) : quiet (ret a).
Proof. done. Qed.

Lemma quiet_throw {A} e : quiet (@throw A e).
Proof. done. Qed.

Lemma quiet_bind {A B} (c : M A) (k : A -> M B) :
  quiet c -> (forall a, quiet (k a)) -> quiet (bind c k).
Proof.
  intros Hc Hk env. unfold bind. specialize (Hc env).
  destruct (c env) as [[a|e] env1]; simpl in *; [| done].
  by rewrite Hk.
Qed.

Lemma quiet_tryCatch {A} (c : M A) (h : JsError -> M A) :
  quiet c -> (forall e, quiet (h e)) -> quiet (tryCatch c h).
Proof.
  intros Hc Hh env. unfold tryCatch. specialize (Hc env).
  destruct (c env) as [[a|e] env1]; simpl in *; [done |].
  by rewrite Hh.
Qed.

Lemma quiet_unlink path : quiet (unlink path).
Proof.
  intros env. unfold unlink.
  destruct (fs env !! path); simpl; rewrite attempted_snoc; simpl; by rewrite app_nil_r.
Qed.

Lemma quiet_rename src dst : quiet (rename src dst).
Proof.
  intros env. unfold rename.
  destruct (fs env !! src); simpl; rewrite attempted_snoc; simpl; by rewrite app_nil_r.
Qed.

Lemma quiet_writeFile path f : quiet (writeFile rt path f).
Proof.
  intros env. unfold writeFile, writeEnd, writeBegin.
  destruct (writeFails rt path _); simpl;
    rewrite !attempted_snoc; simpl; by rewrite !app_nil_r.
Qed.

Lemma quiet_atomicReplaceFile tmp final : quiet (atomicReplaceFile tmp final).
Proof.
  unfold atomicReplaceFile. apply quiet_bind; [| intros; apply quiet_rename].
  apply quiet_tryCatch; [apply quiet_unlink | intros; apply quiet_ret].
Qed.

Lemma quiet_ensureNonEmptyFile path n label : quiet (ensureNonEmptyFile path n label).
Proof.
  intros env. unfold ensureNonEmptyFile.
  destruct (fs env !! path); [destruct (_ || _) |]; done.
Qed.

Lemma quiet_readPngWithRetry path : quiet (readPngWithRetry path).
Proof.
  intros env. unfold readPngWithRetry.
  destruct (fs env !! path) as [[p | n |]|]; try done. by destruct (n =? 0).
Qed.

Lemma quiet_makeDominantBorderColorTransparentAt path :
  quiet (makeDominantBorderColorTransparentAt cfg rt path).
Proof.
  unfold makeDominantBorderColorTransparentAt.
  apply quiet_bind; [apply quiet_readPngWithRetry |]. intros png.
  destruct (makeDominantBorderColorTransparent _ _);
    [apply quiet_writeFile | apply quiet_ret].
Qed.

Lemma quiet_cropPngToNonTransparentAt path : quiet (cropPngToNonTransparentAt cfg rt path).
Proof.
  unfold cropPngToNonTransparentAt.
  apply quiet_bind; [apply quiet_readPngWithRetry |]. intros png.
  destruct (cropPngToNonTransparent _ _) as [crop [out|]]; [| apply quiet_ret].
  apply quiet_bind; [apply quiet_writeFile | intros; apply quiet_ret].
Qed.

Lemma quiet_runCmd tool args : tool <> Wgrib2 -> quiet (runCmd rt tool args).
Proof.
  intros Ht env. unfold runCmd.
  destruct (runTool rt tool args _ _) as [res f]. simpl.
  rewrite attempted_snoc. destruct tool; try done; simpl; by rewrite app_nil_r.
Qed.

Lemma attempted_runCmd_wgrib2 args env :
  attempted (trace (snd (runCmd rt Wgrib2 args env)))
  = attempted (trace env) ++ [nth 2 args []].
Proof.
  unfold runCmd. destruct (runTool rt Wgrib2 args _ _) as [res f]. simpl.
  by rewrite attempted_snoc.
Qed.

#[local] Hint Resolve quiet_ret quiet_throw quiet_unlink quiet_rename quiet_writeFile
  quiet_atomicReplaceFile quiet_ensureNonEmptyFile quiet_readPngWithRetry
  quiet_makeDominantBorderColorTransparentAt quiet_cropPngToNonTransparentAt : core.

Lemma unlink_caught path env :
  exists env0,
    tryCatch (unlink path) (fun _ => ret tt) env = (Ok tt, env0)
    /\ attempted (trace env0) = attempted (trace env).
Proof.
  unfold tryCatch, unlink. destruct (fs env !! path); simpl; eexists; (split; [done |]);
    simpl; rewrite attempted_snoc; simpl; by rewrite app_nil_r.
Qed.

(** One attempt runs [wgrib2] once, with its candidate. *)
Lemma attempted_tryCandidate gribPath paths m env :
  attempted (trace (snd (tryCandidate cfg rt gribPath paths m env)))
  = attempted (trace env) ++ [m].
Proof.
  unfold tryCandidate.
  set (rest := bind (ensureNonEmptyFile _ _ _) _).
  assert (Hrest : quiet rest).
  { unfold rest. apply quiet_bind; [auto |]. intros _.
    apply quiet_bind; [by apply quiet_runCmd |]. intros _.
    apply quiet_bind; [by apply quiet_runCmd |]. intros _.
    apply quiet_bind; [auto |]. intros _.
    apply quiet_bind; [by apply quiet_runCmd |]. intros info.
    destruct (parseGeoTransform rt (fst info)) as [[gt|]|e]; auto.
    destruct (_ <? _)%nat; auto.
    apply quiet_bind; [auto |]. intros [crop|];
      (apply quiet_bind; [auto | intros; auto]). }
  unfold bind at 1.
  destruct (unlink_caught (capeNc paths) env) as (env0 & -> & H0).
  unfold bind at 1.
  pose proof (attempted_runCmd_wgrib2
                [gribPath; js "-match"; m; js "-netcdf"; capeNc paths] env0) as H1.
  destruct (runCmd rt Wgrib2 _ env0) as [[out|e] env1]; simpl in H1 |- *.
  - rewrite Hrest, H1, H0. done.
  - rewrite H1, H0. done.
Qed.

Lemma bind_ok_inv {A B} (c : M A) (k : A -> M B) env b env' :
  bind c k env = (Ok b, env') ->
  exists a env1, c env = (Ok a, env1) /\ k a env1 = (Ok b, env').
Proof.
  unfold bind. destruct (c env) as [[a|e] env1]; [eauto | discriminate].
Qed.

(** A successful attempt reports its own candidate. *)
Lemma tryCandidate_ok_matchExpr gribPath paths m env res env' :
  tryCandidate cfg rt gribPath paths m env = (Ok res, env') -> c_matchExpr res = m.
Proof.
  unfold tryCandidate. intros H.
  repeat (apply bind_ok_inv in H as (? & ? & _ & H)).
  destruct (parseGeoTransform rt _) as [[gt|]|e]; try discriminate.
  destruct (_ <? _)%nat; [discriminate |].
  apply bind_ok_inv in H as ([crop|] & ? & _ & H);
    apply bind_ok_inv in H as (? & ? & _ & H); by injection H as <- _.
Qed.

Lemma allFailed_snoc gribPath paths env pre lastErr env1 lastErr1 c e env2 :
  allFailed cfg rt gribPath paths env pre lastErr env1 lastErr1 ->
  tryCandidate cfg rt gribPath paths c env1 = (Throw e, env2) ->
  allFailed cfg rt gribPath paths env (pre ++ [c]) lastErr env2 (Some e).
Proof.
  induction 1 as [env lastErr | env c0 e0 env1 rest lastErr env' lastErr' Hc _ IH];
    intros Ht; simpl.
  - econstructor; [done | constructor].
  - econstructor; [done | by apply IH].
Qed.

(** The loop: either some candidate succeeded after all those before it
    threw, and nothing after it was tried, or all of them threw. *)
Lemma tryCandidates_spec gribPath paths cands lastErr env :
  match tryCandidates cfg rt gribPath paths cands lastErr env with
  | (inl res, env') =>
      exists pre post env1 lastErr1,
        cands = pre ++ c_matchExpr res :: post
        /\ allFailed cfg rt gribPath paths env pre lastErr env1 lastErr1
        /\ tryCandidate cfg rt gribPath paths (c_matchExpr res) env1 = (Ok res, env')
        /\ attempted (trace env') = attempted (trace env) ++ pre ++ [c_matchExpr res]
  | (inr lastErr', env') =>
      allFailed cfg rt gribPath paths env cands lastErr env' lastErr'
      /\ attempted (trace env') = attempted (trace env) ++ cands
  end.
Proof.
  revert lastErr env. induction cands as [|c rest IH]; intros lastErr env; simpl.
  - split; [constructor | by rewrite app_nil_r].
  - pose proof (attempted_tryCandidate gribPath paths c env) as Ha.
    destruct (tryCandidate cfg rt gribPath paths c env) as [[res|e] env1] eqn:Hc;
      simpl in Ha.
    + pose proof (tryCandidate_ok_matchExpr _ _ _ _ _ _ Hc) as Hm.
      exists [], rest, env, lastErr. rewrite Hm. repeat split; [constructor | done | done].
    + specialize (IH (Some e) env1).
      destruct (tryCandidates cfg rt gribPath paths rest (Some e) env1) as [[res|le] env'].
      * destruct IH as (pre & post & env2 & le1 & -> & Hf & Ht & Hat).
        exists (c :: pre), post, env2, le1.
        repeat split; [by econstructor | done |].
        rewrite Hat, Ha, <- !app_assoc. done.
      * destruct IH as [Hf Hat]. split; [by econstructor |].
        rewrite Hat, Ha, <- app_assoc. done.
Qed.

Lemma errorDetails_length e : (length (errorDetails e) <= 600)%nat.
Proof. unfold errorDetails, slice0. rewrite length_take. lia. Qed.

(** C4, as amended. The candidates are the list given, or the configured
    default list when that one is empty. If the palette file is absent the
    pipeline throws and does nothing else. Otherwise it tries the candidates
    in order: either one of them succeeds after all those before it threw,
    the result carries its bounds and that very expression, and no later
    candidate is tried; or all of them throw, and the single error lists
    every candidate and ends with the text of the last error, white space
    collapsed, cut to 600 code units. *)
Theorem conversion_pipeline_contract (gribPath : jsstring) (matchExprs : list jsstring)
  (paths : Paths) (env : Env) :
  let matches := effectiveMatches cfg matchExprs in
  let out := convertGribToPngViaPipeline cfg rt gribPath matchExprs paths env in
  (matchExprs <> [] -> matches = matchExprs)
  /\ (matchExprs = [] -> matches = GRIB_MATCHES cfg)
  /\ (existsSync (DATA_PALETTE cfg) env = false ->
      out = (Throw (newError (js "Palette manquante: " ++ DATA_PALETTE cfg)), env))
  /\ (existsSync (DATA_PALETTE cfg) env = true ->
      (exists pre m post b env1 lastErr1 env',
          matches = pre ++ m :: post
          /\ allFailed cfg rt gribPath paths env pre None env1 lastErr1
          /\ tryCandidate cfg rt gribPath paths m env1
             = (Ok {| c_bounds := b; c_matchExpr := m |}, env')
          /\ out = (Ok {| c_bounds := b; c_matchExpr := m |}, env')
          /\ attempted (trace env') = attempted (trace env) ++ pre ++ [m])
      \/ (exists lastErr env',
            allFailed cfg rt gribPath paths env matches None env' lastErr
            /\ out = (Throw (newError (noFieldMessage matches lastErr)), env')
            /\ attempted (trace env') = attempted (trace env) ++ matches
            /\ noFieldMessage matches lastErr
               = js "Aucun champ trouv" ++ [233%N] ++ js " via -match. Tent" ++ [233%N]
                 ++ js "s: " ++ join (js ", ") matches
                 ++ js ". Derni" ++ [232%N] ++ js "re erreur: "
                 ++ slice0 600 (collapseSpaces (errorText lastErr))
            /\ (length (slice0 600 (collapseSpaces (errorText lastErr))) <= 600)%nat)).
Proof.
  cbv zeta. split; [by destruct matchExprs |]. split; [by intros -> |].
  unfold convertGribToPngViaPipeline.
  split; [by intros -> |]. intros ->. simpl.
  pose proof (tryCandidates_spec gribPath paths (effectiveMatches cfg matchExprs) None env)
    as H.
  destruct (tryCandidates _ _ _ _ _ _ _) as [[res|lastErr] env'].
  - left. destruct H as (pre & post & env1 & le1 & Hm & Hf & Ht & Ha).
    destruct res as [b m]. simpl in *. exists pre, m, post, b, env1, le1, env'. done.
  - right. destruct H as [Hf Ha]. exists lastErr, env'.
    repeat split; try done. apply errorDetails_length.
Qed.

End PipelineFacts.

(** C4, as stated, fails on the empty list: every one of its (no) candidates
    fails, yet with the working toolchain the pipeline returns a result, for
    an expression of the configured default list, and with the failing one it
    runs the toolchain on the three default expressions. The text it quotes
    from the last error is not the error cut to 600 units either: white
    space is collapsed first. *)
Lemma conversion_pipeline_contract_counterexample :
  let paths := q_paths Scenario.rq08 in
  let grib := q_gribPath Scenario.rq08 in
  c_matchExpr <$> (match fst (convertGribToPngViaPipeline Scenario.cfg Scenario.workingTools
                                grib [] paths Scenario.freshEnv) with
                   | Ok res => Some res
                   | Throw _ => None
                   end) = Some (js ":RPRATE:")
  /\ attempted (trace (snd (convertGribToPngViaPipeline Scenario.cfg Scenario.failingTools
                             grib [] paths Scenario.freshEnv)))
     = [js ":RPRATE:"; js ":PRATE:"; js ":APCP:"]
  /\ errorDetails (Some Scenario.toolError) = js "no matching field"
  /\ slice0 600 (errorText (Some Scenario.toolError)) <> js "no matching field".
Proof.
  cbv zeta. repeat match goal with |- _ /\ _ => split end;
    try (vm_compute; reflexivity).
  vm_compute. discriminate.
Qed.

(** ** Orchestrator: the regeneration decision *)

Section DecisionFacts.

Variable cfg : Config.
Variable rt : Runtime.

Lemma truthy_iff mtime : truthy mtime = true <-> exists m, mtime = Some m /\ m <> 0.
Proof.
  destruct mtime as [m|]; simpl.
  - rewrite negb_true_iff, Z.eqb_neq. split; [eauto | by intros (? & [= <-] & ?)].
  - split; [done | by intros (? & ? & ?)].
Qed.

Lemma missingTools_nil h1 h2 h3 :
  missingTools h1 h2 h3 = [] <-> h1 = true /\ h2 = true /\ h3 = true.
Proof. destruct h1, h2, h3; simpl; split; try done; intros (? & ? & ?); done. Qed.

Lemma isWgrib2_false s : isWgrib2 s = false <-> s <> SrcWgrib2.
Proof. destruct s; simpl; split; done. Qed.

(** The entry as the decision reads it: the probe result is stored first. *)
Local Abbreviation probed c0 h1 h2 h3 :=
  (setPipelineAvailable (bool_decide (missingTools h1 h2 h3 = [])) c0).

Lemma regenerationWarranted_iff c0 now mtime prev h1 h2 h3 :
  regenerationWarranted cfg (probed c0 h1 h2 h3) now mtime prev = true <->
  (exists m, mtime = Some m /\ m <> 0)
  /\ (h1 = true /\ h2 = true /\ h3 = true)
  /\ (gribMtimeMs c0 <> mtime
      \/ (source c0 <> SrcWgrib2 /\ lastErrorAt c0 <> 0
          /\ RETRY_INTERVAL_MS cfg <= now - lastErrorAt c0)
      \/ prev = Some false).
Proof.
  unfold regenerationWarranted, shouldRetryAfterError, pipelineJustBecameAvailable.
  simpl. rewrite <- truthy_iff, <- missingTools_nil.
  destruct (truthy mtime); simpl; [| intuition discriminate].
  case_bool_decide as Ha.
  2:{ simpl. split; [done |]. intros (_ & Hm & _). rewrite bool_decide_true in Ha; done. }
  injection Ha as Ha. apply bool_decide_eq_true in Ha. simpl.
  rewrite !orb_true_iff, negb_true_iff, bool_decide_eq_false, !andb_true_iff.
  rewrite !negb_true_iff, isWgrib2_false, Z.eqb_neq, Z.leb_le, bool_decide_eq_true.
  tauto.
Qed.

Lemma afterProbes_promises tid rq now mtime prev h1 h2 h3 w :
  promises (afterProbes cfg rt tid rq now mtime prev h1 h2 h3 w) =
  if regenerationWarranted cfg (probed (entryOf rq w) h1 h2 h3) now mtime prev
  then match conversionsInFlight w !! q_key rq with
       | Some _ => promises w
       | None => promises w ++ [(rq, Pending)]
       end
  else promises w.
Proof.
  unfold afterProbes.
  destruct (regenerationWarranted _ _ _ _ _); simpl.
  - destruct (conversionsInFlight w !! q_key rq) as [pid|]; simpl; [| done].
    unfold awaitInflight; simpl.
    destruct (promises w !! pid) as [[? []]|]; done.
  - repeat (match goal with |- context [if ?b then _ else _] => destruct b end; simpl);
      done.
Qed.

(** C3, as amended. For a source file whose modification time is not zero
    (the tests of the code take a time of zero for a missing file), the
    request calls the conversion pipeline exactly when the modification time
    exists, the three probes found their executables, one of (a) the time
    differs from the cached one, (b) the source is not the toolchain, a
    failure is on record ([lastErrorAt] is not zero) and the backoff
    interval has elapsed since it, (c) the last recorded probe said
    unavailable, holds, and no conversion is in flight for the key;
    otherwise it calls none. So after a failure at time [t], with the same
    modification time and the toolchain still available, a request within
    the interval starts no conversion and a request after it starts exactly
    one. *)
Theorem regeneration_decision (tid : nat) (rq : Request) (now : Z) (mtime : option Z)
  (prev : option bool) (h1 h2 h3 : bool) (w : World) :
  mtime <> Some 0 ->
  let w' := afterProbes cfg rt tid rq now mtime prev h1 h2 h3 w in
  let cache := entryOf rq w in
  let warranted :=
    is_Some mtime
    /\ (h1 = true /\ h2 = true /\ h3 = true)
    /\ (gribMtimeMs cache <> mtime
        \/ (source cache <> SrcWgrib2 /\ lastErrorAt cache <> 0
            /\ RETRY_INTERVAL_MS cfg <= now - lastErrorAt cache)
        \/ prev = Some false) in
  (promises w' = promises w ++ [(rq, Pending)] <->
   warranted /\ conversionsInFlight w !! q_key rq = None)
  /\ (promises w' = promises w <->
      ~ (warranted /\ conversionsInFlight w !! q_key rq = None))
  /\ (forall e t c,
        cache = onFailure e mtime t c -> t <> 0 ->
        is_Some mtime ->
        h1 = true /\ h2 = true /\ h3 = true ->
        prev <> Some false ->
        (now - t < RETRY_INTERVAL_MS cfg -> promises w' = promises w)
        /\ (RETRY_INTERVAL_MS cfg <= now - t ->
            conversionsInFlight w !! q_key rq = None ->
            promises w' = promises w ++ [(rq, Pending)])).
Proof.
  intros Hm0. cbv zeta. rewrite afterProbes_promises.
  pose proof (regenerationWarranted_iff (entryOf rq w) now mtime prev h1 h2 h3) as Hw.
  assert (Hsome : (exists m, mtime = Some m /\ m <> 0) <-> is_Some mtime).
  { split; [intros (m & -> & _); by eexists |].
    intros [m ->]. exists m. split; [done |]. by intros ->. }
  rewrite Hsome in Hw. clear Hsome.
  assert (Hne : promises w ++ [(rq, Pending)] <> promises w).
  { intros Heq. apply (f_equal length) in Heq. rewrite length_app in Heq.
    simpl in Heq. lia. }
  split; [| split].
  - destruct (regenerationWarranted _ _ _ _ _).
    + destruct (conversionsInFlight w !! q_key rq) eqn:Hf.
      * split; [intros Heq; by symmetry in Heq | intros [_ ?]; done].
      * split; [intros _; split; [by apply Hw | done] | done].
    + split; [intros Heq; by symmetry in Heq |].
      intros [Hc _]. apply Hw in Hc. discriminate.
  - destruct (regenerationWarranted _ _ _ _ _).
    + destruct (conversionsInFlight w !! q_key rq) eqn:Hf.
      * split; [intros _ [_ ?]; done | done].
      * split; [done |]. intros Hn. exfalso. apply Hn. split; [by apply Hw | done].
    + split; [| done]. intros _ [Hc _]. apply Hw in Hc. discriminate.
  - intros e t c Hc Ht Hm Hh Hp. rewrite Hc in Hw |- *. simpl in Hw. split.
    + intros Hlt.
      destruct (regenerationWarranted _ _ _ _ _); [| done].
      destruct Hw as [Hw _]. destruct (Hw eq_refl) as (_ & _ & [? | [(_ & _ & ?) | ?]]);
        [done | lia | done].
    + intros Hge Hf. rewrite Hf.
      destruct (regenerationWarranted _ _ _ _ _); [done |].
      destruct Hw as [_ Hw]. exfalso.
      assert (false = true); [| done].
      apply Hw. repeat split; try tauto. right. left. repeat split; [done | done | lia].
Qed.

End DecisionFacts.

(** C3, as stated, fails. After the three requests of [stuckBefore] the
    entry is synthetic with no failure on record, the cached modification
    time is the file's and the last probe said available: the rule of the
    specification asks for a conversion (the source is not the toolchain and
    far more than the backoff interval has elapsed since [lastErrorAt], which
    is 0), the code starts none. *)
Lemma regeneration_decision_counterexample :
  let w := Scenario.worldAfter Scenario.failingTools Scenario.stuckBefore in
  tasks w !! 2%nat
    = Some (Scenario.rq08, AwaitHasGdaldem 1101000 (Some 5000) (Some true) true true)
  /\ specRegenerationWarranted 15000 (entryOf Scenario.rq08 w) 1101000 (Some 5000)
       true (Some true) = true
  /\ conversionsInFlight w !! q_key Scenario.rq08 = None
  /\ (promises <$> step Scenario.cfg Scenario.failingTools w (EvHasCmd 2 true)) = Some [].
Proof. vm_compute. repeat split; reflexivity. Qed.

Lemma regeneration_decision_witness :
  let w := Scenario.worldAfter Scenario.failingTools Scenario.stuckBefore in
  promises (afterProbes Scenario.cfg Scenario.failingTools 2 Scenario.rq08 1101000
              (Some 5000) (Some true) true true true w)
  = promises w.
Proof.
  cbv zeta.
  apply (proj1 (proj2 (regeneration_decision Scenario.cfg Scenario.failingTools 2
                         Scenario.rq08 1101000 (Some 5000) (Some true) true true true
                         (Scenario.worldAfter Scenario.failingTools Scenario.stuckBefore)
                         ltac:(discriminate)))).
  intros [(_ & _ & [H | [(_ & H & _) | H]]) _].
  - vm_compute in H. by apply H.
  - vm_compute in H. by apply H.
  - discriminate.
Defined.

(** ** Orchestrator: synthetic entries keep the default bounds *)

Section BoundsInvariant.

Variable cfg : Config.
Variable rt : Runtime.

Lemma cachesDefault_frame w w' :
  caches w' = caches w -> cachesDefault w -> cachesDefault w'.
Proof. unfold cachesDefault. intros ->. done. Qed.

Lemma cachesDefault_entryOf rq w : cachesDefault w -> syntheticDefault (entryOf rq w).
Proof.
  intros H. unfold entryOf.
  destruct (caches w !! cacheKey (q_key rq)) eqn:E; simpl; [by eapply H | done].
Qed.

Lemma cachesDefault_setEntry rq e w :
  cachesDefault w -> syntheticDefault e -> cachesDefault (setEntry rq e w).
Proof.
  intros H He k e'. unfold setEntry. simpl.
  destruct (decide (cacheKey (q_key rq) = k)) as [<- | Hne].
  - rewrite lookup_insert_eq. by intros [= <-].
  - rewrite lookup_insert_ne by done. apply H.
Qed.

Lemma cachesDefault_setTask tid rq t w :
  cachesDefault w -> cachesDefault (setTask tid rq t w).
Proof. by apply cachesDefault_frame. Qed.

Lemma cachesDefault_setTasks t w : cachesDefault w -> cachesDefault (setTasks t w).
Proof. by apply cachesDefault_frame. Qed.

Lemma cachesDefault_setEnv e w : cachesDefault w -> cachesDefault (setEnv e w).
Proof. by apply cachesDefault_frame. Qed.

Lemma cachesDefault_setInFlight m w : cachesDefault w -> cachesDefault (setInFlight m w).
Proof. by apply cachesDefault_frame. Qed.

Lemma cachesDefault_setPromises p w : cachesDefault w -> cachesDefault (setPromises p w).
Proof. by apply cachesDefault_frame. Qed.

Lemma cachesDefault_setClock c w : cachesDefault w -> cachesDefault (setClock c w).
Proof. by apply cachesDefault_frame. Qed.

Lemma syntheticDefault_setPipelineAvailable b e :
  syntheticDefault e -> syntheticDefault (setPipelineAvailable b e).
Proof. done. Qed.

Lemma syntheticDefault_onSuccess rq res mtime now e :
  syntheticDefault (onSuccess rq res mtime now e).
Proof. done. Qed.

Lemma syntheticDefault_onFailure err mtime now e :
  syntheticDefault (onFailure err mtime now e).
Proof. done. Qed.

Lemma syntheticDefault_onMissingSource rq now e :
  syntheticDefault (onMissingSource rq now e).
Proof. done. Qed.

Lemma syntheticDefault_onToolsMissing missing mtime now e :
  syntheticDefault (onToolsMissing missing mtime now e).
Proof. done. Qed.

Create HintDb bounds_inv.
#[local] Hint Resolve cachesDefault_setTask cachesDefault_setTasks cachesDefault_setEnv
  cachesDefault_setInFlight cachesDefault_setPromises cachesDefault_setClock
  cachesDefault_setEntry cachesDefault_entryOf syntheticDefault_setPipelineAvailable
  syntheticDefault_onSuccess syntheticDefault_onFailure syntheticDefault_onMissingSource
  syntheticDefault_onToolsMissing : bounds_inv.

Lemma cachesDefault_startRequest rq w :
  cachesDefault w -> cachesDefault (startRequest rq w).
Proof.
  intros H. unfold startRequest, getCacheForKey.
  apply cachesDefault_setTasks.
  destruct (caches w !! cacheKey (q_key rq)) eqn:E; intros k e; cbn [caches setCaches fst].
  - apply H.
  - destruct (decide (cacheKey (q_key rq) = k)) as [<- | Hne].
    + rewrite lookup_insert_eq. by intros [= <-].
    + rewrite lookup_insert_ne by done. apply H.
Qed.

Lemma cachesDefault_awaitInflight tid rq pid w :
  cachesDefault w -> cachesDefault (awaitInflight tid rq pid w).
Proof.
  intros H. unfold awaitInflight.
  destruct (promises w !! pid) as [[? []]|]; auto with bounds_inv.
Qed.

Lemma cachesDefault_afterProbes tid rq now mtime prev h1 h2 h3 w :
  cachesDefault w -> cachesDefault (afterProbes cfg rt tid rq now mtime prev h1 h2 h3 w).
Proof.
  intros H. unfold afterProbes.
  destruct (regenerationWarranted _ _ _ _ _).
  - destruct (conversionsInFlight _ !! _).
    + apply cachesDefault_awaitInflight. auto with bounds_inv.
    + auto 8 with bounds_inv.
  - repeat (destruct (_ && _)); auto 8 with bounds_inv.
Qed.

Lemma cachesDefault_resumeInitiator tid rq pid mtime res w :
  cachesDefault w -> cachesDefault (resumeInitiator rt tid rq pid mtime res w).
Proof. intros H. destruct res; simpl; auto 8 with bounds_inv. Qed.

Lemma cachesDefault_resumeWaiter tid rq res w :
  cachesDefault w -> cachesDefault (resumeWaiter tid rq res w).
Proof. intros H. destruct res; simpl; auto with bounds_inv. Qed.

Lemma cachesDefault_settle pid w w' :
  settle cfg rt pid w = Some w' -> cachesDefault w -> cachesDefault w'.
Proof.
  unfold settle. destruct (promises w !! pid) as [[rq []]|]; try discriminate.
  destruct (convertGribToPngViaPipeline _ _ _ _ _ _) as [res env'].
  intros [= <-] H. unfold resumeWaiters, resumeInitiators.
  apply fold_left_preserves.
  { intros a tid Ha. destruct (tasks a !! tid) as [[? []]|]; try done.
    destruct (_ =? _)%nat; [by apply cachesDefault_resumeWaiter | done]. }
  apply fold_left_preserves.
  { intros a tid Ha. destruct (tasks a !! tid) as [[? []]|]; try done.
    destruct (_ =? _)%nat; [by apply cachesDefault_resumeInitiator | done]. }
  auto with bounds_inv.
Qed.

Lemma cachesDefault_ioDone tid w w' :
  ioDone rt tid w = Some w' -> cachesDefault w -> cachesDefault w'.
Proof.
  unfold ioDone. destruct (tasks w !! tid) as [[rq []]|]; try discriminate.
  - destruct (writeFails rt _ _); intros [= <-]; auto with bounds_inv.
  - intros [= <-]. auto with bounds_inv.
  - destruct (rename _ _ _) as [[] env']; intros [= <-]; auto with bounds_inv.
  - destruct (writeFails rt _ _); intros [= <-]; auto with bounds_inv.
Qed.

Lemma cachesDefault_step w ev w' :
  step cfg rt w ev = Some w' -> cachesDefault w -> cachesDefault w'.
Proof.
  destruct ev as [rq | tid mtime | tid found | pid | tid | dt]; simpl.
  - intros [= <-]. apply cachesDefault_startRequest.
  - destruct (tasks w !! tid) as [[rq []]|]; try discriminate.
    intros [= <-]. auto with bounds_inv.
  - destruct (tasks w !! tid) as [[rq []]|]; try discriminate; intros [= <-].
    + auto with bounds_inv.
    + auto with bounds_inv.
    + apply cachesDefault_afterProbes.
  - apply cachesDefault_settle.
  - apply cachesDefault_ioDone.
  - destruct (0 <=? dt); [| discriminate]. intros [= <-]. auto with bounds_inv.
Qed.

Lemma cachesDefault_run evs w w' :
  run cfg rt w evs = Some w' -> cachesDefault w -> cachesDefault w'.
Proof.
  revert w. induction evs as [|ev evs IH]; simpl; intros w.
  - by intros [= <-].
  - destruct (step cfg rt w ev) eqn:E; [| discriminate].
    intros Hr Hw. eapply IH; [done |]. by eapply cachesDefault_step.
Qed.

End BoundsInvariant.


(** ** Orchestrator: the two defects the specification rules out *)

(** C1, at the failing input: two callers for one key, the conversion fails.
    The caller that started it degrades to the synthetic placeholder and
    returns the entry it updated; the caller that awaited the promise gets
    the rejection thrown out of [ensureOverlayUpToDate] and reads no entry.
    One promise was created, and the registration is gone at the end. When
    the conversion succeeds both return the same [updatedAt]. *)
Theorem waiter_receives_the_rejection :
  let failed := Scenario.worldAfter Scenario.failingTools Scenario.twoCallersDone in
  let succeeded := Scenario.worldAfter Scenario.workingTools Scenario.twoCallers in
  (exists seen, tasks failed !! 0%nat = Some (Scenario.rq08, Returned seen)
                /\ updatedAt seen = 1000000 /\ source seen = SrcSynthetic)
  /\ (exists e, tasks failed !! 1%nat = Some (Scenario.rq08, Threw e))
  /\ length (promises failed) = 1%nat
  /\ conversionsInFlight failed = ∅
  /\ (exists seen0 seen1,
        tasks succeeded !! 0%nat = Some (Scenario.rq08, Returned seen0)
        /\ tasks succeeded !! 1%nat = Some (Scenario.rq08, Returned seen1)
        /\ updatedAt seen0 = updatedAt seen1 /\ source seen0 = SrcWgrib2)
  /\ length (promises succeeded) = 1%nat.
Proof.
  cbv zeta. repeat match goal with |- _ /\ _ => split end.
  - eexists. vm_compute. repeat split; reflexivity.
  - eexists. vm_compute. reflexivity.
  - vm_compute. reflexivity.
  - vm_compute. reflexivity.
  - eexists. eexists. vm_compute. repeat split; reflexivity.
  - vm_compute. reflexivity.
Qed.

(** C2, at the failing input: when the source file is missing, and when a
    tool is missing, the placeholder is written straight to the final path,
    which holds a partial file until the write completes. The fallback after
    a failed conversion goes through the temporary path. *)
Theorem synthetic_fallback_writes_in_place :
  let final := overlayPng (q_paths Scenario.rq08) in
  let tmp := overlayTmpPng (q_paths Scenario.rq08) in
  let missing := Scenario.worldAfter Scenario.failingTools Scenario.sourceMissing in
  let noTool := Scenario.worldAfter Scenario.failingTools Scenario.toolMissing in
  let failed := Scenario.worldAfter Scenario.failingTools Scenario.twoCallersDone in
  fs (env missing) !! final = Some PartialFile
  /\ trace (env missing) = [ActWriteBegin final]
  /\ fs (env noTool) !! final = Some PartialFile
  /\ trace (env noTool) = [ActWriteBegin final]
  /\ drop 6 (trace (env failed))
     = [ActWriteBegin tmp; ActWriteEnd tmp; ActUnlink final; ActRename tmp final].
Proof. cbv zeta. repeat match goal with |- _ /\ _ => split end; vm_compute; reflexivity. Qed.

(** ** Orchestrator: the in-flight registry *)

Section SingleFlightFacts.

Variable cfg : Config.
Variable rt : Runtime.

Lemma singleFlight_initial t0 e : singleFlight (initialWorld t0 e).
Proof.
  constructor; simpl.
  - intros key pid H. by rewrite lookup_empty in H.
  - intros pid rq H. by rewrite lookup_nil in H.
  - intros tid rq t pid H. by rewrite lookup_nil in H.
  - intros tid1 tid2 rq1 rq2 t1 t2 pid H. by rewrite lookup_nil in H.
  - intros tid rq pid H. by rewrite lookup_nil in H.
Qed.

(** Only the registry, the promises and the tasks matter. *)
Lemma singleFlight_frame w w' :
  conversionsInFlight w' = conversionsInFlight w ->
  promises w' = promises w ->
  tasks w' = tasks w ->
  singleFlight w -> singleFlight w'.
Proof.
  intros E1 E2 E3 [Hreg Hpend Hown Huniq Hwait].
  constructor; rewrite ?E1, ?E2, ?E3; done.
Qed.

(** A call that holds no promise moves to a state where it holds none and
    awaits none. *)
Lemma singleFlight_setTask_plain tid rq0 t0 rq t w :
  singleFlight w ->
  tasks w !! tid = Some (rq0, t0) -> owned t0 = None ->
  owned t = None -> (forall pid, t <> AwaitInflight pid) ->
  singleFlight (setTask tid rq t w).
Proof.
  intros [Hreg Hpend Hown Huniq Hwait] Hold Ho0 Ho Hnw.
  assert (Hlt : (tid < length (tasks w))%nat) by (by eapply lookup_lt_Some).
  constructor; simpl.
  - done.
  - intros pid rq' Hp. destruct (Hpend pid rq' Hp) as [Hf (tid' & mt & Ht)].
    split; [done |]. exists tid', mt.
    rewrite list_lookup_insert_ne; [done |]. intros Heq. subst tid'.
    rewrite Hold in Ht. injection Ht as E1 E2. subst t0. done.
  - intros tid1 rq1 t1 pid Ht Hx.
    destruct (decide (tid = tid1)) as [<- | Hne].
    + rewrite list_lookup_insert_eq in Ht by done. injection Ht as <- <-. congruence.
    + rewrite list_lookup_insert_ne in Ht by done. by eapply Hown.
  - intros tid1 tid2 rq1 rq2 t1 t2 pid H1 H2 Hx1 Hx2.
    destruct (decide (tid = tid1)) as [<- | Hne1].
    { rewrite list_lookup_insert_eq in H1 by done. injection H1 as <- <-. congruence. }
    destruct (decide (tid = tid2)) as [<- | Hne2].
    { rewrite list_lookup_insert_eq in H2 by done. injection H2 as <- <-. congruence. }
    rewrite list_lookup_insert_ne in H1, H2 by done. by eapply Huniq.
  - intros tid1 rq1 pid Ht.
    destruct (decide (tid = tid1)) as [<- | Hne].
    + rewrite list_lookup_insert_eq in Ht by done. injection Ht as _ E.
      by destruct (Hnw pid).
    + rewrite list_lookup_insert_ne in Ht by done. by eapply Hwait.
Qed.

(** A call that holds no promise starts awaiting a pending promise for its
    key. *)
Lemma singleFlight_setTask_waiter tid rq0 t0 rq pid rq' w :
  singleFlight w ->
  tasks w !! tid = Some (rq0, t0) -> owned t0 = None ->
  promises w !! pid = Some (rq', Pending) -> q_key rq' = q_key rq ->
  singleFlight (setTask tid rq (AwaitInflight pid) w).
Proof.
  intros [Hreg Hpend Hown Huniq Hwait] Hold Ho0 Hp Hk.
  assert (Hlt : (tid < length (tasks w))%nat) by (by eapply lookup_lt_Some).
  constructor; simpl.
  - done.
  - intros pid1 rq1 Hp1. destruct (Hpend pid1 rq1 Hp1) as [Hf (tid' & mt & Ht)].
    split; [done |]. exists tid', mt.
    rewrite list_lookup_insert_ne; [done |]. intros Heq. subst tid'.
    rewrite Hold in Ht. injection Ht as E1 E2. subst t0. done.
  - intros tid1 rq1 t1 pid1 Ht Hx.
    destruct (decide (tid = tid1)) as [<- | Hne].
    + rewrite list_lookup_insert_eq in Ht by done. injection Ht as <- <-. done.
    + rewrite list_lookup_insert_ne in Ht by done. by eapply Hown.
  - intros tid1 tid2 rq1 rq2 t1 t2 pid1 H1 H2 Hx1 Hx2.
    destruct (decide (tid = tid1)) as [<- | Hne1].
    { rewrite list_lookup_insert_eq in H1 by done. injection H1 as <- <-. done. }
    destruct (decide (tid = tid2)) as [<- | Hne2].
    { rewrite list_lookup_insert_eq in H2 by done. injection H2 as <- <-. done. }
    rewrite list_lookup_insert_ne in H1, H2 by done. by eapply Huniq.
  - intros tid1 rq1 pid1 Ht.
    destruct (decide (tid = tid1)) as [<- | Hne].
    + rewrite list_lookup_insert_eq in Ht by done. injection Ht as <- <-. eauto.
    + rewrite list_lookup_insert_ne in Ht by done. by eapply Hwait.
Qed.

Lemma singleFlight_startRequest rq w :
  singleFlight w -> singleFlight (startRequest rq w).
Proof.
  intros [Hreg Hpend Hown Huniq Hwait]. unfold startRequest.
  assert (Hnew : forall tid rq1 t1,
            (tasks w ++ [(rq, AwaitMtime (clock w))]) !! tid = Some (rq1, t1) ->
            tasks w !! tid = Some (rq1, t1) \/ t1 = AwaitMtime (clock w)).
  { intros tid rq1 t1 H. apply lookup_app_Some in H as [H | [_ H]]; [by left |].
    right. apply list_lookup_singleton_Some in H as [_ [= <- <-]]. done. }
  constructor; simpl.
  - done.
  - intros pid rq' Hp. destruct (Hpend pid rq' Hp) as [Hf (tid' & mt & Ht)].
    split; [done |]. exists tid', mt. by apply lookup_app_l_Some.
  - intros tid1 rq1 t1 pid Ht Hx.
    destruct (Hnew _ _ _ Ht) as [H | ->]; [by eapply Hown | done].
  - intros tid1 tid2 rq1 rq2 t1 t2 pid H1 H2 Hx1 Hx2.
    destruct (Hnew _ _ _ H1) as [H1' | ->]; [| done].
    destruct (Hnew _ _ _ H2) as [H2' | ->]; [| done]. by eapply Huniq.
  - intros tid1 rq1 pid Ht.
    destruct (Hnew _ _ _ Ht) as [H | [=]]. by eapply Hwait.
Qed.

(** The call registers a new promise: no promise was registered for its
    key. *)
Lemma singleFlight_register tid rq t0 mtime w :
  singleFlight w ->
  tasks w !! tid = Some (rq, t0) -> owned t0 = None ->
  conversionsInFlight w !! q_key rq = None ->
  singleFlight
    (setTask tid rq (AwaitConversion (length (promises w)) mtime)
       (setInFlight (<[q_key rq := length (promises w)]> (conversionsInFlight w))
          (setPromises (promises w ++ [(rq, Pending)]) w))).
Proof.
  intros [Hreg Hpend Hown Huniq Hwait] Hold Ho0 Hfree.
  assert (Hlt : (tid < length (tasks w))%nat) by (by eapply lookup_lt_Some).
  assert (Hnewp : (promises w ++ [(rq, Pending)]) !! length (promises w)
                  = Some (rq, Pending)).
  { rewrite lookup_app_r by done. by rewrite Nat.sub_diag. }
  assert (Holdp : forall pid x, promises w !! pid = Some x ->
                    (promises w ++ [(rq, Pending)]) !! pid = Some x).
  { intros pid x H. by apply lookup_app_l_Some. }
  assert (Hinv : forall pid rq1 st,
            (promises w ++ [(rq, Pending)]) !! pid = Some (rq1, st) ->
            promises w !! pid = Some (rq1, st)
            \/ (pid = length (promises w) /\ rq1 = rq /\ st = Pending)).
  { intros pid rq1 st H. apply lookup_app_Some in H as [H | [Hge H]]; [by left |].
    right. apply list_lookup_singleton_Some in H as [Hz [= <- <-]].
    split; [lia | done]. }
  constructor; simpl.
  - intros key pid Hk. destruct (decide (q_key rq = key)) as [<- | Hne].
    + rewrite lookup_insert_eq in Hk. injection Hk as <-.
      exists rq, Pending. split; [done |]. split; done.
    + rewrite lookup_insert_ne in Hk by done.
      destruct (Hreg key pid Hk) as (rq1 & st & Hp & Hkey & Hnf).
      exists rq1, st. split; [by apply Holdp | done].
  - intros pid rq1 Hp. destruct (Hinv _ _ _ Hp) as [Hp' | (-> & -> & _)].
    + destruct (Hpend pid rq1 Hp') as [Hf (tid' & mt & Ht)].
      split.
      * rewrite lookup_insert_ne; [done |]. intros Heq. rewrite Heq in Hfree. congruence.
      * exists tid', mt. rewrite list_lookup_insert_ne; [done |].
        intros Heq. subst tid'. rewrite Hold in Ht. injection Ht as E1 E2.
        subst t0. done.
    + split; [apply lookup_insert_eq |].
      exists tid, mtime. by apply list_lookup_insert_eq.
  - intros tid1 rq1 t1 pid Ht Hx.
    destruct (decide (tid = tid1)) as [<- | Hne].
    + rewrite list_lookup_insert_eq in Ht by done. injection Ht as <- <-.
      injection Hx as <-. split; [apply lookup_insert_eq |]. by exists Pending.
    + rewrite list_lookup_insert_ne in Ht by done.
      destruct (Hown _ _ _ _ Ht Hx) as [Hf (st & Hp & Hst)]. split.
      * rewrite lookup_insert_ne; [done |]. intros Heq. rewrite Heq in Hfree. congruence.
      * exists st. split; [by apply Holdp | done].
  - intros tid1 tid2 rq1 rq2 t1 t2 pid H1 H2 Hx1 Hx2.
    assert (Hfresh : forall tid' rq' t', tid <> tid' ->
              tasks w !! tid' = Some (rq', t') ->
              owned t' = Some (length (promises w)) -> False).
    { intros tid' rq' t' _ Ht Hx. destruct (Hown _ _ _ _ Ht Hx) as [_ (st & Hp & _)].
      apply lookup_lt_Some in Hp. lia. }
    destruct (decide (tid = tid1)) as [<- | Hne1];
      destruct (decide (tid = tid2)) as [<- | Hne2]; try done.
    + rewrite list_lookup_insert_eq in H1 by done. injection H1 as <- <-.
      rewrite list_lookup_insert_ne in H2 by done. injection Hx1 as <-.
      by destruct (Hfresh _ _ _ Hne2 H2 Hx2).
    + rewrite list_lookup_insert_eq in H2 by done. injection H2 as <- <-.
      rewrite list_lookup_insert_ne in H1 by done. injection Hx2 as <-.
      by destruct (Hfresh _ _ _ Hne1 H1 Hx1).
    + rewrite list_lookup_insert_ne in H1, H2 by done. by eapply Huniq.
  - intros tid1 rq1 pid Ht.
    destruct (decide (tid = tid1)) as [<- | Hne].
    + rewrite list_lookup_insert_eq in Ht by done. by injection Ht.
    + rewrite list_lookup_insert_ne in Ht by done.
      destruct (Hwait _ _ _ Ht) as (rq' & Hp & Hk). exists rq'. split; [by apply Holdp | done].
Qed.

Lemma singleFlight_awaitInflight tid rq t0 pid w :
  singleFlight w ->
  tasks w !! tid = Some (rq, t0) -> owned t0 = None ->
  conversionsInFlight w !! q_key rq = Some pid ->
  singleFlight (awaitInflight tid rq pid w).
Proof.
  intros Hsf Hold Ho0 Hf. unfold awaitInflight.
  destruct (sf_registered w Hsf _ _ Hf) as (rq' & st & Hp & Hk & Hnf).
  rewrite Hp. destruct st as [|r|e].
  - by eapply singleFlight_setTask_waiter.
  - by eapply singleFlight_setTask_plain.
  - by eapply singleFlight_setTask_plain.
Qed.

Lemma singleFlight_setEntry rq e w : singleFlight w -> singleFlight (setEntry rq e w).
Proof. by apply singleFlight_frame. Qed.

Lemma singleFlight_setEnv e w : singleFlight w -> singleFlight (setEnv e w).
Proof. by apply singleFlight_frame. Qed.

Lemma singleFlight_afterProbes tid rq t0 now mtime prev h1 h2 h3 w :
  singleFlight w ->
  tasks w !! tid = Some (rq, t0) -> owned t0 = None ->
  singleFlight (afterProbes cfg rt tid rq now mtime prev h1 h2 h3 w).
Proof.
  intros Hsf Hold Ho0. unfold afterProbes.
  set (cache := setPipelineAvailable _ _).
  pose proof (singleFlight_setEntry rq cache w Hsf) as Hsf1.
  destruct (regenerationWarranted _ _ _ _ _).
  - destruct (conversionsInFlight (setEntry rq cache w) !! q_key rq) as [pid|] eqn:Hf.
    + by eapply singleFlight_awaitInflight.
    + by apply (singleFlight_register tid rq t0 mtime (setEntry rq cache w)).
  - destruct (_ && _).
    + eapply singleFlight_setTask_plain; [| exact Hold | done..].
      by apply singleFlight_setEnv, singleFlight_setEntry.
    + destruct (_ && _).
      * eapply singleFlight_setTask_plain; [| exact Hold | done..].
        by apply singleFlight_setEnv, singleFlight_setEntry.
      * by eapply singleFlight_setTask_plain.
Qed.

(** *** The reactions to a settled promise *)

(** The waiters: every call that awaited the promise is resumed, with the
    entry as the world has it, and nothing else changes. *)
Lemma resumeWaiters_prefix pid res w (n : nat) :
  (n <= length (tasks w))%nat ->
  let w' := fold_left
              (fun w tid =>
                 match tasks w !! tid with
                 | Some (rq, AwaitInflight pid') =>
                     if (pid' =? pid)%nat then resumeWaiter tid rq res w else w
                 | _ => w
                 end) (seq 0 n) w in
  caches w' = caches w /\ conversionsInFlight w' = conversionsInFlight w
  /\ promises w' = promises w /\ clock w' = clock w /\ env w' = env w
  /\ length (tasks w') = length (tasks w)
  /\ forall tid,
       tasks w' !! tid
       = if (tid <? n)%nat then resumedWaiter pid res w <$> tasks w !! tid
         else tasks w !! tid.
Proof.
  cbv zeta. induction n as [|n IH]; intros Hn.
  - simpl. split_and!; try done.
  - rewrite seq_S, fold_left_app. simpl.
    destruct IH as (Ec & Ef & Ep & Ek & Ee & El & Et); [lia |].
    set (wn := fold_left _ (seq 0 n) w) in *.
    assert (Hcur : tasks wn !! n = tasks w !! n).
    { rewrite Et. destruct (Nat.ltb_spec n n); [lia | done]. }
    assert (Hkeep : forall tid,
              tasks wn !! tid
              = (if (tid <? n)%nat then resumedWaiter pid res w <$> tasks w !! tid
                 else tasks w !! tid) ->
              resumedWaiter pid res w <$> tasks w !! n = tasks w !! n ->
              tasks wn !! tid
              = if (tid <? S n)%nat then resumedWaiter pid res w <$> tasks w !! tid
                else tasks w !! tid).
    { intros tid E Hsame. rewrite E.
      destruct (Nat.ltb_spec tid n), (Nat.ltb_spec tid (S n)); try done; try lia.
      assert (tid = n) as -> by lia. done. }
    destruct (tasks wn !! n) as [[rq t]|] eqn:Hn'.
    2:{ split_and!; try done. intros tid. apply Hkeep; [done |]. by rewrite <- Hcur. }
    assert (Hplain : (forall pid', t <> AwaitInflight pid' \/ pid' <> pid) ->
              resumedWaiter pid res w <$> tasks w !! n = tasks w !! n).
    { intros Hp. rewrite <- Hcur. simpl. f_equal. unfold resumedWaiter.
      destruct t; try done. destruct (Nat.eqb_spec pid0 pid); [| done].
      by destruct (Hp pid0). }
    destruct t; try (split_and!; try done; intros tid; apply Hkeep; [done |];
                     apply Hplain; intros; by left).
    destruct (Nat.eqb_spec pid0 pid) as [-> | Hne].
    2:{ split_and!; try done. intros tid. apply Hkeep; [done |].
        apply Hplain. intros pid'. destruct (decide (pid' = pid)); [| by right].
        left. congruence. }
    assert (Hout : resumeWaiter n rq res wn
                   = setTask n rq (waiterOutcome rq res w) wn).
    { unfold resumeWaiter, waiterOutcome, entryOf. rewrite Ec. by destruct res. }
    rewrite Hout. simpl. split_and!; try done.
    { by rewrite length_insert. }
    intros tid. destruct (decide (tid = n)) as [-> | Hne].
    + rewrite list_lookup_insert_eq by (apply lookup_lt_Some in Hn'; lia).
      destruct (Nat.ltb_spec n (S n)); [| lia].
      rewrite <- Hcur. simpl. by rewrite Nat.eqb_refl.
    + rewrite list_lookup_insert_ne by done. rewrite Et.
      destruct (Nat.ltb_spec tid n), (Nat.ltb_spec tid (S n)); try done; lia.
Qed.

Lemma resumeWaiters_spec pid res w :
  let w' := resumeWaiters pid res w in
  caches w' = caches w /\ conversionsInFlight w' = conversionsInFlight w
  /\ promises w' = promises w /\ clock w' = clock w /\ env w' = env w
  /\ forall tid, tasks w' !! tid = resumedWaiter pid res w <$> tasks w !! tid.
Proof.
  cbv zeta. unfold resumeWaiters.
  destruct (resumeWaiters_prefix pid res w (length (tasks w)) ltac:(lia))
    as (Ec & Ef & Ep & Ek & Ee & El & Et).
  split_and!; try done. intros tid. rewrite Et.
  destruct (Nat.ltb_spec tid (length (tasks w))); [done |].
  by rewrite lookup_ge_None_2.
Qed.

(** The initiator: the call that holds the promise is the only one. *)
Lemma resumeInitiators_unique pid res w tid0 rq mtime :
  tasks w !! tid0 = Some (rq, AwaitConversion pid mtime) ->
  (forall tid rq' mt', tasks w !! tid = Some (rq', AwaitConversion pid mt') -> tid = tid0) ->
  resumeInitiators rt pid res w = resumeInitiator rt tid0 rq pid mtime res w.
Proof.
  intros H0 Huniq. unfold resumeInitiators.
  assert (Hlt : (tid0 < length (tasks w))%nat) by (by eapply lookup_lt_Some).
  replace (length (tasks w)) with (tid0 + S (length (tasks w) - S tid0))%nat by lia.
  rewrite seq_app, fold_left_app.
  rewrite (fold_left_id_in _ (seq 0 tid0)).
  2:{ intros x Hx. apply elem_of_seq in Hx.
      destruct (tasks w !! x) as [[rq' []]|] eqn:E; try done.
      destruct (Nat.eqb_spec pid0 pid) as [-> | ?]; [| done].
      apply Huniq in E. lia. }
  cbn [seq fold_left Nat.add]. rewrite H0, Nat.eqb_refl.
  apply fold_left_id_in. intros x Hx. apply elem_of_seq in Hx.
  assert (Ht : tasks (resumeInitiator rt tid0 rq pid mtime res w) !! x = tasks w !! x).
  { destruct res; simpl; rewrite list_lookup_insert_ne; done || lia. }
  rewrite Ht.
  destruct (tasks w !! x) as [[rq' []]|] eqn:E; try done.
  destruct (Nat.eqb_spec pid0 pid) as [-> | ?]; [| done].
  apply Huniq in E. lia.
Qed.

Lemma waiterOutcome_plain rq res w :
  owned (waiterOutcome rq res w) = None
  /\ forall pid, waiterOutcome rq res w <> AwaitInflight pid.
Proof. by destruct res. Qed.

Lemma resumedWaiter_inv pid res w2 rq t rq1 t1 :
  resumedWaiter pid res w2 (rq, t) = (rq1, t1) ->
  rq1 = rq
  /\ ((t1 = t /\ t <> AwaitInflight pid)
      \/ (t = AwaitInflight pid /\ t1 = waiterOutcome rq res w2)).
Proof.
  unfold resumedWaiter. destruct t; try (intros [= <- <-]; split; [done |]; by left).
  destruct (Nat.eqb_spec pid0 pid) as [-> | Hne]; intros [= <- <-]; split; try done.
  - by right.
  - left. split; [done |]. intros [=]. done.
Qed.

(** The world after a promise is settled and its reactions have run. *)
Lemma singleFlight_settled w w2 w3 pid rq tid0 mtime st3 s0 res :
  singleFlight w ->
  promises w !! pid = Some (rq, Pending) ->
  tasks w !! tid0 = Some (rq, AwaitConversion pid mtime) ->
  promises w3 = <[pid := (rq, st3)]> (promises w) ->
  (forall tid, tasks w3 !! tid
               = resumedWaiter pid res w2 <$> (<[tid0 := (rq, s0)]> (tasks w)) !! tid) ->
  ((exists r, st3 = Fulfilled r) /\ owned s0 = None /\ (forall p, s0 <> AwaitInflight p)
   /\ conversionsInFlight w3 = delete (q_key rq) (conversionsInFlight w))
  \/ ((exists e, st3 = Rejected e) /\ (exists png, s0 = AwaitFallbackWrite pid png)
      /\ conversionsInFlight w3 = conversionsInFlight w) ->
  singleFlight w3.
Proof.
  intros [Hreg Hpend Hown Huniq Hwait] Hp H0 Ep Et Hcase.
  assert (Hlt0 : (tid0 < length (tasks w))%nat) by (by eapply lookup_lt_Some).
  assert (Hltp : (pid < length (promises w))%nat) by (by eapply lookup_lt_Some).
  destruct (Hpend _ _ Hp) as [Hf0 _].
  assert (Hst3 : st3 <> Pending).
  { destruct Hcase as [([r ->] & _) | ([e ->] & _)]; done. }
  (* a task of the new world comes from a task of the old one *)
  assert (Hback : forall tid rq1 t1,
            tasks w3 !! tid = Some (rq1, t1) ->
            (tid = tid0 /\ rq1 = rq
             /\ ((t1 = s0 /\ s0 <> AwaitInflight pid)
                 \/ (s0 = AwaitInflight pid /\ t1 = waiterOutcome rq res w2)))
            \/ (tid <> tid0
                /\ exists t, tasks w !! tid = Some (rq1, t)
                   /\ ((t1 = t /\ t <> AwaitInflight pid)
                       \/ (t = AwaitInflight pid /\ t1 = waiterOutcome rq1 res w2)))).
  { intros tid rq1 t1 H. rewrite Et in H.
    destruct (decide (tid = tid0)) as [-> | Hne].
    - left. rewrite list_lookup_insert_eq in H by done. simpl in H.
      injection H as H. apply resumedWaiter_inv in H as [-> H]. done.
    - right. split; [done |]. rewrite list_lookup_insert_ne in H by done.
      destruct (tasks w !! tid) as [[rq' t]|] eqn:E; [| done]. simpl in H.
      injection H as H. apply resumedWaiter_inv in H as [-> H]. eauto. }
  (* a task of the old world that is no waiter of [pid] is still there *)
  assert (Hfwd : forall tid rq1 t,
            tid <> tid0 -> tasks w !! tid = Some (rq1, t) ->
            (forall p, t <> AwaitInflight p) ->
            tasks w3 !! tid = Some (rq1, t)).
  { intros tid rq1 t Hne H Hnw. rewrite Et, list_lookup_insert_ne, H by done. simpl.
    f_equal. unfold resumedWaiter. destruct t; try done. by destruct (Hnw pid0). }
  assert (Holdp : forall pid1 x, pid1 <> pid ->
            promises w3 !! pid1 = Some x <-> promises w !! pid1 = Some x).
  { intros pid1 x Hne. by rewrite Ep, list_lookup_insert_ne. }
  assert (Hnewp : promises w3 !! pid = Some (rq, st3)).
  { rewrite Ep. by apply list_lookup_insert_eq. }
  (* the owner of [pid] in the old world is [tid0] *)
  assert (Hsole : forall tid rq1 t, tasks w !! tid = Some (rq1, t) ->
            owned t = Some pid -> tid = tid0).
  { intros tid rq1 t H Hx. by eapply (Huniq tid tid0). }
  (* a key registered to another promise is another key *)
  assert (Hkey : forall key pid1, conversionsInFlight w !! key = Some pid1 ->
            pid1 <> pid -> key <> q_key rq).
  { intros key pid1 H Hne ->. congruence. }
  constructor.
  - intros key pid1 Hk.
    destruct Hcase as [(_ & _ & _ & Ef) | ([e ->] & _ & Ef)]; rewrite Ef in Hk.
    + destruct (decide (key = q_key rq)) as [-> | Hne];
        [by rewrite lookup_delete_eq in Hk |].
      rewrite lookup_delete_ne in Hk by done.
      destruct (Hreg _ _ Hk) as (rq1 & st & Hp1 & Hk1 & Hnf).
      assert (pid1 <> pid).
      { intros ->. rewrite Hp in Hp1. injection Hp1 as <- <-. done. }
      exists rq1, st. split; [by apply Holdp | done].
    + destruct (decide (pid1 = pid)) as [-> | Hne].
      * destruct (Hreg _ _ Hk) as (rq1 & st & Hp1 & Hk1 & Hnf).
        rewrite Hp in Hp1. injection Hp1 as <- <-.
        exists rq, (Rejected e). split; [done |]. split; done.
      * destruct (Hreg _ _ Hk) as (rq1 & st & Hp1 & Hk1 & Hnf).
        exists rq1, st. split; [by apply Holdp | done].
  - intros pid1 rq1 Hp1.
    assert (Hne : pid1 <> pid).
    { intros ->. rewrite Hnewp in Hp1. injection Hp1 as _ E. done. }
    apply Holdp in Hp1; [| done].
    destruct (Hpend _ _ Hp1) as [Hf1 (tid1 & mt1 & Ht1)].
    split.
    + destruct Hcase as [(_ & _ & _ & Ef) | (_ & _ & Ef)]; rewrite Ef; [| done].
      rewrite lookup_delete_ne; [done |]. intros E. by eapply (Hkey _ _ Hf1).
    + exists tid1, mt1. apply Hfwd; [| done | done].
      intros ->. rewrite H0 in Ht1. injection Ht1 as _ E _. done.
  - intros tid rq1 t1 pid1 Ht Hx.
    destruct (Hback _ _ _ Ht) as [(-> & -> & Hs) | (Hne & t & Ht0 & Hs)].
    + destruct Hs as [[-> _] | [_ ->]];
        [| by rewrite (proj1 (waiterOutcome_plain _ _ _)) in Hx].
      destruct Hcase as [(_ & Hn & _) | ([e ->] & [png ->] & Ef)]; [congruence |].
      injection Hx as <-. rewrite Ef. split; [done |].
      exists (Rejected e). split; [done | by exists e].
    + destruct Hs as [[-> _] | [_ ->]];
        [| by rewrite (proj1 (waiterOutcome_plain _ _ _)) in Hx].
      destruct (Hown _ _ _ _ Ht0 Hx) as [Hf1 (st & Hp1 & Hst)].
      assert (Hnp : pid1 <> pid).
      { intros ->. by apply Hne, (Hsole _ _ _ Ht0). }
      split.
      * destruct Hcase as [(_ & _ & _ & Ef) | (_ & _ & Ef)]; rewrite Ef; [| done].
        rewrite lookup_delete_ne; [done |]. intros E. by eapply (Hkey _ _ Hf1).
      * exists st. split; [by apply Holdp | done].
  - intros tid1 tid2 rq1 rq2 t1 t2 pid1 H1 H2 Hx1 Hx2.
    assert (Hold : forall tid rq' t', tasks w3 !! tid = Some (rq', t') ->
              owned t' = Some pid1 ->
              exists t, tasks w !! tid = Some (rq', t) /\ owned t = Some pid1).
    { intros tid rq' t' Ht Hx.
      destruct (Hback _ _ _ Ht) as [(-> & -> & Hs) | (Hne & t & Ht0 & Hs)].
      - destruct Hs as [[-> _] | [_ ->]];
          [| by rewrite (proj1 (waiterOutcome_plain _ _ _)) in Hx].
        destruct Hcase as [(_ & Hn & _) | (_ & [png ->] & _)]; [congruence |].
        injection Hx as <-. eauto.
      - destruct Hs as [[-> _] | [_ ->]];
          [eauto | by rewrite (proj1 (waiterOutcome_plain _ _ _)) in Hx]. }
    destruct (Hold _ _ _ H1 Hx1) as (t1' & H1' & Hx1').
    destruct (Hold _ _ _ H2 Hx2) as (t2' & H2' & Hx2').
    by eapply Huniq.
  - intros tid rq1 pid1 Ht.
    destruct (Hback _ _ _ Ht) as [(-> & -> & Hs) | (Hne & t & Ht0 & Hs)].
    + destruct Hs as [[E _] | [_ E]];
        [| by destruct (proj2 (waiterOutcome_plain rq res w2) pid1)].
      destruct Hcase as [(_ & _ & Hn & _) | (_ & [png ->] & _)]; [| done].
      by destruct (Hn pid1).
    + destruct Hs as [[<- Hn] | [_ E]];
        [| by destruct (proj2 (waiterOutcome_plain rq1 res w2) pid1)].
      destruct (Hwait _ _ _ Ht0) as (rq' & Hp1 & Hk1).
      assert (pid1 <> pid) by (intros ->; by apply Hn).
      exists rq'. split; [by apply Holdp | done].
Qed.

Lemma settle_inv pid w w' :
  settle cfg rt pid w = Some w' ->
  singleFlight w ->
  exists rq tid0 mtime res env',
    promises w !! pid = Some (rq, Pending)
    /\ tasks w !! tid0 = Some (rq, AwaitConversion pid mtime)
    /\ convertGribToPngViaPipeline cfg rt (q_gribPath rq) (q_matchExprs rq) (q_paths rq)
         (env w) = (res, env')
    /\ w' = resumeWaiters pid res
              (resumeInitiator rt tid0 rq pid mtime res
                 (setPromises (<[pid := (rq, settled res)]> (promises w))
                    (setEnv env' w))).
Proof.
  unfold settle. intros H Hsf.
  destruct (promises w !! pid) as [[rq []]|] eqn:Hp; try discriminate.
  destruct (convertGribToPngViaPipeline _ _ _ _ _ _) as [res env'] eqn:Hc.
  injection H as <-.
  destruct (sf_pending w Hsf _ _ Hp) as [_ (tid0 & mtime & H0)].
  exists rq, tid0, mtime, res, env'. split_and!; try done.
  f_equal. apply resumeInitiators_unique; [done |].
  intros tid rq' mt' Ht. simpl in Ht. by eapply (sf_unique w Hsf tid tid0).
Qed.

Lemma singleFlight_settle pid w w' :
  settle cfg rt pid w = Some w' -> singleFlight w -> singleFlight w'.
Proof.
  intros H Hsf.
  destruct (settle_inv _ _ _ H Hsf) as (rq & tid0 & mtime & res & env' & Hp & H0 & _ & ->).
  match goal with
  | |- singleFlight (resumeWaiters pid res ?w2) =>
      destruct (resumeWaiters_spec pid res w2) as (_ & Ef & Ep & _ & _ & Et)
  end.
  destruct res as [r | e]; simpl in Ef, Ep, Et.
  - eapply singleFlight_settled; [exact Hsf | exact Hp | exact H0 | exact Ep | exact Et |].
    left. split_and!; try done. by exists r.
  - eapply singleFlight_settled; [exact Hsf | exact Hp | exact H0 | exact Ep | exact Et |].
    right. split_and!; try done; eauto.
Qed.

(** A call in its fallback moves on and keeps its promise. *)
Lemma singleFlight_setTask_fallback tid rq t0 t pid w :
  singleFlight w ->
  tasks w !! tid = Some (rq, t0) -> owned t0 = Some pid -> inFallback t0 ->
  owned t = Some pid -> inFallback t ->
  singleFlight (setTask tid rq t w).
Proof.
  intros [Hreg Hpend Hown Huniq Hwait] Hold Ho0 Hfb0 Ho Hfb.
  assert (Hlt : (tid < length (tasks w))%nat) by (by eapply lookup_lt_Some).
  constructor; simpl.
  - done.
  - intros pid1 rq1 Hp. destruct (Hpend pid1 rq1 Hp) as [Hf (tid' & mt & Ht)].
    split; [done |]. exists tid', mt.
    rewrite list_lookup_insert_ne; [done |]. intros Heq. subst tid'.
    rewrite Hold in Ht. injection Ht as E1 E2. subst t0. done.
  - intros tid1 rq1 t1 pid1 Ht Hx.
    destruct (decide (tid = tid1)) as [<- | Hne].
    + rewrite list_lookup_insert_eq in Ht by done. injection Ht as <- <-.
      assert (pid1 = pid) as -> by congruence.
      destruct (Hown _ _ _ _ Hold Ho0) as [Hf (st & Hp & Hst)].
      split; [done |]. exists st. split; [done |].
      destruct t0; try done; destruct t; done.
    + rewrite list_lookup_insert_ne in Ht by done. by eapply Hown.
  - intros tid1 tid2 rq1 rq2 t1 t2 pid1 H1 H2 Hx1 Hx2.
    assert (Hold' : forall tid' rq' t', <[tid := (rq, t)]> (tasks w) !! tid' = Some (rq', t') ->
              owned t' = Some pid1 ->
              exists t'', tasks w !! tid' = Some (rq', t'') /\ owned t'' = Some pid1).
    { intros tid' rq' t' Ht Hx. destruct (decide (tid = tid')) as [<- | Hne].
      - rewrite list_lookup_insert_eq in Ht by done. injection Ht as <- <-.
        exists t0. split; [done | congruence].
      - rewrite list_lookup_insert_ne in Ht by done. eauto. }
    destruct (Hold' _ _ _ H1 Hx1) as (? & ? & ?), (Hold' _ _ _ H2 Hx2) as (? & ? & ?).
    by eapply Huniq.
  - intros tid1 rq1 pid1 Ht.
    destruct (decide (tid = tid1)) as [<- | Hne].
    + rewrite list_lookup_insert_eq in Ht by done. injection Ht as _ E. by subst t.
    + rewrite list_lookup_insert_ne in Ht by done. by eapply Hwait.
Qed.

(** A call at the end of its fallback deregisters its promise. *)
Lemma singleFlight_release tid rq t0 t pid w :
  singleFlight w ->
  tasks w !! tid = Some (rq, t0) -> owned t0 = Some pid -> inFallback t0 ->
  owned t = None -> (forall p, t <> AwaitInflight p) ->
  singleFlight
    (setTask tid rq t (setInFlight (delete (q_key rq) (conversionsInFlight w)) w)).
Proof.
  intros [Hreg Hpend Hown Huniq Hwait] Hold Ho0 Hfb0 Ho Hnw.
  assert (Hlt : (tid < length (tasks w))%nat) by (by eapply lookup_lt_Some).
  destruct (Hown _ _ _ _ Hold Ho0) as [Hf0 (st0 & Hp0 & Hst0)].
  assert (Hrej : exists e, st0 = Rejected e) by (destruct t0; done).
  constructor; simpl.
  - intros key pid1 Hk. destruct (decide (key = q_key rq)) as [-> | Hne];
      [by rewrite lookup_delete_eq in Hk |].
    rewrite lookup_delete_ne in Hk by done. by apply Hreg.
  - intros pid1 rq1 Hp. destruct (Hpend pid1 rq1 Hp) as [Hf (tid' & mt & Ht)].
    split.
    + rewrite lookup_delete_ne; [done |]. intros E. rewrite E in Hf0.
      assert (pid1 = pid) as -> by congruence.
      destruct Hrej as [e ->]. congruence.
    + exists tid', mt. rewrite list_lookup_insert_ne; [done |]. intros Heq. subst tid'.
      rewrite Hold in Ht. injection Ht as E1 E2. subst t0. done.
  - intros tid1 rq1 t1 pid1 Ht Hx.
    destruct (decide (tid = tid1)) as [<- | Hne].
    + rewrite list_lookup_insert_eq in Ht by done. injection Ht as <- <-. congruence.
    + rewrite list_lookup_insert_ne in Ht by done.
      destruct (Hown _ _ _ _ Ht Hx) as [Hf1 Hp1]. split; [| done].
      rewrite lookup_delete_ne; [done |]. intros E. rewrite E in Hf0.
      assert (pid1 = pid) as -> by congruence.
      apply Hne. by eapply (Huniq tid tid1).
  - intros tid1 tid2 rq1 rq2 t1 t2 pid1 H1 H2 Hx1 Hx2.
    destruct (decide (tid = tid1)) as [<- | Hne1].
    { rewrite list_lookup_insert_eq in H1 by done. injection H1 as <- <-. congruence. }
    destruct (decide (tid = tid2)) as [<- | Hne2].
    { rewrite list_lookup_insert_eq in H2 by done. injection H2 as <- <-. congruence. }
    rewrite list_lookup_insert_ne in H1, H2 by done. by eapply Huniq.
  - intros tid1 rq1 pid1 Ht.
    destruct (decide (tid = tid1)) as [<- | Hne].
    + rewrite list_lookup_insert_eq in Ht by done. injection Ht as _ E.
      by destruct (Hnw pid1).
    + rewrite list_lookup_insert_ne in Ht by done. by eapply Hwait.
Qed.

Lemma singleFlight_ioDone tid w w' :
  ioDone rt tid w = Some w' -> singleFlight w -> singleFlight w'.
Proof.
  unfold ioDone. intros H Hsf.
  destruct (tasks w !! tid) as [[rq t]|] eqn:Ht; [| discriminate].
  destruct t; try discriminate.
  - destruct (writeFails rt _ _) as [e|]; injection H as <-.
    + by apply (singleFlight_release tid rq (AwaitFallbackWrite pid png) _ pid w).
    + eapply (singleFlight_setTask_fallback tid rq _ _ pid (setEnv _ w)); try done.
      by apply singleFlight_setEnv.
  - injection H as <-.
    eapply (singleFlight_setTask_fallback tid rq _ _ pid (setEnv _ w)); try done.
    by apply singleFlight_setEnv.
  - destruct (rename _ _ _) as [[[]|e] env'] eqn:Hr; injection H as <-.
    + apply (singleFlight_release tid rq (AwaitFallbackRename pid) _ pid (setEnv env' w));
        try done. by apply singleFlight_setEnv.
    + apply (singleFlight_release tid rq (AwaitFallbackRename pid) _ pid (setEnv env' w));
        try done. by apply singleFlight_setEnv.
  - destruct (writeFails rt _ _) as [e|]; injection H as <-.
    + by eapply (singleFlight_setTask_plain tid rq _ rq _ w).
    + eapply (singleFlight_setTask_plain tid rq _ rq _ (setEnv _ w)); try done.
      by apply singleFlight_setEnv.
Qed.

Lemma singleFlight_step w ev w' :
  step cfg rt w ev = Some w' -> singleFlight w -> singleFlight w'.
Proof.
  destruct ev as [rq | tid mtime | tid found | pid | tid | dt]; simpl.
  - intros [= <-]. apply singleFlight_startRequest.
  - destruct (tasks w !! tid) as [[rq []]|] eqn:Ht; try discriminate.
    intros [= <-] Hsf. by eapply singleFlight_setTask_plain.
  - destruct (tasks w !! tid) as [[rq []]|] eqn:Ht; try discriminate;
      intros [= <-] Hsf.
    + by eapply singleFlight_setTask_plain.
    + by eapply singleFlight_setTask_plain.
    + by eapply singleFlight_afterProbes.
  - apply singleFlight_settle.
  - apply singleFlight_ioDone.
  - destruct (0 <=? dt); [| discriminate]. intros [= <-]. by apply singleFlight_frame.
Qed.

Lemma singleFlight_reachable w : reachable cfg rt w -> singleFlight w.
Proof.
  intros (t0 & e & evs & Hrun).
  pose proof (singleFlight_initial t0 e) as Hinit.
  revert Hrun Hinit. generalize (initialWorld t0 e). clear t0 e.
  induction evs as [|ev evs IH]; simpl; intros w0 Hrun Hsf.
  - by injection Hrun as <-.
  - destruct (step cfg rt w0 ev) eqn:E; [| discriminate].
    eapply IH; [done |]. by eapply singleFlight_step.
Qed.

Lemma entryOf_setEntry rq rq' e w :
  q_key rq' = q_key rq -> entryOf rq' (setEntry rq e w) = e.
Proof.
  intros Hk. unfold entryOf, setEntry. simpl. by rewrite Hk, lookup_insert_eq.
Qed.

Lemma entryOf_caches rq w w' : caches w' = caches w -> entryOf rq w' = entryOf rq w.
Proof. unfold entryOf. by intros ->. Qed.

(** X18. What the callers that await a conversion get when it ends. When it
    succeeds, the caller that started it and every caller that found it in
    flight return, and read the same entry, updated at the time of the
    settlement. When it fails, the caller that started it records the
    failure and goes on to write the fallback, still registered; the callers
    that found it in flight get the error thrown. *)
Theorem awaiting_callers_outcome (w w' : World) (pid : nat) :
  reachable cfg rt w ->
  settle cfg rt pid w = Some w' ->
  exists rq res env',
    promises w !! pid = Some (rq, Pending)
    /\ convertGribToPngViaPipeline cfg rt (q_gribPath rq) (q_matchExprs rq) (q_paths rq)
         (env w) = (res, env')
    /\ match res with
       | Ok r =>
           conversionsInFlight w' !! q_key rq = None
           /\ forall tid rq' t,
                tasks w !! tid = Some (rq', t) ->
                t = AwaitInflight pid \/ (exists mtime, t = AwaitConversion pid mtime) ->
                exists seen,
                  tasks w' !! tid = Some (rq', Returned seen)
                  /\ updatedAt seen = clock w /\ source seen = SrcWgrib2
                  /\ bounds seen = c_bounds r
       | Throw e =>
           conversionsInFlight w' !! q_key rq = Some pid
           /\ (forall tid rq',
                 tasks w !! tid = Some (rq', AwaitInflight pid) ->
                 tasks w' !! tid = Some (rq', Threw e))
           /\ (forall tid rq' mtime,
                 tasks w !! tid = Some (rq', AwaitConversion pid mtime) ->
                 tasks w' !! tid
                 = Some (rq', AwaitFallbackWrite pid (syntheticPng rt (clock w)))
                 /\ updatedAt (entryOf rq' w') = clock w
                 /\ source (entryOf rq' w') = SrcSynthetic)
       end.
Proof.
  intros Hr H. apply singleFlight_reachable in Hr as Hsf.
  destruct (settle_inv _ _ _ H Hsf) as (rq & tid0 & mtime & res & env' & Hp & H0 & Hc & ->).
  exists rq, res, env'. split; [done |]. split; [done |].
  destruct (sf_pending w Hsf _ _ Hp) as [Hf _].
  assert (Hlt0 : (tid0 < length (tasks w))%nat) by (by eapply lookup_lt_Some).
  assert (Hsole : forall tid rq' mt', tasks w !! tid = Some (rq', AwaitConversion pid mt') ->
            tid = tid0 /\ rq' = rq /\ mt' = mtime).
  { intros tid rq' mt' Ht.
    assert (tid = tid0) as -> by (by eapply (sf_unique w Hsf tid tid0)).
    rewrite H0 in Ht. by injection Ht as <- <-. }
  assert (Hwk : forall tid rq', tasks w !! tid = Some (rq', AwaitInflight pid) ->
            tid <> tid0 /\ q_key rq' = q_key rq).
  { intros tid rq' Ht. split.
    - intros ->. rewrite H0 in Ht. by injection Ht.
    - destruct (sf_waiter w Hsf _ _ _ Ht) as (rq'' & Hp' & Hk).
      rewrite Hp in Hp'. by injection Hp' as <-. }
  match goal with
  | |- context [resumeWaiters pid res ?w2] =>
      destruct (resumeWaiters_spec pid res w2) as (Ec & Ef & _ & _ & _ & Et);
      pose proof (fun rq' => entryOf_caches rq' _ _ Ec) as Hent
  end.
  destruct res as [r | e]; simpl in Ec, Ef, Et, Hent |- *.
  - split; [rewrite Ef; apply lookup_delete_eq |].
    intros tid rq' t Ht [-> | [mt ->]].
    + destruct (Hwk _ _ Ht) as [Hne Hk].
      rewrite Et, list_lookup_insert_ne, Ht by done. simpl. rewrite Nat.eqb_refl.
      eexists. split; [done |]. unfold entryOf. simpl. rewrite Hk, lookup_insert_eq.
      simpl. done.
    + destruct (Hsole _ _ _ Ht) as (-> & -> & ->).
      rewrite Et, list_lookup_insert_eq by done. simpl.
      eexists. split; [done |]. unfold entryOf. simpl. rewrite lookup_insert_eq.
      simpl. done.
  - split; [by rewrite Ef |]. split.
    + intros tid rq' Ht. destruct (Hwk _ _ Ht) as [Hne Hk].
      rewrite Et, list_lookup_insert_ne, Ht by done. simpl. by rewrite Nat.eqb_refl.
    + intros tid rq' mt Ht. destruct (Hsole _ _ _ Ht) as (-> & -> & ->).
      rewrite Et, list_lookup_insert_eq by done. simpl. split; [done |].
      rewrite Hent.
      unfold entryOf. simpl. rewrite lookup_insert_eq. simpl. done.
Qed.

End SingleFlightFacts.

Lemma awaiting_callers_outcome_witness :
  let w := Scenario.worldAfter Scenario.failingTools (take 10 Scenario.twoCallers) in
  let w' := Scenario.worldAfter Scenario.failingTools Scenario.twoCallers in
  exists e, tasks w' !! 1%nat = Some (Scenario.rq08, Threw e).
Proof.
  cbv zeta.
  destruct (awaiting_callers_outcome Scenario.cfg Scenario.failingTools
              (Scenario.worldAfter Scenario.failingTools (take 10 Scenario.twoCallers))
              (Scenario.worldAfter Scenario.failingTools Scenario.twoCallers) 0)
    as (rq & res & env' & Hp & Hc & H).
  - exists 1000000, Scenario.freshEnv, (take 10 Scenario.twoCallers).
    vm_compute. reflexivity.
  - vm_compute. reflexivity.
  - destruct res as [r | e].
    + exfalso.
      assert (Hq : Some (rq, Pending) = Some (Scenario.rq08, Pending))
        by (rewrite <- Hp; vm_compute; reflexivity).
      injection Hq as ->. vm_compute in Hc. discriminate.
    + exists e. destruct H as (_ & Hw & _). apply Hw. vm_compute. reflexivity.
Defined.

(** ** Routes: keys, paths and the client *)

Lemma size_list_to_set_le (l : list jsstring) :
  (size (list_to_set l : gset jsstring) <= length l)%nat.
Proof.
  induction l as [|x l IH].
  - by rewrite list_to_set_nil, size_empty.
  - rewrite list_to_set_cons, size_union_alt, size_singleton. cbn [length].
    pose proof (subseteq_size (list_to_set l ∖ {[x]}) (list_to_set l : gset jsstring)) as H.
    assert (Hsub : list_to_set l ∖ {[x]} ⊆ (list_to_set l : gset jsstring))
      by (intros y Hy; by apply elem_of_difference in Hy as [Hy _]).
    specialize (H Hsub). lia.
Qed.

Section KeysInvariant.

Variable cfg : Config.
Variable rt : Runtime.
Variable keys : list jsstring.

Lemma keysWithin_frame w w' :
  caches w' = caches w -> tasks w' = tasks w -> keysWithin keys w -> keysWithin keys w'.
Proof. unfold keysWithin. by intros -> ->. Qed.

Lemma keysWithin_setEntry rq e w :
  q_key rq ∈ keys -> keysWithin keys w -> keysWithin keys (setEntry rq e w).
Proof.
  intros Hk [Hc Ht]. split; [| exact Ht].
  intros k e'. unfold setEntry. simpl.
  destruct (decide (cacheKey (q_key rq) = k)) as [<- | Hne].
  - intros _. by apply list_elem_of_fmap_2.
  - rewrite lookup_insert_ne by done. apply Hc.
Qed.

Lemma keysWithin_setTask tid rq t w :
  q_key rq ∈ keys -> keysWithin keys w -> keysWithin keys (setTask tid rq t w).
Proof.
  intros Hk [Hc Ht]. split; [exact Hc |].
  intros tid' rq' t'. unfold setTask. simpl.
  intros H. apply list_lookup_insert_Some in H as [(_ & [= <- <-] & _) | [_ H]]; [done |].
  by eapply Ht.
Qed.

Lemma keysWithin_setEnv e w : keysWithin keys w -> keysWithin keys (setEnv e w).
Proof. by apply keysWithin_frame. Qed.

Lemma keysWithin_setInFlight m w : keysWithin keys w -> keysWithin keys (setInFlight m w).
Proof. by apply keysWithin_frame. Qed.

Lemma keysWithin_setPromises p w : keysWithin keys w -> keysWithin keys (setPromises p w).
Proof. by apply keysWithin_frame. Qed.

Lemma keysWithin_setClock c w : keysWithin keys w -> keysWithin keys (setClock c w).
Proof. by apply keysWithin_frame. Qed.

Create HintDb keys_inv.
#[local] Hint Resolve keysWithin_setEntry keysWithin_setTask keysWithin_setEnv
  keysWithin_setInFlight keysWithin_setPromises keysWithin_setClock : keys_inv.

Lemma keysWithin_startRequest rq w :
  q_key rq ∈ keys -> keysWithin keys w -> keysWithin keys (startRequest rq w).
Proof.
  intros Hk [Hc Ht]. unfold startRequest, getCacheForKey. split.
  - intros k e. cbn [caches setTasks setCaches].
    destruct (caches w !! cacheKey (q_key rq)) eqn:E; cbn [fst]; [apply Hc |].
    destruct (decide (cacheKey (q_key rq) = k)) as [<- | Hne].
    + intros _. by apply list_elem_of_fmap_2.
    + rewrite lookup_insert_ne by done. apply Hc.
  - intros tid rq' t. cbn [tasks setTasks setCaches].
    intros H. apply lookup_app_Some in H as [H | [_ H]]; [by eapply Ht |].
    apply list_lookup_singleton_Some in H as [_ [= <- <-]]. done.
Qed.

Lemma keysWithin_awaitInflight tid rq pid w :
  q_key rq ∈ keys -> keysWithin keys w -> keysWithin keys (awaitInflight tid rq pid w).
Proof.
  intros Hk H. unfold awaitInflight.
  destruct (promises w !! pid) as [[? []]|]; auto with keys_inv.
Qed.

Lemma keysWithin_afterProbes tid rq now mtime prev h1 h2 h3 w :
  q_key rq ∈ keys -> keysWithin keys w ->
  keysWithin keys (afterProbes cfg rt tid rq now mtime prev h1 h2 h3 w).
Proof.
  intros Hk H. unfold afterProbes.
  destruct (regenerationWarranted _ _ _ _ _).
  - destruct (conversionsInFlight _ !! _).
    + apply keysWithin_awaitInflight; auto with keys_inv.
    + auto 8 with keys_inv.
  - repeat (destruct (_ && _)); auto 8 with keys_inv.
Qed.

Lemma keysWithin_resumeInitiator tid rq pid mtime res w :
  q_key rq ∈ keys -> keysWithin keys w ->
  keysWithin keys (resumeInitiator rt tid rq pid mtime res w).
Proof. intros Hk H. destruct res; simpl; auto 8 with keys_inv. Qed.

Lemma keysWithin_resumeWaiter tid rq res w :
  q_key rq ∈ keys -> keysWithin keys w -> keysWithin keys (resumeWaiter tid rq res w).
Proof. intros Hk H. destruct res; simpl; auto with keys_inv. Qed.

Lemma keysWithin_settle pid w w' :
  settle cfg rt pid w = Some w' -> keysWithin keys w -> keysWithin keys w'.
Proof.
  unfold settle. destruct (promises w !! pid) as [[rq []]|]; try discriminate.
  destruct (convertGribToPngViaPipeline _ _ _ _ _ _) as [res env'].
  intros [= <-] H. unfold resumeWaiters, resumeInitiators.
  apply fold_left_preserves.
  { intros a tid Ha. destruct (tasks a !! tid) as [[rq' []]|] eqn:E; try done.
    destruct (_ =? _)%nat; [| done].
    apply keysWithin_resumeWaiter; [| done]. by eapply (proj2 Ha). }
  apply fold_left_preserves.
  { intros a tid Ha. destruct (tasks a !! tid) as [[rq' []]|] eqn:E; try done.
    destruct (_ =? _)%nat; [| done].
    apply keysWithin_resumeInitiator; [| done]. by eapply (proj2 Ha). }
  auto with keys_inv.
Qed.

Lemma keysWithin_ioDone tid w w' :
  ioDone rt tid w = Some w' -> keysWithin keys w -> keysWithin keys w'.
Proof.
  unfold ioDone. intros Hio H.
  destruct (tasks w !! tid) as [[rq t]|] eqn:E; [| discriminate].
  assert (Hk : q_key rq ∈ keys) by (by eapply (proj2 H)).
  destruct t; try discriminate.
  - destruct (writeFails rt _ _); injection Hio as <-; auto 6 with keys_inv.
  - injection Hio as <-. auto with keys_inv.
  - destruct (rename _ _ _) as [[] env']; injection Hio as <-; auto 6 with keys_inv.
  - destruct (writeFails rt _ _); injection Hio as <-; auto with keys_inv.
Qed.

Lemma keysWithin_step w ev w' :
  requestsWithin keys ev ->
  step cfg rt w ev = Some w' -> keysWithin keys w -> keysWithin keys w'.
Proof.
  destruct ev as [rq | tid mtime | tid found | pid | tid | dt]; simpl; intros Hev.
  - intros [= <-]. by apply keysWithin_startRequest.
  - destruct (tasks w !! tid) as [[rq t]|] eqn:E; [| discriminate].
    destruct t; try discriminate. intros [= <-] H.
    apply keysWithin_setTask; [by eapply (proj2 H) | done].
  - destruct (tasks w !! tid) as [[rq t]|] eqn:E; [| discriminate].
    destruct t; try discriminate; intros [= <-] H;
      assert (Hk : q_key rq ∈ keys) by (by eapply (proj2 H)).
    + auto with keys_inv.
    + auto with keys_inv.
    + by apply keysWithin_afterProbes.
  - apply keysWithin_settle.
  - apply keysWithin_ioDone.
  - destruct (0 <=? dt); [| discriminate]. intros [= <-]. auto with keys_inv.
Qed.

Lemma keysWithin_run evs w w' :
  Forall (requestsWithin keys) evs ->
  run cfg rt w evs = Some w' -> keysWithin keys w -> keysWithin keys w'.
Proof.
  revert w. induction evs as [|ev evs IH]; simpl; intros w Hevs.
  - by intros [= <-].
  - apply Forall_cons in Hevs as [Hev Hevs].
    destruct (step cfg rt w ev) eqn:E; [| discriminate].
    intros Hr Hw. eapply IH; [done | done |]. by eapply keysWithin_step.
Qed.

Lemma keysWithin_size w :
  keysWithin keys w -> (size (caches w) <= length keys)%nat.
Proof.
  intros [Hc _]. rewrite <- size_dom.
  etrans; [apply (subseteq_size _ (list_to_set (cacheKey <$> keys))) |].
  - intros k Hk. apply elem_of_dom in Hk as [e Hk]. apply elem_of_list_to_set. by eapply Hc.
  - etrans; [apply size_list_to_set_le |]. by rewrite length_fmap.
Qed.

End KeysInvariant.

Section RouteFacts.

Variable toUpperCase : jsstring -> jsstring.
Variable toLowerCase : jsstring -> jsstring.
Variable cfg : Config.

Lemma normalizeHourParam_slot qhour r :
  normalizeHourParam toUpperCase qhour = Some r -> r ∈ hourSlots.
Proof.
  intros H. apply normalizeHourParam_some in H as (raw & n & _ & _ & _ & _ & Hn & ->).
  assert (Hc : n = 8%N \/ n = 9%N \/ n = 10%N \/ n = 11%N \/ n = 12%N
               \/ n = 13%N \/ n = 14%N \/ n = 15%N) by lia.
  apply list_elem_of_In.
  destruct Hc as [E | [E | [E | [E | [E | [E | [E | E]]]]]]]; rewrite E; vm_compute; auto 10.
Qed.

Lemma resolved_timeKey qhour qvar :
  r_timeKey (resolveQuery toUpperCase toLowerCase cfg qhour qvar) ∈ timeKeys.
Proof.
  unfold resolveQuery, timeKeys. cbn [r_timeKey].
  destruct (normalizeHourParam toUpperCase qhour) as [r|] eqn:E; [| left].
  right. apply normalizeHourParam_slot in E.
  by apply (list_elem_of_fmap_2 (fun h => h ++ js "H")).
Qed.

Lemma resolved_varKey qhour qvar :
  r_varKey (resolveQuery toUpperCase toLowerCase cfg qhour qvar)
  ∈ allowedVars ++ [DEFAULT_VAR cfg].
Proof.
  unfold resolveQuery. cbn [r_varKey]. apply elem_of_app.
  destruct (normalizeVarParam toUpperCase qvar) as [s|] eqn:E.
  - apply normalizeVarParam_some in E as (raw & _ & _ & _ & Hin). by left.
  - right. apply list_elem_of_singleton. done.
Qed.

Lemma resolved_key qhour qvar :
  r_key (resolveQuery toUpperCase toLowerCase cfg qhour qvar) ∈ keySpace cfg.
Proof.
  pose proof (resolved_timeKey qhour qvar) as Ht.
  pose proof (resolved_varKey qhour qvar) as Hv.
  unfold keySpace. apply list_elem_of_bind.
  eexists. split; [| exact Hv].
  by apply (list_elem_of_fmap_2 (fun t => _ ++ js "_" ++ t)).
Qed.

(** X1. Whatever the clients send, the routes build one of 63 keys (seven
    variables, the default one included, by nine time keys), and the cache
    never holds more entries than that. *)
Theorem cache_is_bounded (rt : Runtime) (t0 : Z) (e : Env) (evs : list Event) (w : World) :
  Forall (fromRoutes toUpperCase toLowerCase cfg) evs ->
  run cfg rt (initialWorld t0 e) evs = Some w ->
  (forall k, is_Some (caches w !! k) -> k ∈ cacheKey <$> keySpace cfg)
  /\ (size (caches w) <= 63)%nat.
Proof.
  intros Hevs Hrun.
  assert (H : keysWithin (keySpace cfg) w).
  { eapply keysWithin_run; [| exact Hrun |].
    - eapply Forall_impl; [exact Hevs |]. intros [rq | | | | |]; simpl; try done.
      intros (qhour & qvar & ->). apply resolved_key.
    - split; [intros k e'; unfold initialWorld; simpl; by rewrite lookup_empty |].
      intros tid rq t. unfold initialWorld. simpl. by rewrite lookup_nil. }
  split; [intros k [e' Hk]; by eapply (proj1 H) |].
  by apply keysWithin_size in H.
Qed.

Lemma pathJoin_inj dir a b : pathJoin cfg dir a = pathJoin cfg dir b -> a = b.
Proof. unfold pathJoin. intros H. apply app_inv_head in H. by injection H. Qed.

Lemma safeKey_safe s : Forall (fun c => isSafeUnit c = true) (safeKey s).
Proof.
  unfold safeKey. apply Forall_forall. intros c Hc.
  by apply list_elem_of_In, filter_In in Hc as [_ Hc].
Qed.

Lemma plainName_app a b : plainName a -> plainName b -> plainName (a ++ b).
Proof. apply Forall_app_2. Qed.

Lemma plainName_safeKey s : plainName (safeKey s).
Proof. eapply Forall_impl; [apply safeKey_safe |]. simpl. auto. Qed.

Lemma plainName_literal s :
  forallb (fun c => isSafeUnit c || (c =? 46)%N) s = true -> plainName s.
Proof.
  intros H. apply Forall_forall. intros c Hc.
  rewrite forallb_forall in H. apply list_elem_of_In in Hc. specialize (H c Hc).
  apply orb_true_iff in H as [H | H]; [by left | right; by apply N.eqb_eq].
Qed.

(** X2. The four files of a key are four different files, each directly in the
    cache directory: its name is made of letters, digits, [_], [-] and dots,
    so that no variable or key, however it is spelled, names a file
    elsewhere. In particular the temporary artifact is never the final one. *)
Theorem artifact_paths_are_distinct_cache_files (varKey key : jsstring) :
  let ps := getPathsForVarAndKey toLowerCase cfg varKey key in
  NoDup (pathsOf ps)
  /\ forall p, p ∈ pathsOf ps ->
       exists name, p = CACHE_DIR cfg ++ pathSep cfg :: name
                    /\ plainName name
                    /\ (47%N ∉ name) /\ (92%N ∉ name).
Proof.
  cbv zeta. unfold getPathsForVarAndKey, pathsOf. cbn [capeNc capeTif overlayPng overlayTmpPng].
  set (v := safeKey (toLowerCase _)). set (k := safeKey key).
  assert (Hne : forall s1 s2, s1 <> s2 ->
            pathJoin cfg (CACHE_DIR cfg) (v ++ js "_" ++ k ++ s1)
            <> pathJoin cfg (CACHE_DIR cfg) (v ++ js "_" ++ k ++ s2)).
  { intros s1 s2 Hs H. apply pathJoin_inj in H.
    rewrite !(app_assoc v), !(app_assoc (v ++ _)) in H. by apply app_inv_head in H. }
  split.
  - repeat (apply NoDup_cons; split;
            [rewrite ?elem_of_cons, elem_of_nil;
             intros H; repeat (destruct H as [H | H]); try done;
             revert H; apply Hne; vm_compute; discriminate |]).
    apply NoDup_nil_2.
  - assert (Hplain : forall s, forallb (fun c => isSafeUnit c || (c =? 46)%N) s = true ->
              plainName (v ++ js "_" ++ k ++ s)).
    { intros s Hs. apply plainName_app; [apply plainName_safeKey |].
      apply plainName_app; [by apply plainName_literal |].
      apply plainName_app; [apply plainName_safeKey | by apply plainName_literal]. }
    assert (Hsep : forall name c, plainName name -> isSafeUnit c = false -> c <> 46%N ->
              c ∉ name).
    { intros name c Hn Hc Hd Hin. unfold plainName in Hn. rewrite Forall_forall in Hn.
      destruct (Hn c Hin) as [E | E]; congruence. }
    intros p Hp. rewrite !elem_of_cons, elem_of_nil in Hp.
    destruct Hp as [-> | [-> | [-> | [-> | []]]]];
      (eexists; split; [reflexivity |]; split; [by apply Hplain |];
       split; apply Hsep; try (by apply Hplain); done).
Qed.

Lemma resolveQuery_ext qhour qvar qhour' qvar' :
  normalizeHourParam toUpperCase qhour = normalizeHourParam toUpperCase qhour' ->
  default (DEFAULT_VAR cfg) (normalizeVarParam toUpperCase qvar)
  = default (DEFAULT_VAR cfg) (normalizeVarParam toUpperCase qvar') ->
  resolveQuery toUpperCase toLowerCase cfg qhour qvar
  = resolveQuery toUpperCase toLowerCase cfg qhour' qvar'.
Proof.
  unfold resolveQuery. intros -> H.
  destruct (normalizeVarParam toUpperCase qvar), (normalizeVarParam toUpperCase qvar');
    simpl in H; by subst.
Qed.

(** On strings of the ASCII range the case mappings of the runtime are the
    ASCII ones. *)
Hypothesis upper_ascii : forall s, isAscii s -> toUpperCase s = asciiUpper s.
Hypothesis lower_ascii : forall s, isAscii s -> toLowerCase s = Scenario.asciiLower s.

Lemma normalizeHourParam_fixed r :
  r ∈ hourSlots -> normalizeHourParam toUpperCase (Some r) = Some r.
Proof.
  intros Hr. unfold hourSlots in Hr. rewrite !elem_of_cons, elem_of_nil in Hr.
  assert (H : trim r = r /\ isAscii r /\ normalizeHourParam asciiUpper (Some r) = Some r).
  { destruct Hr as [-> | [-> | [-> | [-> | [-> | [-> | [-> | [-> | []]]]]]]]];
      (split; [reflexivity |]; split; [| reflexivity]);
      repeat constructor. }
  destruct H as (Ht & Ha & Hn). rewrite <- Hn at 2.
  destruct r as [|c r]; [done |]. unfold normalizeHourParam.
  rewrite Ht, upper_ascii by done. done.
Qed.

Lemma normalizeVarParam_fixed s :
  s ∈ allowedVars -> normalizeVarParam toUpperCase (Some s) = Some s.
Proof.
  intros Hs. pose proof Hs as Hin. unfold allowedVars in Hs.
  rewrite !elem_of_cons, elem_of_nil in Hs.
  assert (H : s <> [] /\ trim s = s /\ isAscii s /\ asciiUpper s = s).
  { destruct Hs as [-> | [-> | [-> | [-> | [-> | [-> | []]]]]]];
      (split; [done |]; split; [reflexivity |]; split; [| reflexivity]);
      repeat constructor. }
  destruct H as (Hne & Ht & Ha & Hu).
  destruct s as [|c s]; [done |]. unfold normalizeVarParam.
  rewrite Ht, upper_ascii, Hu by done. by rewrite bool_decide_true.
Qed.

(** X3. The answer of the meta route carries the hour and the variable it
    resolved. A request made with them is resolved to the same hour and
    variable, hence to the same key, source file, paths and expressions. The
    default variable is stored trimmed and uppercased when the server
    starts. *)
Theorem resolved_query_round_trip (qhour qvar : option jsstring) :
  toUpperCase (trim (DEFAULT_VAR cfg)) = DEFAULT_VAR cfg ->
  let q := resolveQuery toUpperCase toLowerCase cfg qhour qvar in
  normalizeHourParam toUpperCase (r_hour q) = r_hour q
  /\ default (DEFAULT_VAR cfg) (normalizeVarParam toUpperCase (Some (r_varKey q)))
     = r_varKey q
  /\ resolveQuery toUpperCase toLowerCase cfg (r_hour q) (Some (r_varKey q)) = q.
Proof.
  intros Hd. cbv zeta.
  assert (Hh : normalizeHourParam toUpperCase (normalizeHourParam toUpperCase qhour)
               = normalizeHourParam toUpperCase qhour).
  { destruct (normalizeHourParam toUpperCase qhour) as [r|] eqn:E; [| done].
    apply normalizeHourParam_fixed. by eapply normalizeHourParam_slot. }
  assert (Hv : forall v,
             v = default (DEFAULT_VAR cfg) (normalizeVarParam toUpperCase qvar) ->
             default (DEFAULT_VAR cfg) (normalizeVarParam toUpperCase (Some v)) = v).
  { intros v ->. destruct (normalizeVarParam toUpperCase qvar) as [s|] eqn:E.
    - apply normalizeVarParam_some in E as (raw & _ & _ & _ & Hin).
      change (default (DEFAULT_VAR cfg) (Some s)) with s.
      by rewrite normalizeVarParam_fixed.
    - change (default (DEFAULT_VAR cfg) None) with (DEFAULT_VAR cfg).
      unfold normalizeVarParam. destruct (DEFAULT_VAR cfg) as [|c d] eqn:Ed; [done |].
      rewrite Hd. by case_bool_decide. }
  assert (Hrv : r_varKey (resolveQuery toUpperCase toLowerCase cfg qhour qvar)
                = default (DEFAULT_VAR cfg) (normalizeVarParam toUpperCase qvar)).
  { unfold resolveQuery. cbn [r_varKey]. by destruct (normalizeVarParam _ _). }
  split; [exact Hh |]. split; [by apply Hv |].
  apply resolveQuery_ext; [exact Hh |]. rewrite <- Hrv. by apply Hv.
Qed.

Lemma pad2_slot h : 8 <= h <= 15 -> Client.pad2 h ∈ hourSlots.
Proof.
  intros H.
  assert (Hc : h = 8 \/ h = 9 \/ h = 10 \/ h = 11 \/ h = 12 \/ h = 13 \/ h = 14 \/ h = 15)
    by lia.
  apply list_elem_of_In.
  destruct Hc as [E | [E | [E | [E | [E | [E | [E | E]]]]]]]; rewrite E; vm_compute; auto 10.
Qed.

(** X4. The animation of the client stays on the eight hourly slots and visits
    all of them, and the server resolves each of its hours to that hour and
    to the hourly source file the offline mode names. *)
Theorem client_hours_reach_the_hourly_files (h : Z) (qvar : option jsstring) :
  8 <= h <= 15 ->
  let q := resolveQuery toUpperCase toLowerCase cfg (Some (Client.pad2 h)) qvar in
  8 <= Client.nextHourFrom h <= 15
  /\ Nat.iter 8 Client.nextHourFrom h = h
  /\ (forall k, (0 < k < 8)%nat -> Nat.iter k Client.nextHourFrom h <> h)
  /\ r_hour q = Some (Client.pad2 h)
  /\ r_gribPath q
     = DATA_DIR cfg ++ pathSep cfg :: Client.offlineGribFile (Client.pad2 h).
Proof.
  intros H. cbv zeta.
  assert (Hc : h = 8 \/ h = 9 \/ h = 10 \/ h = 11 \/ h = 12 \/ h = 13 \/ h = 14 \/ h = 15)
    by lia.
  split; [unfold Client.nextHourFrom; destruct (15 <=? h) eqn:E; lia |].
  split; [intuition subst; reflexivity |].
  split.
  { intros k Hk.
    assert (Hk' : (k = 1 \/ k = 2 \/ k = 3 \/ k = 4 \/ k = 5 \/ k = 6 \/ k = 7)%nat) by lia.
    intuition subst; vm_compute; discriminate. }
  assert (Hn : normalizeHourParam toUpperCase (Some (Client.pad2 h)) = Some (Client.pad2 h))
    by (apply normalizeHourParam_fixed; by apply pad2_slot).
  unfold resolveQuery. cbn [r_hour r_gribPath]. rewrite Hn. done.
Qed.

(** X5. The overlay the offline client asks the development server for is the
    artifact the server publishes for the same variable and hour. *)
Theorem offline_overlay_is_the_server_artifact (v : jsstring) (h : Z) :
  v ∈ Client.VARS -> 8 <= h <= 15 ->
  let q := resolveQuery toUpperCase toLowerCase cfg (Some (Client.pad2 h)) (Some v) in
  overlayPng (r_paths q)
  = CACHE_DIR cfg ++ pathSep cfg :: Client.offlineOverlayName toLowerCase v (Client.pad2 h)
  /\ Client.offlineOverlayUrl toLowerCase v (Client.pad2 h)
     = js "/local-cache/" ++ Client.offlineOverlayName toLowerCase v (Client.pad2 h).
Proof.
  intros Hv H. cbv zeta. split; [| reflexivity].
  assert (Hn : normalizeHourParam toUpperCase (Some (Client.pad2 h)) = Some (Client.pad2 h))
    by (apply normalizeHourParam_fixed; by apply pad2_slot).
  assert (Hvar : normalizeVarParam toUpperCase (Some v) = Some v)
    by (by apply normalizeVarParam_fixed).
  unfold resolveQuery. cbn [r_paths]. rewrite Hn, Hvar.
  unfold getPathsForVarAndKey. cbn [overlayPng]. unfold pathJoin, Client.offlineOverlayName.
  assert (Hlow : safeKey (toLowerCase match v with [] => js "var" | _ :: _ => v end)
                 = toLowerCase v).
  { unfold Client.VARS in Hv. rewrite !elem_of_cons, elem_of_nil in Hv.
    assert (Ha : v <> [] /\ isAscii v
                 /\ safeKey (Scenario.asciiLower v) = Scenario.asciiLower v).
    { destruct Hv as [-> | [-> | [-> | [-> | [-> | [-> | []]]]]]];
        (split; [done |]; split; [| reflexivity]); repeat constructor. }
    destruct Ha as (Hne & Ha & Hs). destruct v; [done |]. by rewrite lower_ascii. }
  assert (Hk : safeKey (Client.pad2 h ++ js "H") = Client.pad2 h ++ js "H").
  { assert (Hc : h = 8 \/ h = 9 \/ h = 10 \/ h = 11 \/ h = 12 \/ h = 13 \/ h = 14 \/ h = 15)
      by lia.
    intuition subst; reflexivity. }
  rewrite Hlow, Hk. by rewrite <- !app_assoc.
Qed.

End RouteFacts.

Lemma cache_is_bounded_witness :
  (size (caches (Scenario.worldAfter Scenario.failingTools Scenario.twoCallersDone)) <= 63)%nat.
Proof.
  refine (proj2 (cache_is_bounded asciiUpper Scenario.asciiLower Scenario.cfg
                   Scenario.failingTools 1000000 Scenario.freshEnv
                   Scenario.twoCallersDone _ _ _)).
  - repeat constructor; by exists (Some (js "08")), (Some (js "RPRATE")).
  - vm_compute. reflexivity.
Defined.

Lemma resolved_query_round_trip_witness :
  let q := resolveQuery asciiUpper Scenario.asciiLower Scenario.cfg
             (Some (js " 9h ")) (Some (js "cape")) in
  r_hour q = Some (js "09") /\ r_varKey q = js "CAPE"
  /\ resolveQuery asciiUpper Scenario.asciiLower Scenario.cfg (r_hour q) (Some (r_varKey q))
     = q.
Proof.
  cbv zeta. split; [reflexivity |]. split; [reflexivity |].
  apply (resolved_query_round_trip asciiUpper Scenario.asciiLower Scenario.cfg
           (fun s _ => eq_refl) (Some (js " 9h ")) (Some (js "cape")) eq_refl).
Defined.

Lemma client_hours_reach_the_hourly_files_witness :
  Client.nextHourFrom 15 = 8
  /\ r_gribPath (resolveQuery asciiUpper Scenario.asciiLower Scenario.cfg
                   (Some (Client.pad2 15)) None)
     = js "data/15H.grib2".
Proof.
  pose proof (client_hours_reach_the_hourly_files asciiUpper Scenario.asciiLower Scenario.cfg
                (fun s _ => eq_refl) 15 None ltac:(lia)) as H.
  cbv zeta in H. destruct H as (_ & _ & _ & _ & H).
  split; [reflexivity | exact H].
Defined.

Lemma offline_overlay_is_the_server_artifact_witness :
  overlayPng (r_paths (resolveQuery asciiUpper Scenario.asciiLower Scenario.cfg
                         (Some (js "08")) (Some (js "LCDC"))))
  = js "cache/lcdc_08H_color.png".
Proof.
  assert (Hv : js "LCDC" ∈ Client.VARS) by (apply list_elem_of_In; vm_compute; auto 10).
  exact (proj1 (offline_overlay_is_the_server_artifact asciiUpper Scenario.asciiLower
                  Scenario.cfg (fun s _ => eq_refl) (fun s _ => eq_refl)
                  (js "LCDC") 8 Hv ltac:(lia))).
Defined.

(** ** Orchestrator: one conversion per key *)

Section OnePerKey.

Variable toUpperCase : jsstring -> jsstring.
Variable toLowerCase : jsstring -> jsstring.
Variable cfg : Config.
Variable rt : Runtime.




End OnePerKey.


(** ** Content crop, twice *)

Section CropTwice.

Variable thr : Z.

Lemma crop_cases p :
  wfPng p ->
  (cropPngToNonTransparent thr p = (None, None) /\ forall x y, ~ counted thr p x y)
  \/ cropPngToNonTransparent thr p = (Some (wholeRaster p), None)
  \/ exists r out,
       cropPngToNonTransparent thr p = (Some r, Some out)
       /\ ~ (maxX r - minX r + 1 = width p /\ maxY r - minY r + 1 = height p)
       /\ wfPng out
       /\ width out = maxX r - minX r + 1 /\ height out = maxY r - minY r + 1
       /\ (forall x y, counted thr out x y <->
             (0 <= x < width out /\ 0 <= y < height out
              /\ counted thr p (minX r + x) (minY r + y)))
       /\ (forall x y, counted thr p x y ->
             minX r <= x <= maxX r /\ minY r <= y <= maxY r)
       /\ (exists y, counted thr p (minX r) y)
       /\ (exists x, counted thr p x (minY r))
       /\ (exists y, counted thr p (maxX r) y)
       /\ (exists x, counted thr p x (maxY r)).
Proof.
  intros Hwf. pose proof (content_crop_general thr p Hwf) as Hs.
  unfold cropSpec in Hs.
  destruct (cropPngToNonTransparent thr p) as [[r|] written] eqn:E.
  2:{ destruct Hs as [-> Hno]. by left. }
  right.
  destruct Hs as (Hfw & Hfh & Henc & Ha & Hb & Hc & Hd & Hsame & Hdiff).
  destruct Ha as [ya Ha], Hb as [xb Hb], Hc as [yc Hc], Hd as [xd Hd].
  pose proof (Henc _ _ Ha) as Ea. pose proof (Henc _ _ Hb) as Eb.
  pose proof (Henc _ _ Hc) as Ec. pose proof (Henc _ _ Hd) as Ed.
  pose proof Ha as [[Ia Ia'] _]. pose proof Hb as [[Ib Ib'] _].
  pose proof Hc as [[Ic Ic'] _]. pose proof Hd as [[Id Id'] _].
  destruct (decide (maxX r - minX r + 1 = width p /\ maxY r - minY r + 1 = height p))
    as [Hfull | Hpart].
  { rewrite (Hsame Hfull). left. f_equal. unfold wholeRaster.
    destruct r as [a b c d fw fh]. simpl in *. f_equal. f_equal; lia. }
  destruct (Hdiff Hpart) as (out & -> & Hw & Hh & Hlen & Hch). right.
  exists r, out.
  destruct Hwf as (Hw0 & Hh0 & Hl & Hsmall).
  split_and!; try done.
  - unfold wfPng. rewrite Hw, Hh. split_and!; try lia. nia.
  - intros x y. unfold counted, inside. split.
    + intros ([Hx Hy] & a & Hca & Hta). rewrite Hw, Hh in *.
      split; [done |]. split; [done |].
      destruct (Hch x y 3 ltac:(lia) ltac:(lia) ltac:(lia)) as [_ Heq].
      split; [lia |]. exists a. by rewrite <- Heq.
    + intros (Hx & Hy & [Hin Hp] & a & Hca & Hta). rewrite Hw, Hh in *.
      split; [done |].
      destruct (Hch x y 3 ltac:(lia) ltac:(lia) ltac:(lia)) as [_ Heq].
      exists a. by rewrite Heq.
  - eauto.
  - eauto.
  - eauto.
  - eauto.
Qed.

(** X6. Cropping is idempotent: the crop of a cropped raster writes nothing, and
    returns the whole raster as its rectangle unless nothing counts. *)
Theorem content_crop_twice (p : Png) :
  wfPng p ->
  let q := croppedRaster thr p in
  wfPng q
  /\ snd (cropPngToNonTransparent thr q) = None
  /\ croppedRaster thr q = q
  /\ (fst (cropPngToNonTransparent thr p) <> None ->
      fst (cropPngToNonTransparent thr q) = Some (wholeRaster q)).
Proof.
  intros Hwf. cbv zeta.
  assert (Hfix : forall q, snd (cropPngToNonTransparent thr q) = None ->
             croppedRaster thr q = q).
  { intros q Hq. unfold croppedRaster. by rewrite Hq. }
  destruct (crop_cases p Hwf)
    as [[E Hno] | [E | (r & out & E & Hpart & Hwfo & Hw & Hh & Hiff & Henc
                        & Ha & Hb & Hc & Hd)]].
  - rewrite !Hfix by (by rewrite E). rewrite E. simpl. by split_and!.
  - rewrite !Hfix by (by rewrite E). rewrite E. simpl. by split_and!.
  - assert (Hq : croppedRaster thr p = out) by (unfold croppedRaster; by rewrite E).
    rewrite Hq. clear Hq.
    destruct Ha as [ya Ha], Hb as [xb Hb], Hc as [yc Hc], Hd as [xd Hd].
    pose proof (Henc _ _ Ha) as Ea. pose proof (Henc _ _ Hb) as Eb.
    pose proof (Henc _ _ Hc) as Ec. pose proof (Henc _ _ Hd) as Ed.
    assert (Ha' : counted thr out 0 (ya - minY r)).
    { apply Hiff. replace (minX r + 0) with (minX r) by lia.
      replace (minY r + (ya - minY r)) with ya by lia. split_and!; try done; lia. }
    assert (Hb' : counted thr out (xb - minX r) 0).
    { apply Hiff. replace (minY r + 0) with (minY r) by lia.
      replace (minX r + (xb - minX r)) with xb by lia. split_and!; try done; lia. }
    assert (Hc' : counted thr out (width out - 1) (yc - minY r)).
    { apply Hiff. replace (minX r + (width out - 1)) with (maxX r) by lia.
      replace (minY r + (yc - minY r)) with yc by lia. split_and!; try done; lia. }
    assert (Hd' : counted thr out (xd - minX r) (height out - 1)).
    { apply Hiff. replace (minY r + (height out - 1)) with (maxY r) by lia.
      replace (minX r + (xd - minX r)) with xd by lia. split_and!; try done; lia. }
    assert (Hcrop : cropPngToNonTransparent thr out = (Some (wholeRaster out), None)).
    { destruct (crop_cases out Hwfo)
        as [[_ Hno] | [E' | (r' & out' & _ & Hpart' & _ & _ & _ & _ & Henc'
                              & Ha2 & Hb2 & Hc2 & Hd2)]].
      - by destruct (Hno _ _ Ha').
      - done.
      - exfalso. apply Hpart'.
        destruct Ha2 as [? [[? ?] _]], Hb2 as [? [[? ?] _]], Hc2 as [? [[? ?] _]],
          Hd2 as [? [[? ?] _]].
        pose proof (Henc' _ _ Ha'). pose proof (Henc' _ _ Hb').
        pose proof (Henc' _ _ Hc'). pose proof (Henc' _ _ Hd'). lia. }
    rewrite !Hfix by (by rewrite Hcrop). rewrite Hcrop. simpl. by split_and!.
Qed.
End CropTwice.


Lemma content_crop_twice_witness :
  let q := croppedRaster 1 Scenario.rightColumn in
  wfPng Scenario.rightColumn /\ croppedRaster 1 q = q.
Proof.
  assert (H : wfPng Scenario.rightColumn) by (repeat split; vm_compute; congruence).
  split; [exact H |].
  exact (proj1 (proj2 (proj2 (content_crop_twice 1 Scenario.rightColumn H)))).
Defined.

(** ** Border transparency: when there is nothing to do *)

Lemma withinTol_negative tol bg v : tol < 0 -> withinTol tol bg v = false.
Proof. intros H. destruct v as [v|]; simpl; [| done]. apply Z.leb_gt. lia. Qed.

Lemma clearPixel_negative w tol bgR bgG bgB d x y :
  tol < 0 -> clearPixel w tol bgR bgG bgB d x y = d.
Proof.
  intros H. unfold clearPixel. rewrite (withinTol_negative tol bgR) by done. simpl.
  by destruct (byteAt d _) as [[| |]|].
Qed.

Lemma forRows_id {S : Type} (w h : Z) (body : S -> Z -> Z -> S) (s : S) :
  (forall s x y, body s x y = s) -> forRows w h body s = s.
Proof.
  intros H. unfold forRows.
  apply (fold_left_preserves (fun s' => s' = s)); [| done].
  intros a y ->. apply (fold_left_preserves (fun s' => s' = s)); [| done].
  intros a x ->. apply H.
Qed.

(** X7. Border transparency writes nothing exactly when the raster has no pixel
    or no edge pixel that is visible; with a negative tolerance it changes
    no pixel. *)
Theorem border_transparency_nothing_to_do (tol : Z) (p : Png) :
  wfPng p ->
  (makeDominantBorderColorTransparent tol p = None
   <-> width p = 0 \/ height p = 0 \/ edgesCleared p)
  /\ (tol < 0 -> borderTransparent tol p = p).
Proof.
  intros Hwf. split.
  - unfold makeDominantBorderColorTransparent.
    destruct (Z.eqb_spec (width p) 0) as [Hw | Hw]; simpl; [tauto |].
    destruct (Z.eqb_spec (height p) 0) as [Hh | Hh]; simpl; [tauto |].
    assert (Hw' : 0 < width p) by (destruct Hwf as (? & ? & _); lia).
    assert (Hh' : 0 < height p) by (destruct Hwf as (? & ? & _); lia).
    split.
    + intros Hnone. right. right. intros x y Hedge.
      destruct (decide (channel p x y 3 = Some 0)) as [E | E]; [done |].
      pose proof (sampleBorder_nonempty p Hwf x y Hedge E) as Hne.
      pose proof (sampleBorder_sampledFrom p Hwf Hw' Hh') as Hs.
      destruct (pickDominant_some (sampleBorder p) Hne) as (k & c & Hk & _).
      { intros k c Hin. by destruct (Hs k c Hin). }
      rewrite Hk in Hnone. done.
    + intros [? | [? | Hc]]; [lia | lia |].
      by rewrite (sampleBorder_cleared p Hwf Hw' Hh' Hc).
  - intros Htol. unfold borderTransparent, makeDominantBorderColorTransparent.
    destruct (_ || _); [done |].
    destruct (fst _); [| done]. simpl.
    rewrite forRows_id by (intros; by apply clearPixel_negative).
    by destruct p.
Qed.


Lemma border_transparency_nothing_to_do_witness :
  wfPng Scenario.redBlue /\ borderTransparent (-1) Scenario.redBlue = Scenario.redBlue.
Proof.
  assert (H : wfPng Scenario.redBlue) by (repeat split; vm_compute; congruence).
  split; [exact H |].
  exact (proj2 (border_transparency_nothing_to_do (-1) Scenario.redBlue H) ltac:(lia)).
Defined.

(** ** The synthetic raster *)

Section SyntheticFacts.

Local Open Scope R_scope.

Lemma jsRound_mono x y : x <= y -> (jsRound x <= jsRound y)%Z.
Proof.
  intros H. unfold jsRound.
  destruct (base_Int_part (x + / 2)) as [Hx _], (base_Int_part (y + / 2)) as [_ Hy].
  assert (IZR (Int_part (x + / 2)) < IZR (Int_part (y + / 2) + 1)) by (rewrite plus_IZR; lra).
  apply lt_IZR in H0. lia.
Qed.

Lemma jsRound_range x (n : Z) : - / 2 <= x < IZR n + / 2 -> (0 <= jsRound x <= n)%Z.
Proof.
  intros [H0 Hn]. unfold jsRound.
  destruct (base_Int_part (x + / 2)) as [Hx Hy].
  split.
  - assert (IZR (-1) < IZR (Int_part (x + / 2))) by (simpl; lra).
    apply lt_IZR in H. lia.
  - assert (IZR (Int_part (x + / 2)) < IZR (n + 1)) by (rewrite plus_IZR; lra).
    apply lt_IZR in H. lia.
Qed.

Lemma Int_part_IZR z : Int_part (IZR z) = z.
Proof.
  destruct (base_Int_part (IZR z)) as [H1 H2].
  assert (IZR (Int_part (IZR z)) < IZR (z + 1)) by (rewrite plus_IZR; lra).
  assert (IZR (z - 1) < IZR (Int_part (IZR z))) by (rewrite minus_IZR; lra).
  apply lt_IZR in H, H0. lia.
Qed.

Lemma toUint8_int z : (0 <= z <= 255)%Z -> toUint8 (Fin (IZR z)) = z.
Proof.
  intros Hz. unfold toUint8, truncate.
  destruct (Rle_dec 0 (IZR z)) as [_ | Hn].
  - rewrite Int_part_IZR. apply Z.mod_small. lia.
  - exfalso. apply Hn. apply IZR_le. lia.
Qed.

Lemma toUint8_range a : (0 <= toUint8 a <= 255)%Z.
Proof.
  destruct a; simpl; try lia.
  pose proof (Z.mod_pos_bound (truncate r) 256). lia.
Qed.

(** A clamped Number is [NaN] or lies between 0 and 1. *)
Lemma clamp_fin w : clamp (Fin w) (Fin 0) (Fin 1) = Fin (Rmax 0 (Rmin 1 w)).
Proof. reflexivity. Qed.

Lemma clamp_unit v :
  clamp v (Fin 0) (Fin 1) = NaN
  \/ exists c, clamp v (Fin 0) (Fin 1) = Fin c /\ 0 <= c <= 1.
Proof.
  destruct v as [w | | |]; [right | right | right | by left].
  - exists (Rmax 0 (Rmin 1 w)). split; [done |]. split; [apply Rmax_l |].
    apply Rmax_lub; [lra | apply Rmin_l].
  - exists 1. split; [| lra]. unfold clamp. simpl. f_equal. apply Rmax_right. lra.
  - exists 0. split; [done | lra].
Qed.

Lemma clampR_unit w : 0 <= Rmax 0 (Rmin 1 w) <= 1.
Proof. split; [apply Rmax_l |]. apply Rmax_lub; [lra | apply Rmin_l]. Qed.

Lemma clampR_mono w w' : w <= w' -> Rmax 0 (Rmin 1 w) <= Rmax 0 (Rmin 1 w').
Proof. intros H. apply Rle_max_compat_l. by apply Rle_min_compat_l. Qed.

Lemma clampR_small w : w <= / 1000000 -> Rmax 0 (Rmin 1 w) <= / 1000000.
Proof.
  intros H. apply Rmax_lub; [lra |]. etransitivity; [apply Rmin_r | done].
Qed.

Variable ar : Arith.
Hypothesis Hieee : ieee ar.

(** One colour channel: the Number rounded and the integer it is. *)
Lemma channel_of_fin (n : Z) (w : R) :
  (0 <= n <= 256)%Z ->
  exists Z0, fmul ar (Fin (IZR n)) (Fin (Rmax 0 (Rmin 1 w))) = Fin Z0
             /\ IZR n * Rmax 0 (Rmin 1 w) - / 1000000 <= Z0 <= IZR n * Rmax 0 (Rmin 1 w) + / 1000000
             /\ (0 <= jsRound Z0 <= n)%Z.
Proof.
  intros Hn. pose proof (clampR_unit w) as Hc.
  assert (Hn0 : 0 <= IZR n <= 256) by (split; apply IZR_le; lia).
  destruct (mul_near ar Hieee (IZR n) (Rmax 0 (Rmin 1 w))) as (Z0 & E & Hz); [lra | lra |].
  exists Z0. split; [done |]. split; [done |].
  apply jsRound_range. nra.
Qed.

Lemma channel_small (n : Z) (w Z0 : R) :
  (0 <= n <= 256)%Z -> w <= / 1000000 ->
  IZR n * Rmax 0 (Rmin 1 w) - / 1000000 <= Z0 <= IZR n * Rmax 0 (Rmin 1 w) + / 1000000 ->
  (jsRound Z0 <= 0)%Z.
Proof.
  intros Hn Hw Hz. pose proof (clampR_unit w) as Hc. pose proof (clampR_small w Hw) as Hs.
  assert (Hn0 : 0 <= IZR n <= 256) by (split; apply IZR_le; lia).
  assert (H : - / 2 <= Z0 < IZR 0 + / 2) by (simpl; nra).
  apply jsRound_range in H. lia.
Qed.

(** The colours and the alpha of an intensity: black and transparent for
    [NaN]; otherwise bytes, with an alpha of at most 220, and colours where
    blue does not exceed green, nor green red. *)
Lemma syntheticColor_spec (I : JsNum) :
  I = NaN \/ (exists i, I = Fin i /\ 0 <= i <= 1) ->
  let '(r, g, b, a) := syntheticColor ar I in
  (r = NaN /\ g = NaN /\ b = NaN /\ a = NaN)
  \/ exists zr zg zb za : Z,
       r = Fin (IZR zr) /\ g = Fin (IZR zg) /\ b = Fin (IZR zb) /\ a = Fin (IZR za)
       /\ (0 <= zb <= zg)%Z /\ (zg <= zr <= 255)%Z /\ (0 <= za <= 220)%Z.
Proof.
  intros [-> | (i & -> & Hi)]; unfold syntheticColor; cbv zeta.
  - left. rewrite !(sub_nan ar Hieee), !(mul_nan_l ar Hieee). simpl numMax.
    rewrite ?(mul_nan_l ar Hieee). unfold clamp. simpl numMin. simpl numMax.
    rewrite !(mul_nan_r ar Hieee). done.
  - right.
    destruct (lit_near ar Hieee 1.2) as (d12 & E12 & H12); [lra |].
    destruct (lit_near ar Hieee 1.3) as (d13 & E13 & H13); [lra |].
    destruct (lit_near ar Hieee 1.5) as (d15 & E15 & H15); [lra |].
    destruct (lit_near ar Hieee 0.25) as (d25 & E25 & H25); [lra |].
    destruct (lit_near ar Hieee 0.55) as (d55 & E55 & H55); [lra |].
    rewrite E12, E13, E15, E25, E55.
    (* red *)
    destruct (mul_near ar Hieee i d12) as (wr & Er & Hr);
      [lra | lra |].
    rewrite Er, clamp_fin.
    destruct (channel_of_fin 255 wr ltac:(lia)) as (Zr & EZr & HZr & Hzr). rewrite EZr.
    (* green *)
    destruct (sub_near ar Hieee i d25) as (sg & Esg & Hsg);
      [lra | lra |].
    rewrite Esg. simpl numMax.
    assert (Hug : 0 <= Rmax 0 sg <= 1).
    { split; [apply Rmax_l |]. apply Rmax_lub; lra. }
    destruct (mul_near ar Hieee (Rmax 0 sg) d13) as (wg & Eg & Hg);
      [lra | lra |].
    rewrite Eg, clamp_fin.
    destruct (channel_of_fin 255 wg ltac:(lia)) as (Zg & EZg & HZg & Hzg). rewrite EZg.
    (* blue *)
    destruct (sub_near ar Hieee i d55) as (sb & Esb & Hsb);
      [lra | lra |].
    rewrite Esb. simpl numMax.
    assert (Hub : 0 <= Rmax 0 sb <= 1).
    { split; [apply Rmax_l |]. apply Rmax_lub; lra. }
    destruct (mul_near ar Hieee (Rmax 0 sb) d15) as (wb & Eb & Hb);
      [lra | lra |].
    rewrite Eb, clamp_fin.
    destruct (channel_of_fin 255 wb ltac:(lia)) as (Zb & EZb & HZb & Hzb). rewrite EZb.
    (* alpha *)
    destruct (mul_near ar Hieee 220 i) as (Za & Ea & Ha);
      [lra | lra |].
    rewrite Ea. simpl numRound.
    assert (Hza : (0 <= jsRound Za <= 220)%Z) by (apply jsRound_range; lra).
    exists (jsRound Zr), (jsRound Zg), (jsRound Zb), (jsRound Za).
    split_and!; try done; try lia.
    + (* blue does not exceed green *)
      destruct (Rle_dec sb 0) as [Hlow | Hhigh].
      * assert (wb <= / 1000000).
        { rewrite (Rmax_left 0 sb) in Hb by done. lra. }
        pose proof (channel_small 255 wb Zb ltac:(lia) H HZb). lia.
      * apply jsRound_mono.
        apply (mul_mono ar Hieee 255 (Rmax 0 (Rmin 1 wb)) (Rmax 0 (Rmin 1 wg)));
          [lra | | done | done].
        apply clampR_mono.
        rewrite (Rmax_right 0 sb) in Hb by lra.
        rewrite (Rmax_right 0 sg) in Hg by lra.
        assert (sb * d15 <= (i - 0.55 + 2 / 1000000) * (1.5 + / 1000000)).
        { apply Rmult_le_compat; lra. }
        assert ((i - 0.25 - 2 / 1000000) * (1.3 - / 1000000) <= sg * d13).
        { apply Rmult_le_compat; lra. }
        lra.
    + (* green does not exceed red *)
      destruct (Rle_dec sg 0) as [Hlow | Hhigh].
      * assert (wg <= / 1000000).
        { rewrite (Rmax_left 0 sg) in Hg by done. lra. }
        pose proof (channel_small 255 wg Zg ltac:(lia) H HZg). lia.
      * apply jsRound_mono.
        apply (mul_mono ar Hieee 255 (Rmax 0 (Rmin 1 wg)) (Rmax 0 (Rmin 1 wr)));
          [lra | | done | done].
        apply clampR_mono.
        rewrite (Rmax_right 0 sg) in Hg by lra.
        assert (sg * d13 <= (i - 0.25 + 2 / 1000000) * (1.3 + / 1000000)).
        { apply Rmult_le_compat; lra. }
        assert (i * (1.2 - / 1000000) <= i * d12).
        { apply Rmult_le_compat_l; lra. }
        lra.
Qed.

Lemma syntheticIntensity_unit seed x y :
  let I := syntheticIntensity ar seed x y in
  I = NaN \/ (exists i, I = Fin i /\ 0 <= i <= 1).
Proof. cbv zeta. unfold syntheticIntensity. cbv zeta. apply clamp_unit. Qed.

End SyntheticFacts.

Lemma length_newPng w h :
  0 <= 4 * w * h -> Z.of_nat (length (data (newPng w h))) = 4 * w * h.
Proof. intros H. unfold newPng. cbn [data]. rewrite length_replicate. lia. Qed.

Lemma synthetic_fold_inv (ar : Arith) (seed : Z) (d0 : list Z) (n : nat) :
  Z.of_nat (length d0) = 4 * 512 * 512 ->
  Z.of_nat n <= 512 * 512 ->
  let d := fold_left (fun d k => syntheticBody ar seed d (k mod 512) (k / 512))
             (seqZ 0 (Z.of_nat n)) d0 in
  length d = length d0
  /\ forall k c, 0 <= k < Z.of_nat n -> 0 <= c < 4 ->
       byteAt d (4 * k + c)
       = Some (toUint8 (component c (syntheticPixel ar seed (k mod 512) (k / 512)))).
Proof.
  intros Hlen. cbv zeta. induction n as [|n IH]; intros Hn.
  - split; [done | lia].
  - destruct IH as [IHl IHb]; [lia |].
    rewrite seqZ_S, fold_left_app. simpl fold_left. rewrite Z.add_0_l.
    set (d := fold_left _ (seqZ 0 (Z.of_nat n)) d0) in *.
    assert (Hk : 0 <= Z.of_nat n < 512 * 512) by lia.
    assert (HS : Z.of_nat (S n) = Z.of_nat n + 1) by lia. rewrite HS. clear HS Hn.
    clearbody d. remember (Z.of_nat n) as k eqn:Heqk in *. clear Heqk.
    assert (Hdst : jsShl (512 * (k / 512) + k mod 512) 2 = 4 * k).
    { rewrite <- Z.div_mod by lia. apply (pixelIndex_small 1 k 0). lia. }
    unfold syntheticBody. rewrite Hdst.
    destruct (syntheticPixel ar seed (k mod 512) (k / 512)) as [[[r g] b] a] eqn:Epx.
    split; [by rewrite !length_setByte |].
    intros k' c Hk' Hc.
    destruct (decide (k' = k)) as [-> | Hne].
    + rewrite Epx.
      assert (Hc4 : c = 0 \/ c = 1 \/ c = 2 \/ c = 3) by lia.
      destruct Hc4 as [-> | [-> | [-> | ->]]]; simpl component.
      * rewrite !byteAt_setByte_ne, byteAt_setByte_eq by (rewrite ?length_setByte; lia).
        done.
      * rewrite !byteAt_setByte_ne, byteAt_setByte_eq by (rewrite ?length_setByte; lia).
        done.
      * rewrite !byteAt_setByte_ne, byteAt_setByte_eq by (rewrite ?length_setByte; lia).
        done.
      * rewrite byteAt_setByte_eq by (rewrite ?length_setByte; lia). done.
    + rewrite !byteAt_setByte_ne by lia. apply IHb; lia.
Qed.

(** X8. The synthetic raster, for an arithmetic that rounds as binary64 does.
    It is a well-formed 512 x 512 raster of bytes. Each byte is the Number
    the code assigns to it: an integer from 0 to 255 stored as it is, or
    [NaN] stored as 0. The alpha is at most 220, and blue never exceeds
    green, nor green red. *)
Theorem synthetic_raster_content (ar : Arith) (seed : Z) :
  ieee ar ->
  let p := syntheticRaster ar seed in
  wfPng p /\ wfBytes p
  /\ forall x y, inside p x y ->
       let '(r, g, b, a) := syntheticPixel ar seed x y in
       channel p x y 0 = Some (toUint8 r) /\ channel p x y 1 = Some (toUint8 g)
       /\ channel p x y 2 = Some (toUint8 b) /\ channel p x y 3 = Some (toUint8 a)
       /\ Forall (fun n => n = NaN \/ n = Fin (IZR (toUint8 n))) [r; g; b; a]
       /\ 0 <= toUint8 b <= toUint8 g /\ toUint8 g <= toUint8 r <= 255
       /\ 0 <= toUint8 a <= 220.
Proof.
  intros Hieee. cbv zeta.
  pose proof (length_newPng 512 512 ltac:(lia)) as Hlen.
  pose proof (synthetic_fold_inv ar seed (data (newPng 512 512)) (Z.to_nat (512 * 512)) Hlen
                ltac:(lia)) as [Hl Hb].
  rewrite Z2Nat.id in Hb, Hl by lia.
  assert (Hdata : data (syntheticRaster ar seed)
                  = fold_left (fun d k => syntheticBody ar seed d (k mod 512) (k / 512))
                      (seqZ 0 (512 * 512)) (data (newPng 512 512))).
  { unfold syntheticRaster. cbn [data]. apply forRows_flat; lia. }
  assert (Hw : width (syntheticRaster ar seed) = 512) by reflexivity.
  assert (Hh : height (syntheticRaster ar seed) = 512) by reflexivity.
  split_and!.
  - unfold wfPng. rewrite Hw, Hh, Hdata, Hl, Hlen. lia.
  - unfold wfBytes. rewrite Hdata. apply Forall_lookup. intros i v Hi.
    assert (Hi' : (i < length (data (newPng 512 512)))%nat)
      by (rewrite <- Hl; by eapply lookup_lt_Some).
    specialize (Hb (Z.of_nat i / 4) (Z.of_nat i mod 4)).
    rewrite <- Z.div_mod in Hb by lia. rewrite byteAt_lookup, Nat2Z.id, Hi in Hb by lia.
    assert (0 <= Z.of_nat i / 4 < 512 * 512).
    { split; [apply Z.div_pos; lia | apply Z.div_lt_upper_bound; lia]. }
    specialize (Hb ltac:(lia) ltac:(apply Z.mod_pos_bound; lia)).
    injection Hb as ->. apply toUint8_range.
  - intros x y [Hx Hy]. rewrite Hw in Hx. rewrite Hh in Hy.
    pose proof (syntheticColor_spec ar Hieee _ (syntheticIntensity_unit ar seed x y))
      as Hr.
    fold (syntheticPixel ar seed x y) in Hr.
    assert (Hk : 0 <= 512 * y + x < 512 * 512) by lia.
    assert (Hm : (512 * y + x) mod 512 = x).
    { replace (512 * y + x) with (x + y * 512) by lia.
      rewrite Z_mod_plus_full. apply Z.mod_small. lia. }
    assert (Hq : (512 * y + x) / 512 = y).
    { replace (512 * y + x) with (x + y * 512) by lia.
      rewrite Z.div_add by lia. rewrite Z.div_small; lia. }
    assert (Hc : forall c, 0 <= c < 4 ->
              channel (syntheticRaster ar seed) x y c
              = Some (toUint8 (component c (syntheticPixel ar seed x y)))).
    { intros c Hc. unfold channel. rewrite Hw, Hdata, (Hb _ c Hk Hc), Hm, Hq. reflexivity. }
    destruct (syntheticPixel ar seed x y) as [[[r g] b] a].
    rewrite !Hc by lia. simpl component.
    split; [reflexivity |]. split; [reflexivity |].
    split; [reflexivity |]. split; [reflexivity |].
    clear Hlen Hl Hb Hdata Hc.
    destruct Hr as [(-> & -> & -> & ->)
                   | (zr & zg & zb & za & -> & -> & -> & -> & H1 & H2 & H3)].
    + split; [| simpl; lia].
      repeat (apply List.Forall_cons; [left; reflexivity |]). apply List.Forall_nil.
    + rewrite !toUint8_int by lia. split; [| lia].
      repeat (apply List.Forall_cons;
              [right; cbv beta; rewrite toUint8_int by lia; reflexivity |]).
      apply List.Forall_nil.
Qed.

Lemma synthetic_raster_content_witness :
  wfBytes (syntheticRaster exactArith 0).
Proof.
  refine (proj1 (proj2 (synthetic_raster_content exactArith 0 _))).
  constructor; simpl.
  - intros x Hx. exists x. split; [reflexivity | lra].
  - intros a b Ha Hb. eexists. split; [reflexivity | lra].
  - intros a b Ha Hb. eexists. split; [reflexivity | lra].
  - intros a b b' z z' Ha Hb [= <-] [= <-]. by apply Rmult_le_compat_l.
  - reflexivity.
  - reflexivity.
  - intros a. by destruct a.
Defined.

(** ** The bounds of the pipeline *)

Section BoundsFacts.
Local Open Scope R_scope.

Lemma orderedBounds_FRANCE : orderedBounds FRANCE_BOUNDS.
Proof. unfold orderedBounds, FRANCE_BOUNDS. simpl. lra. Qed.

(** Whatever the transform and the rectangle, the bounds of the pipeline
    have their first corner south and west of the second: each side is a
    minimum or a maximum of the same two numbers. *)
Lemma crop_bounds_are_ordered (gt : list R) (crop : Crop) :
  orderedBounds (boundsOfCrop gt crop).
Proof.
  unfold boundsOfCrop, orderedBounds. cbv zeta.
  destruct (geotransformLooksGeographic gt); cbn [fst snd];
    split; (etransitivity; [apply Rmin_l | apply Rmax_l]).
Qed.

End BoundsFacts.


(** ** The extent of a WGS84 ring *)

Section ExtentFacts.

Local Open Scope R_scope.

Lemma numMin_stuck a x :
  a = NaN \/ a = NegInf -> numMin a x = NaN \/ numMin a x = NegInf.
Proof. intros [-> | ->]; destruct x; simpl; auto. Qed.

Lemma numMax_stuck a x :
  a = NaN \/ a = PosInf -> numMax a x = NaN \/ numMax a x = PosInf.
Proof. intros [-> | ->]; destruct x; simpl; auto. Qed.

Lemma extentStuck_step acc p : extentStuck acc -> extentStuck (extendExtent acc p).
Proof.
  destruct acc as [[[a b] c] d], p as [[lon|] [lat|]]; simpl; try done.
  intros [H | [H | [H | H]]].
  - left. by apply numMin_stuck.
  - right. left. by apply numMin_stuck.
  - right. right. left. by apply numMax_stuck.
  - right. right. right. by apply numMax_stuck.
Qed.

Lemma extentOf_more seen p w s e n :
  numericPoint p = false -> extentOf seen w s e n -> extentOf (seen ++ [p]) w s e n.
Proof.
  intros Hp (Henc & (p1 & l1 & H1 & E1) & (p2 & l2 & H2 & E2)
             & (p3 & l3 & H3 & E3) & (p4 & l4 & H4 & E4)).
  split.
  - intros q Hq Hn. apply elem_of_app in Hq as [Hq | Hq]; [by apply Henc |].
    apply list_elem_of_singleton in Hq as ->. congruence.
  - split_and!; [exists p1, l1 | exists p2, l2 | exists p3, l3 | exists p4, l4];
      (split; [apply elem_of_app; by left | done]).
Qed.


Lemma extentInv_step seen acc p :
  extentInv seen acc -> extentInv (seen ++ [p]) (extendExtent acc p).
Proof.
  assert (Hlast : p ∈ seen ++ [p]) by (apply elem_of_app; right; by apply list_elem_of_singleton).
  intros [[-> Hnone] | [(w & s & e & n & -> & Hext) | [Hstuck (q & Hq & Hn & Hf)]]].
  - (* nothing seen yet *)
    destruct p as [[lon|] [lat|]] eqn:Ep; simpl.
    2,3,4: left; split; [done |]; intros q Hq;
      apply elem_of_app in Hq as [Hq | Hq]; [by apply Hnone |];
      apply list_elem_of_singleton in Hq as ->; done.
    destruct lon as [lon| | |], lat as [lat| | |]; simpl.
    1:{ right. left. exists lon, lat, lon, lat. split; [done |]. split.
        - intros q Hq Hn. apply elem_of_app in Hq as [Hq | Hq].
          + rewrite Hnone in Hn by done. done.
          + apply list_elem_of_singleton in Hq as ->. exists lon, lat. simpl.
            split; [done | lra].
        - split_and!; eexists _, _; (split; [exact Hlast | done]). }
    all: right; right; split; [simpl; tauto |]; eexists; split; [exact Hlast |]; done.
  - (* a box so far *)
    destruct p as [[lon|] [lat|]] eqn:Ep; simpl.
    2,3,4: right; left; exists w, s, e, n; split; [done |]; by apply extentOf_more.
    destruct lon as [lon| | |], lat as [lat| | |]; simpl.
    1:{ right. left. exists (Rmin w lon), (Rmin s lat), (Rmax e lon), (Rmax n lat).
        split; [done |].
        destruct Hext as (Henc & (p1 & l1 & H1 & E1) & (p2 & l2 & H2 & E2)
                          & (p3 & l3 & H3 & E3) & (p4 & l4 & H4 & E4)).
        pose proof (Rmin_l w lon). pose proof (Rmin_r w lon).
        pose proof (Rmin_l s lat). pose proof (Rmin_r s lat).
        pose proof (Rmax_l e lon). pose proof (Rmax_r e lon).
        pose proof (Rmax_l n lat). pose proof (Rmax_r n lat).
        split.
        - intros q Hq Hn. apply elem_of_app in Hq as [Hq | Hq].
          + destruct (Henc q Hq Hn) as (x & y & Hf & Hx & Hy).
            exists x, y. split; [done |]. lra.
          + apply list_elem_of_singleton in Hq as ->. exists lon, lat. simpl.
            split; [done |]. lra.
        - split_and!.
          + apply Rmin_case; [exists p1, l1 | exists (Num (Fin lon), Num (Fin lat)), lat];
              (split; [try (apply elem_of_app; by left); done | done]).
          + apply Rmin_case; [exists p2, l2 | exists (Num (Fin lon), Num (Fin lat)), lon];
              (split; [try (apply elem_of_app; by left); done | done]).
          + apply Rmax_case; [exists p3, l3 | exists (Num (Fin lon), Num (Fin lat)), lat];
              (split; [try (apply elem_of_app; by left); done | done]).
          + apply Rmax_case; [exists p4, l4 | exists (Num (Fin lon), Num (Fin lat)), lon];
              (split; [try (apply elem_of_app; by left); done | done]). }
    all: right; right; split; [simpl; tauto |]; eexists; split; [exact Hlast |]; done.
  - right. right. split; [by apply extentStuck_step |].
    exists q. split; [apply elem_of_app; by left | done].
Qed.

Lemma extentInv_fold ring seen acc :
  extentInv seen acc -> extentInv (seen ++ ring) (fold_left extendExtent ring acc).
Proof.
  revert seen acc. induction ring as [|p ring IH]; intros seen acc H; simpl.
  - by rewrite app_nil_r.
  - replace (seen ++ p :: ring) with ((seen ++ [p]) ++ ring) by (by rewrite <- app_assoc).
    apply IH. by apply extentInv_step.
Qed.

(** X10. The bounds of a ring are those of its points whose two members are
    numbers: the smallest box around them, each side touched by one of
    them. There are none when the argument has no ring, when no point of
    the ring has two numbers, and when one of them has a member that is not
    finite. *)
Theorem wgs84_extent_bounds (ring : list (Member * Member)) :
  boundsFromWgs84Extent None = None
  /\ match boundsFromWgs84Extent (Some ring) with
     | Some ((s, w), (n, e)) => extentOf ring w s e n
     | None =>
         (forall p, p ∈ ring -> numericPoint p = false)
         \/ (exists p, p ∈ ring /\ numericPoint p = true /\ finitePoint p = None)
     end.
Proof.
  split; [done |]. unfold boundsFromWgs84Extent.
  pose proof (extentInv_fold ring [] (PosInf, PosInf, NegInf, NegInf)) as H.
  rewrite app_nil_l in H.
  destruct H as [[-> Hnone] | [(w & s & e & n & -> & Hext) | [Hstuck Hbad]]].
  - left. split; [done |]. intros p Hp. by apply elem_of_nil in Hp.
  - by left.
  - done.
  - destruct (fold_left _ _ _) as [[[a b] c] d].
    destruct a, b, c, d; try (by right).
    simpl in Hstuck. 
    destruct Hstuck as [[? | ?] | [[? | ?] | [[? | ?] | [? | ?]]]]; discriminate.
Qed.

End ExtentFacts.

(** ** Files and the conversion pipeline: what is published *)

Section FileFacts.


End FileFacts.

Section PublishFacts.

Variable cfg : Config.
Variable rt : Runtime.
Variable final : jsstring.
















End PublishFacts.

Section ConversionFacts.

Variable cfg : Config.
Variable rt : Runtime.
Variable gribPath : jsstring.
Variable paths : Paths.
Lemma tryCandidate_ok_bounds m env r env' :
  tryCandidate cfg rt gribPath paths m env = (Ok r, env') ->
  c_bounds r = FRANCE_BOUNDS \/ exists gt crop, c_bounds r = boundsOfCrop gt crop.
Proof.
  unfold tryCandidate. intros H.
  repeat (apply bind_ok_inv in H as (? & ? & _ & H)).
  destruct (parseGeoTransform rt _) as [[gt|]|e]; try discriminate.
  destruct (_ <? _)%nat; [discriminate |].
  apply bind_ok_inv in H as ([crop|] & ? & _ & H);
    apply bind_ok_inv in H as (? & ? & _ & H); injection H as <- _; simpl; eauto.
Qed.

Lemma conversion_ok_ordered matchExprs env r env' :
  convertGribToPngViaPipeline cfg rt gribPath matchExprs paths env = (Ok r, env') ->
  orderedBounds (c_bounds r).
Proof.
  unfold convertGribToPngViaPipeline. destruct (negb _); [discriminate |].
  pose proof (tryCandidates_spec cfg rt gribPath paths (effectiveMatches cfg matchExprs)
                None env) as H.
  destruct (tryCandidates _ _ _ _ _ _ _) as [[res|lastErr] env1]; [| discriminate].
  intros [= -> ->].
  destruct H as (pre & post & env0 & le & _ & _ & Ht & _).
  destruct (tryCandidate_ok_bounds _ _ _ _ Ht) as [-> | (gt & crop & ->)];
    [apply orderedBounds_FRANCE | apply crop_bounds_are_ordered].
Qed.

Hypothesis tmp_ne : overlayTmpPng paths <> overlayPng paths.



Hypothesis info_keeps : infoKeeps rt (overlayTmpPng paths).



Hypothesis tools_keep : toolsKeep rt (overlayPng paths).
Hypothesis nc_ne : capeNc paths <> overlayPng paths.




End ConversionFacts.

Section EarlyStop.
Variable cfg : Config.
Variable rt : Runtime.

(** X14. A candidate for which [wgrib2] fails, or leaves no NetCDF file of 200
    bytes at least, is given up at once: the attempt throws, and it has run
    [wgrib2] and nothing else, so that no GDAL command runs and no raster is
    read or written. *)
Theorem candidate_without_field_stops_early (gribPath : jsstring) (paths : Paths)
  (m : jsstring) (env : Env) :
  let env0 := snd (tryCatch (unlink (capeNc paths)) (fun _ => ret tt) env) in
  let ran := runCmd rt Wgrib2 (wgrib2Args gribPath paths m) env0 in
  (forall out file, fst ran = Ok out -> fs (snd ran) !! capeNc paths = Some file ->
                    fileSize file < 200) ->
  (exists e, tryCandidate cfg rt gribPath paths m env = (Throw e, snd ran))
  /\ trace (snd ran)
     = trace env ++ [ActUnlink (capeNc paths);
                     ActRun Wgrib2 (wgrib2Args gribPath paths m)].
Proof.
  cbv zeta. intros Hsmall. split.
  - unfold tryCandidate. unfold bind at 1.
    destruct (tryCatch (unlink (capeNc paths)) (fun _ => ret tt) env) as [[[]|e0] env0] eqn:E0.
    2:{ exfalso. revert E0. unfold tryCatch, unlink, ret.
        by destruct (fs env !! capeNc paths). }
    simpl in Hsmall |- *. unfold bind at 1. fold (wgrib2Args gribPath paths m).
    destruct (runCmd rt Wgrib2 (wgrib2Args gribPath paths m) env0) as [[out|e] env1] eqn:E1;
      simpl in *; [| eauto].
    unfold bind at 1, ensureNonEmptyFile.
    destruct (fs env1 !! capeNc paths) as [file|] eqn:Ef; [| eauto].
    specialize (Hsmall out file eq_refl eq_refl).
    destruct (Z.ltb_spec (fileSize file) 200); [| lia].
    rewrite orb_true_r. eauto.
  - unfold runCmd, tryCatch, unlink, ret.
    destruct (fs env !! capeNc paths); simpl;
      destruct (runTool rt Wgrib2 _ _ _) as [res f1]; simpl; by rewrite <- app_assoc.
Qed.
End EarlyStop.




Lemma candidate_without_field_stops_early_witness :
  let paths := q_paths Scenario.rq08 in
  exists e env',
    tryCandidate Scenario.cfg Scenario.failingTools (q_gribPath Scenario.rq08) paths
      (js ":RPRATE:") Scenario.freshEnv = (Throw e, env')
    /\ length (trace env') = 2%nat.
Proof.
  cbv zeta.
  pose proof (candidate_without_field_stops_early Scenario.cfg Scenario.failingTools
                (q_gribPath Scenario.rq08) (q_paths Scenario.rq08) (js ":RPRATE:")
                Scenario.freshEnv) as H.
  cbv zeta in H. destruct H as [[e He] Ht].
  - intros out file Hout. vm_compute in Hout. discriminate.
  - exists e. eexists. split; [exact He |]. rewrite Ht. reflexivity.
Defined.

(** ** Orchestrator: how the entries change *)

Section Evolution.

Variable cfg : Config.
Variable rt : Runtime.

Lemma evolves_refl w : evolves cfg rt w w.
Proof. split; [done |]. intros k. apply rtc_refl. Qed.

Lemma evolves_trans w1 w2 w3 :
  evolves cfg rt w1 w2 -> evolves cfg rt w2 w3 -> evolves cfg rt w1 w3.
Proof.
  intros [Hc1 H1] [Hc2 H2]. split; [congruence |].
  intros k. etrans; [apply H1 |]. rewrite <- Hc1. apply H2.
Qed.

Lemma evolves_frame w w' :
  clock w' = clock w -> caches w' = caches w -> evolves cfg rt w w'.
Proof. intros Hc Hk. split; [done |]. intros k. unfold entryAt. rewrite Hk. apply rtc_refl. Qed.

Lemma entryOf_entryAt rq w : entryOf rq w = entryAt (cacheKey (q_key rq)) w.
Proof. done. Qed.

Lemma evolves_setEntry rq e w :
  rtc (entryStep cfg rt (clock w)) (entryOf rq w) e -> evolves cfg rt w (setEntry rq e w).
Proof.
  intros H. split; [done |]. intros k. unfold entryAt, setEntry. simpl.
  destruct (decide (cacheKey (q_key rq) = k)) as [<- | Hne].
  - rewrite lookup_insert_eq. exact H.
  - rewrite lookup_insert_ne by done. apply rtc_refl.
Qed.

Lemma evolves_setTask tid rq t w : evolves cfg rt w (setTask tid rq t w).
Proof. by apply evolves_frame. Qed.

Lemma evolves_startRequest rq w : evolves cfg rt w (startRequest rq w).
Proof.
  split; [done |]. intros k. unfold entryAt, startRequest, getCacheForKey.
  cbn [caches setTasks setCaches].
  destruct (caches w !! cacheKey (q_key rq)) eqn:E; cbn [fst]; [apply rtc_refl |].
  destruct (decide (cacheKey (q_key rq) = k)) as [<- | Hne].
  - rewrite lookup_insert_eq, E. apply rtc_refl.
  - rewrite lookup_insert_ne by done. apply rtc_refl.
Qed.

Lemma evolves_awaitInflight tid rq pid w : evolves cfg rt w (awaitInflight tid rq pid w).
Proof.
  unfold awaitInflight. destruct (promises w !! pid) as [[? []]|]; apply evolves_setTask.
Qed.

Lemma evolves_afterProbes tid rq now mtime prev h1 h2 h3 w :
  evolves cfg rt w (afterProbes cfg rt tid rq now mtime prev h1 h2 h3 w).
Proof.
  unfold afterProbes.
  set (cache := setPipelineAvailable _ (entryOf rq w)).
  assert (H1 : evolves cfg rt w (setEntry rq cache w)).
  { apply evolves_setEntry, rtc_once. constructor. }
  assert (Hent : entryOf rq (setEntry rq cache w) = cache).
  { unfold entryOf, setEntry. simpl. by rewrite lookup_insert_eq. }
  destruct (regenerationWarranted _ _ _ _ _).
  - destruct (conversionsInFlight _ !! _).
    + eapply evolves_trans; [exact H1 | apply evolves_awaitInflight].
    + eapply evolves_trans; [exact H1 |]. by apply evolves_frame.
  - destruct (_ && _).
    + eapply evolves_trans; [exact H1 |].
      eapply evolves_trans;
        [apply (evolves_setEntry rq (onMissingSource rq (clock w) cache)
                  (setEntry rq cache w)) |].
      * rewrite Hent. apply rtc_once. constructor.
      * by apply evolves_frame.
    + destruct (_ && _).
      * eapply evolves_trans; [exact H1 |].
        eapply evolves_trans;
          [apply (evolves_setEntry rq
                    (onToolsMissing (missingTools h1 h2 h3) mtime (clock w) cache)
                    (setEntry rq cache w)) |].
        -- rewrite Hent. apply rtc_once. constructor.
        -- by apply evolves_frame.
      * eapply evolves_trans; [exact H1 | apply evolves_setTask].
Qed.

Lemma evolves_resumeInitiator tid rq pid mtime res w :
  converted cfg rt res -> evolves cfg rt w (resumeInitiator rt tid rq pid mtime res w).
Proof.
  intros Hres. destruct res as [r | e]; simpl.
  - destruct (Hres r eq_refl) as (rq0 & env0 & env1 & Hc).
    eapply evolves_trans;
      [apply (evolves_setEntry rq (onSuccess rq r mtime (clock w) (entryOf rq w)) w) |].
    + apply rtc_once. econstructor. exact Hc.
    + by apply evolves_frame.
  - eapply evolves_trans;
      [apply (evolves_setEntry rq (onFailure e mtime (clock w) (entryOf rq w)) w) |].
    + apply rtc_once. constructor.
    + by apply evolves_frame.
Qed.

Lemma evolves_resumeWaiter tid rq res w : evolves cfg rt w (resumeWaiter tid rq res w).
Proof. destruct res; apply evolves_setTask. Qed.

Lemma evolves_settle pid w w' : settle cfg rt pid w = Some w' -> evolves cfg rt w w'.
Proof.
  unfold settle. destruct (promises w !! pid) as [[rq []]|]; try discriminate.
  destruct (convertGribToPngViaPipeline _ _ _ _ _ _) as [res env'] eqn:Hc.
  intros [= <-].
  assert (Hres : converted cfg rt res) by (intros r ->; eauto).
  unfold resumeWaiters, resumeInitiators.
  apply (fold_left_preserves (evolves cfg rt w)).
  { intros a tid Ha. destruct (tasks a !! tid) as [[? []]|]; try done.
    destruct (_ =? _)%nat; [| done].
    eapply evolves_trans; [exact Ha | apply evolves_resumeWaiter]. }
  apply (fold_left_preserves (evolves cfg rt w)).
  { intros a tid Ha. destruct (tasks a !! tid) as [[? []]|]; try done.
    destruct (_ =? _)%nat; [| done].
    eapply evolves_trans; [exact Ha | by apply evolves_resumeInitiator]. }
  by apply evolves_frame.
Qed.

Lemma evolves_ioDone tid w w' : ioDone rt tid w = Some w' -> evolves cfg rt w w'.
Proof.
  unfold ioDone. destruct (tasks w !! tid) as [[rq []]|]; try discriminate.
  - destruct (writeFails rt _ _); intros [= <-]; by apply evolves_frame.
  - intros [= <-]. by apply evolves_frame.
  - destruct (rename _ _ _) as [[] env']; intros [= <-]; by apply evolves_frame.
  - destruct (writeFails rt _ _); intros [= <-]; by apply evolves_frame.
Qed.

(** A step that is not the passing of time. *)
Lemma evolves_step w ev w' :
  step cfg rt w ev = Some w' -> (forall dt, ev <> EvTick dt) -> evolves cfg rt w w'.
Proof.
  destruct ev as [rq | tid mtime | tid found | pid | tid | dt]; simpl; intros H Hev.
  - injection H as <-. apply evolves_startRequest.
  - destruct (tasks w !! tid) as [[rq []]|]; try discriminate.
    injection H as <-. apply evolves_setTask.
  - destruct (tasks w !! tid) as [[rq []]|]; try discriminate; injection H as <-.
    + apply evolves_setTask.
    + apply evolves_setTask.
    + apply evolves_afterProbes.
  - by eapply evolves_settle.
  - by eapply evolves_ioDone.
  - by destruct (Hev dt).
Qed.


End Evolution.

Section EntryFacts.

Variable cfg : Config.
Variable rt : Runtime.

Lemma entryStep_ok now e e' : entryStep cfg rt now e e' -> entryOk e -> entryOk e'.
Proof.
  intros H [Hb Hs]. destruct H; split; simpl; try done.
  - by eapply conversion_ok_ordered.
  - apply orderedBounds_FRANCE.
  - apply orderedBounds_FRANCE.
  - apply orderedBounds_FRANCE.
Qed.

Lemma entrySteps_ok now e e' :
  rtc (entryStep cfg rt now) e e' -> entryOk e -> entryOk e'.
Proof. induction 1; [done |]. intros. apply IHrtc. by eapply entryStep_ok. Qed.

Lemma entryStep_stamped now e e' :
  entryStep cfg rt now e e' -> stamped now e ->
  stamped now e' /\ updatedAt e <= updatedAt e'.
Proof. intros H [H1 H2]. destruct H; unfold stamped; simpl; lia. Qed.

Lemma entrySteps_stamped now e e' :
  rtc (entryStep cfg rt now) e e' -> stamped now e ->
  stamped now e' /\ updatedAt e <= updatedAt e'.
Proof.
  induction 1 as [e | e1 e2 e3 H12 _ IH]; [intros; split; [done | lia] |].
  intros H1. destruct (entryStep_stamped _ _ _ H12 H1) as [H2 Hle].
  destruct (IH H2) as [H3 Hle']. split; [done | lia].
Qed.

Lemma entryAt_setClock k c w : entryAt k (setClock c w) = entryAt k w.
Proof. done. Qed.

(** What a step does to the entries and to the clock. *)
Lemma step_entries w ev w' :
  step cfg rt w ev = Some w' ->
  clock w <= clock w'
  /\ forall k, rtc (entryStep cfg rt (clock w)) (entryAt k w) (entryAt k w').
Proof.
  intros Hs. destruct ev as [rq | tid mtime | tid found | pid | tid | dt].
  6:{ simpl in Hs. destruct (Z.leb_spec 0 dt); [| discriminate]. injection Hs as <-.
      simpl. split; [lia |]. intros k. apply rtc_refl. }
  all: destruct (evolves_step cfg rt w _ w' Hs) as [Hc He]; [done |];
    split; [lia | done].
Qed.

Lemma run_invariant (P : World -> Prop) evs w w' :
  (forall w ev w', step cfg rt w ev = Some w' -> P w -> P w') ->
  run cfg rt w evs = Some w' -> P w -> P w'.
Proof.
  intros Hstep. revert w. induction evs as [|ev evs IH]; simpl; intros w.
  - by intros [= <-].
  - destruct (step cfg rt w ev) eqn:E; [| discriminate].
    intros Hr Hw. eapply IH; [done |]. by eapply Hstep.
Qed.

(** X19. Every entry the meta route can report has its south-west corner south
    and west of the other one, and an entry whose artifact comes from the
    toolchain has no error on record. *)
Theorem entries_are_well_formed (w : World) (k : jsstring) (e : CacheEntry) :
  reachable cfg rt w ->
  caches w !! k = Some e ->
  orderedBounds (bounds e) /\ (source e = SrcWgrib2 -> lastErrorAt e = 0).
Proof.
  intros (t0 & e0 & evs & Hrun) Hk.
  assert (H : forall k, entryOk (entryAt k w)).
  { eapply (run_invariant (fun w => forall k, entryOk (entryAt k w))); [| exact Hrun |].
    - intros w1 ev w2 Hs H1 k'. destruct (step_entries _ _ _ Hs) as [_ He].
      eapply entrySteps_ok; [apply He | apply H1].
    - intros k'. unfold entryAt, initialWorld. simpl. rewrite lookup_empty. simpl.
      split; [apply orderedBounds_FRANCE | done]. }
  specialize (H k). unfold entryAt in H. by rewrite Hk in H.
Qed.

Lemma stamped_later now now' e : now <= now' -> stamped now e -> stamped now' e.
Proof. unfold stamped. lia. Qed.

Lemma timely_step w ev w' :
  step cfg rt w ev = Some w' -> timely w ->
  timely w' /\ forall k, updatedAt (entryAt k w) <= updatedAt (entryAt k w').
Proof.
  intros Hs [Hc Hst]. destruct (step_entries _ _ _ Hs) as [Hle He].
  split; [split; [lia |] |]; intros k;
    destruct (entrySteps_stamped _ _ _ (He k) (Hst k)) as [H1 H2]; [| done].
  by eapply stamped_later.
Qed.

Lemma timely_run evs w w' :
  run cfg rt w evs = Some w' -> timely w ->
  timely w' /\ forall k, updatedAt (entryAt k w) <= updatedAt (entryAt k w').
Proof.
  revert w. induction evs as [|ev evs IH]; simpl; intros w.
  - intros [= <-] H. split; [done |]. intros; lia.
  - destruct (step cfg rt w ev) as [w1|] eqn:E; [| discriminate].
    intros Hr Hw. destruct (timely_step _ _ _ E Hw) as [H1 Hle1].
    destruct (IH _ Hr H1) as [H2 Hle2]. split; [done |].
    intros k. specialize (Hle1 k). specialize (Hle2 k). lia.
Qed.

(** X20. Time stamps. With a clock that starts at a time that is not negative,
    the [updatedAt] of a key never decreases, and neither it nor the time of
    the last error is ahead of the clock. *)
Theorem updatedAt_never_decreases (t0 : Z) (e0 : Env) (evs evs' : list Event)
  (w w' : World) (k : jsstring) :
  0 <= t0 ->
  run cfg rt (initialWorld t0 e0) evs = Some w ->
  run cfg rt w evs' = Some w' ->
  updatedAt (entryAt k w) <= updatedAt (entryAt k w')
  /\ updatedAt (entryAt k w') <= clock w'
  /\ 0 <= lastErrorAt (entryAt k w') <= clock w'.
Proof.
  intros Ht0 Hrun Hrun'.
  assert (H0 : timely (initialWorld t0 e0)).
  { split; [done |]. intros k'. unfold entryAt, initialWorld, stamped. simpl.
    rewrite lookup_empty. simpl. lia. }
  destruct (timely_run _ _ _ Hrun H0) as [Hw _].
  destruct (timely_run _ _ _ Hrun' Hw) as [[_ Hw'] Hle].
  specialize (Hw' k). specialize (Hle k). unfold stamped in Hw'. lia.
Qed.

End EntryFacts.

(** ** Orchestrator: progress *)

Section Progress.

Variable cfg : Config.
Variable rt : Runtime.

Lemma tasks_setTask tid rq t w :
  (tid < length (tasks w))%nat -> tasks (setTask tid rq t w) !! tid = Some (rq, t).
Proof. intros H. unfold setTask. simpl. by apply list_lookup_insert_eq. Qed.

Lemma awaitInflight_task tid rq pid w :
  (tid < length (tasks w))%nat ->
  exists t', tasks (awaitInflight tid rq pid w) !! tid = Some (rq, t')
             /\ (remaining t' <= 1)%nat.
Proof.
  intros H. unfold awaitInflight.
  destruct (promises w !! pid) as [[? []]|]; rewrite tasks_setTask by done;
    eexists; (split; [done |]); simpl; lia.
Qed.

Lemma afterProbes_task tid rq now mtime prev h1 h2 h3 w :
  (tid < length (tasks w))%nat ->
  exists t', tasks (afterProbes cfg rt tid rq now mtime prev h1 h2 h3 w) !! tid
             = Some (rq, t')
             /\ (remaining t' <= 4)%nat.
Proof.
  intros H. unfold afterProbes.
  destruct (regenerationWarranted _ _ _ _ _).
  - destruct (conversionsInFlight _ !! _).
    + destruct (awaitInflight_task tid rq n (setEntry rq
                  (setPipelineAvailable (bool_decide (missingTools h1 h2 h3 = []))
                     (entryOf rq w)) w) H) as (t' & Ht & Hr).
      exists t'. split; [done | lia].
    + rewrite tasks_setTask by done. eexists. split; [done |]. simpl. lia.
  - repeat (destruct (_ && _)); rewrite tasks_setTask by done;
      eexists; (split; [done |]); simpl; lia.
Qed.

Lemma settle_enabled pid rq w :
  promises w !! pid = Some (rq, Pending) -> exists w', settle cfg rt pid w = Some w'.
Proof.
  intros Hp. unfold settle. rewrite Hp.
  destruct (convertGribToPngViaPipeline _ _ _ _ _ _). eauto.
Qed.

Lemma settle_tasks pid w w' :
  singleFlight w -> settle cfg rt pid w = Some w' ->
  exists rq0 tid0 mtime s0,
    tasks w !! tid0 = Some (rq0, AwaitConversion pid mtime)
    /\ (remaining s0 <= 3)%nat
    /\ tasks w' !! tid0 = Some (rq0, s0)
    /\ forall tid rq, tasks w !! tid = Some (rq, AwaitInflight pid) ->
         exists t', tasks w' !! tid = Some (rq, t') /\ remaining t' = 0%nat.
Proof.
  intros Hsf Hs.
  destruct (settle_inv _ _ _ _ _ Hs Hsf) as (rq0 & tid0 & mtime & res & env' & Hp & H0 & Hc & ->).
  assert (Hlt0 : (tid0 < length (tasks w))%nat) by (by eapply lookup_lt_Some).
  match goal with
  | |- context [resumeWaiters pid res ?w2] =>
      destruct (resumeWaiters_spec pid res w2) as (_ & _ & _ & _ & _ & Et)
  end.
  exists rq0, tid0, mtime.
  exists (match res with
          | Ok r => Returned (onSuccess rq0 r mtime (clock w) (entryOf rq0 w))
          | Throw e => AwaitFallbackWrite pid (syntheticPng rt (clock w))
          end).
  split; [done |]. split; [destruct res; simpl; lia |]. split.
  - rewrite Et. destruct res; simpl; rewrite list_lookup_insert_eq by done; simpl;
      [| done].
    unfold entryOf. simpl. by rewrite lookup_insert_eq.
  - intros tid rq Ht.
    assert (Hne : tid0 <> tid) by (intros ->; rewrite H0 in Ht; done).
    rewrite Et. destruct res; simpl; rewrite list_lookup_insert_ne, Ht by done; simpl;
      rewrite Nat.eqb_refl; eexists; done.
Qed.

(** X21. No call can get stuck. In every world the process can reach, a call
    that has neither returned nor thrown awaits an answer that can come, and
    that answer brings it strictly closer to its end, on a scale of eight
    steps. *)
Theorem every_call_can_proceed (w : World) (tid : nat) (rq : Request) (t : Task) :
  reachable cfg rt w ->
  tasks w !! tid = Some (rq, t) ->
  remaining t <> 0%nat ->
  exists ev w' t',
    step cfg rt w ev = Some w'
    /\ tasks w' !! tid = Some (rq, t')
    /\ (remaining t' < remaining t)%nat.
Proof.
  intros Hr Ht Hrem. apply singleFlight_reachable in Hr as Hsf.
  assert (Hlt : (tid < length (tasks w))%nat) by (by eapply lookup_lt_Some).
  destruct t; try done.
  - exists (EvMtime tid None). eexists _, _. simpl. rewrite Ht.
    split; [done |]. rewrite tasks_setTask by done. split; [done |]. simpl. lia.
  - exists (EvHasCmd tid true). eexists _, _. simpl. rewrite Ht.
    split; [done |]. rewrite tasks_setTask by done. split; [done |]. simpl. lia.
  - exists (EvHasCmd tid true). eexists _, _. simpl. rewrite Ht.
    split; [done |]. rewrite tasks_setTask by done. split; [done |]. simpl. lia.
  - destruct (afterProbes_task tid rq now mtime prev hasWgrib2 hasGdalwarp true w Hlt)
      as (t' & Ht' & Hle).
    exists (EvHasCmd tid true). eexists _, t'. simpl. rewrite Ht.
    split; [done |]. split; [done |]. simpl. lia.
  - destruct (sf_waiter w Hsf _ _ _ Ht) as (rq' & Hp & _).
    destruct (settle_enabled _ _ _ Hp) as [w' Hs].
    destruct (settle_tasks _ _ _ Hsf Hs) as (_ & _ & _ & _ & _ & _ & _ & Hw).
    destruct (Hw _ _ Ht) as (t' & Ht' & Hz).
    exists (EvSettle pid), w', t'. simpl. split; [done |]. split; [done | lia].
  - destruct (sf_owner w Hsf _ _ _ pid Ht eq_refl) as (_ & st & Hp & ->).
    destruct (settle_enabled _ _ _ Hp) as [w' Hs].
    destruct (settle_tasks _ _ _ Hsf Hs) as (rq0 & tid0 & mt0 & s0 & H0 & Hle & Hs0 & _).
    assert (tid = tid0) as <- by (by eapply (sf_unique w Hsf tid tid0)).
    rewrite Ht in H0. injection H0 as <- <-.
    exists (EvSettle pid), w', s0. simpl. split; [done |]. split; [done | lia].
  - exists (EvIoDone tid). simpl. unfold ioDone. rewrite Ht.
    destruct (writeFails rt _ _); eexists _, _;
      (split; [done |]); rewrite tasks_setTask by done; (split; [done |]); simpl; lia.
  - exists (EvIoDone tid). eexists _, _. simpl. unfold ioDone. rewrite Ht.
    split; [done |]. rewrite tasks_setTask by done. split; [done |]. simpl. lia.
  - exists (EvIoDone tid). simpl. unfold ioDone. rewrite Ht.
    destruct (rename _ _ _) as [[] env']; eexists _, _;
      (split; [done |]); rewrite tasks_setTask by done; (split; [done |]); simpl; lia.
  - exists (EvIoDone tid). simpl. unfold ioDone. rewrite Ht.
    destruct (writeFails rt _ _); eexists _, _;
      (split; [done |]); rewrite tasks_setTask by done; (split; [done |]); simpl; lia.
Qed.

End Progress.

(** ** Orchestrator: the registry is released *)

Section Registry.

Variable cfg : Config.
Variable rt : Runtime.

Lemma registeredOwned_setTask w w' tid rq told t' :
  registeredOwned w ->
  tasks w !! tid = Some (rq, told) ->
  (forall pid, owned told = Some pid -> owned t' = Some pid) ->
  conversionsInFlight w' = conversionsInFlight w ->
  tasks w' = <[tid := (rq, t')]> (tasks w) ->
  registeredOwned w'.
Proof.
  intros Hro Ht Hown Ef Et key pid Hk. rewrite Ef in Hk.
  destruct (Hro key pid Hk) as (tid1 & rq1 & t1 & H1 & Ho).
  assert (Hlt : (tid < length (tasks w))%nat) by (by eapply lookup_lt_Some).
  destruct (decide (tid1 = tid)) as [-> | Hne].
  - rewrite Ht in H1. injection H1 as <- <-.
    exists tid, rq, t'. rewrite Et, list_lookup_insert_eq by done. auto.
  - exists tid1, rq1, t1. rewrite Et, list_lookup_insert_ne by done. done.
Qed.

Lemma registeredOwned_register w w' tid rq told t' pid :
  registeredOwned w ->
  tasks w !! tid = Some (rq, told) ->
  owned told = None ->
  owned t' = Some pid ->
  conversionsInFlight w' = <[q_key rq := pid]> (conversionsInFlight w) ->
  tasks w' = <[tid := (rq, t')]> (tasks w) ->
  registeredOwned w'.
Proof.
  intros Hro Ht Hnone Hown Ef Et key pid' Hk. rewrite Ef in Hk.
  assert (Hlt : (tid < length (tasks w))%nat) by (by eapply lookup_lt_Some).
  destruct (decide (q_key rq = key)) as [<- | Hne].
  - rewrite lookup_insert_eq in Hk. injection Hk as <-.
    exists tid, rq, t'. rewrite Et, list_lookup_insert_eq by done. done.
  - rewrite lookup_insert_ne in Hk by done.
    destruct (Hro key pid' Hk) as (tid1 & rq1 & t1 & H1 & Ho).
    assert (tid1 <> tid) by (intros ->; rewrite Ht in H1; injection H1 as <- <-; congruence).
    exists tid1, rq1, t1. rewrite Et, list_lookup_insert_ne by done. done.
Qed.

Lemma registeredOwned_startRequest rq w :
  registeredOwned w -> registeredOwned (startRequest rq w).
Proof.
  intros Hro key pid Hk. unfold startRequest in *. simpl in *.
  destruct (Hro key pid Hk) as (tid1 & rq1 & t1 & H1 & Ho).
  exists tid1, rq1, t1. split; [| done]. by apply lookup_app_l_Some.
Qed.

Lemma registeredOwned_afterProbes tid rq t0 now mtime prev h1 h2 h3 w :
  registeredOwned w -> tasks w !! tid = Some (rq, t0) -> owned t0 = None ->
  registeredOwned (afterProbes cfg rt tid rq now mtime prev h1 h2 h3 w).
Proof.
  intros Hro Ht Hnone. unfold afterProbes.
  destruct (regenerationWarranted _ _ _ _ _).
  - destruct (conversionsInFlight _ !! _) eqn:Ef.
    + unfold awaitInflight. simpl.
      destruct (promises w !! n) as [[? []]|];
        (eapply registeredOwned_setTask; [exact Hro | exact Ht | | done | done]);
        intros pid; rewrite Hnone; congruence.
    + eapply registeredOwned_register; [exact Hro | exact Ht | exact Hnone | | done | done].
      done.
  - repeat (destruct (_ && _));
      (eapply registeredOwned_setTask; [exact Hro | exact Ht | | done | done]);
      intros pid; rewrite Hnone; congruence.
Qed.

Lemma owned_not_waiting t pid pid' : owned t = Some pid -> t <> AwaitInflight pid'.
Proof. by destruct t. Qed.

Lemma registeredOwned_settle pid w w' :
  singleFlight w -> settle cfg rt pid w = Some w' ->
  registeredOwned w -> registeredOwned w'.
Proof.
  intros Hsf Hs Hro.
  destruct (settle_inv _ _ _ _ _ Hs Hsf)
    as (rq0 & tid0 & mtime & res & env' & Hp & H0 & Hc & ->).
  assert (Hlt0 : (tid0 < length (tasks w))%nat) by (by eapply lookup_lt_Some).
  match goal with
  | |- context [resumeWaiters pid res ?w2] =>
      destruct (resumeWaiters_spec pid res w2) as (_ & Ef & _ & _ & _ & Et)
  end.
  intros key pid' Hk. rewrite Ef in Hk.
  destruct res as [r | e]; simpl in Hk, Et.
  - assert (Hne : q_key rq0 <> key) by (intros <-; by rewrite lookup_delete_eq in Hk).
    rewrite lookup_delete_ne in Hk by done.
    destruct (Hro key pid' Hk) as (tid1 & rq1 & t1 & H1 & Ho).
    assert (Hne1 : tid1 <> tid0).
    { intros ->. rewrite H0 in H1. injection H1 as <- <-. simpl in Ho. injection Ho as <-.
      destruct (sf_registered w Hsf _ _ Hk) as (rq2 & st & Hp2 & Hk2 & _).
      rewrite Hp in Hp2. injection Hp2 as <- <-. done. }
    exists tid1, rq1, t1. split; [| done].
    rewrite Et. simpl. rewrite list_lookup_insert_ne, H1 by done. simpl.
    by destruct t1.
  - destruct (Hro key pid' Hk) as (tid1 & rq1 & t1 & H1 & Ho).
    destruct (decide (tid1 = tid0)) as [-> | Hne1].
    + rewrite H0 in H1. injection H1 as <- <-. simpl in Ho. injection Ho as <-.
      exists tid0, rq0, (AwaitFallbackWrite pid (syntheticPng rt (clock w))).
      split; [| done]. rewrite Et. simpl. by rewrite list_lookup_insert_eq.
    + exists tid1, rq1, t1. split; [| done].
      rewrite Et. simpl. rewrite list_lookup_insert_ne, H1 by done. simpl.
      by destruct t1.
Qed.

Lemma registeredOwned_ioDone tid w w' :
  singleFlight w -> ioDone rt tid w = Some w' ->
  registeredOwned w -> registeredOwned w'.
Proof.
  intros Hsf Hio Hro. unfold ioDone in Hio.
  destruct (tasks w !! tid) as [[rq t]|] eqn:Ht; [| discriminate].
  assert (Hrel : forall pid t', owned t = Some pid ->
            registeredOwned
              (setTask tid rq t' (setInFlight (delete (q_key rq) (conversionsInFlight w)) w))).
  { intros pid t' Hown key pid' Hk. simpl in Hk.
    assert (Hne : q_key rq <> key) by (intros <-; by rewrite lookup_delete_eq in Hk).
    rewrite lookup_delete_ne in Hk by done.
    destruct (Hro key pid' Hk) as (tid1 & rq1 & t1 & H1 & Ho).
    assert (Hne1 : tid1 <> tid).
    { intros ->. rewrite Ht in H1. injection H1 as <- <-.
      rewrite Hown in Ho. injection Ho as <-.
      destruct (sf_owner w Hsf _ _ _ pid Ht Hown) as (_ & st & Hp & _).
      destruct (sf_registered w Hsf _ _ Hk) as (rq2 & st2 & Hp2 & Hk2 & _).
      rewrite Hp in Hp2. injection Hp2 as <- <-. done. }
    exists tid1, rq1, t1. split; [| done]. simpl. by rewrite list_lookup_insert_ne. }
  destruct t; try discriminate.
  - destruct (writeFails rt _ _); injection Hio as <-.
    + by apply (Hrel pid).
    + eapply registeredOwned_setTask; [exact Hro | exact Ht | | done | done]. done.
  - injection Hio as <-.
    eapply registeredOwned_setTask; [exact Hro | exact Ht | | done | done]. done.
  - destruct (rename _ _ _) as [[] env']; injection Hio as <-.
    + intros key pid' Hk.
      destruct (Hrel pid (Returned makeEmptyCache) eq_refl key pid' Hk)
        as (tid1 & rq1 & t1 & H1 & Ho).
      simpl in H1. apply list_lookup_insert_Some in H1 as [(_ & [= <- <-] & _) | [Hne H1]];
        [done |].
      exists tid1, rq1, t1. split; [| done]. simpl. by rewrite list_lookup_insert_ne.
    + by apply (Hrel pid).
  - destruct (writeFails rt _ _); injection Hio as <-;
      (eapply registeredOwned_setTask; [exact Hro | exact Ht | | done | done]; done).
Qed.

Lemma registeredOwned_step w ev w' :
  singleFlight w -> step cfg rt w ev = Some w' ->
  registeredOwned w -> registeredOwned w'.
Proof.
  intros Hsf Hs Hro.
  destruct ev as [rq | tid mtime | tid found | pid | tid | dt]; simpl in Hs.
  - injection Hs as <-. by apply registeredOwned_startRequest.
  - destruct (tasks w !! tid) as [[rq t]|] eqn:Ht; [| discriminate].
    destruct t; try discriminate. injection Hs as <-.
    eapply registeredOwned_setTask; [exact Hro | exact Ht | | done | done]. done.
  - destruct (tasks w !! tid) as [[rq t]|] eqn:Ht; [| discriminate].
    destruct t; try discriminate; injection Hs as <-.
    + eapply registeredOwned_setTask; [exact Hro | exact Ht | | done | done]. done.
    + eapply registeredOwned_setTask; [exact Hro | exact Ht | | done | done]. done.
    + by eapply registeredOwned_afterProbes.
  - by eapply registeredOwned_settle.
  - by eapply registeredOwned_ioDone.
  - destruct (0 <=? dt); [| discriminate]. by injection Hs as <-.
Qed.

Lemma registeredOwned_reachable w : reachable cfg rt w -> registeredOwned w.
Proof.
  intros (t0 & e & evs & Hrun).
  assert (H : singleFlight w /\ registeredOwned w); [| by destruct H].
  revert Hrun.
  assert (Hinit : singleFlight (initialWorld t0 e) /\ registeredOwned (initialWorld t0 e)).
  { split; [apply singleFlight_initial |]. intros key pid Hk. simpl in Hk.
    by rewrite lookup_empty in Hk. }
  revert Hinit. generalize (initialWorld t0 e).
  induction evs as [|ev evs IH]; simpl; intros w0 [Hsf Hro] Hrun.
  - by injection Hrun as <-.
  - destruct (step cfg rt w0 ev) eqn:E; [| discriminate].
    apply (IH w1); [| done]. split.
    + by eapply singleFlight_step.
    + by eapply registeredOwned_step.
Qed.

(** X22. The registry does not leak. In every world the process can reach, a
    registration belongs to a call that has not finished; so once every
    call has returned or thrown, the registry is empty and no conversion is
    pending. *)
Theorem registrations_are_released (w : World) :
  reachable cfg rt w ->
  (forall key pid, conversionsInFlight w !! key = Some pid ->
     exists tid rq t, tasks w !! tid = Some (rq, t) /\ owned t = Some pid
                      /\ q_key rq = key /\ remaining t <> 0%nat)
  /\ ((forall tid rq t, tasks w !! tid = Some (rq, t) -> remaining t = 0%nat) ->
      conversionsInFlight w = ∅
      /\ forall pid rq, promises w !! pid <> Some (rq, Pending)).
Proof.
  intros Hr. apply singleFlight_reachable in Hr as Hsf.
  apply registeredOwned_reachable in Hr as Hro.
  assert (H1 : forall key pid, conversionsInFlight w !! key = Some pid ->
     exists tid rq t, tasks w !! tid = Some (rq, t) /\ owned t = Some pid
                      /\ q_key rq = key /\ remaining t <> 0%nat).
  { intros key pid Hk. destruct (Hro key pid Hk) as (tid & rq & t & Ht & Ho).
    exists tid, rq, t. split; [done |]. split; [done |]. split.
    - destruct (sf_owner w Hsf _ _ _ _ Ht Ho) as (Hk' & st & Hp & _).
      destruct (sf_registered w Hsf _ _ Hk) as (rq2 & st2 & Hp2 & Hk2 & _).
      rewrite Hp in Hp2. by injection Hp2 as <- <-.
    - by destruct t. }
  split; [exact H1 |]. intros Hrest. split.
  - apply map_empty. intros key.
    destruct (conversionsInFlight w !! key) as [pid|] eqn:Hk; [| done].
    destruct (H1 key pid Hk) as (tid & rq & t & Ht & _ & _ & Hrem).
    by destruct (Hrem (Hrest _ _ _ Ht)).
  - intros pid rq Hp. destruct (sf_pending w Hsf _ _ Hp) as (_ & tid & mtime & Ht).
    specialize (Hrest _ _ _ Ht). done.
Qed.

End Registry.

Lemma entries_are_well_formed_witness :
  let w := Scenario.worldAfter Scenario.workingTools Scenario.twoCallers in
  orderedBounds (bounds (entryOf Scenario.rq08 w))
  /\ (source (entryOf Scenario.rq08 w) = SrcWgrib2 ->
      lastErrorAt (entryOf Scenario.rq08 w) = 0).
Proof.
  cbv zeta.
  apply (entries_are_well_formed Scenario.cfg Scenario.workingTools
           (Scenario.worldAfter Scenario.workingTools Scenario.twoCallers)
           (cacheKey (q_key Scenario.rq08))).
  - exists 1000000, Scenario.freshEnv, Scenario.twoCallers. vm_compute. reflexivity.
  - vm_compute. reflexivity.
Defined.

Lemma updatedAt_never_decreases_witness :
  let k := cacheKey (q_key Scenario.rq08) in
  let w := Scenario.worldAfter Scenario.failingTools (take 10 Scenario.twoCallers) in
  let w' := Scenario.worldAfter Scenario.failingTools Scenario.twoCallersDone in
  updatedAt (entryAt k w) <= updatedAt (entryAt k w').
Proof.
  cbv zeta.
  refine (proj1 (updatedAt_never_decreases Scenario.cfg Scenario.failingTools
                   1000000 Scenario.freshEnv (take 10 Scenario.twoCallers)
                   (drop 10 Scenario.twoCallersDone) _ _ _ _ _ _)).
  - lia.
  - vm_compute. reflexivity.
  - vm_compute. reflexivity.
Defined.

Lemma every_call_can_proceed_witness :
  let w := Scenario.worldAfter Scenario.failingTools Scenario.sourceMissing in
  exists ev w' t',
    step Scenario.cfg Scenario.failingTools w ev = Some w'
    /\ tasks w' !! 0%nat = Some (Scenario.rq08, t')
    /\ (remaining t' < 1)%nat.
Proof.
  cbv zeta.
  apply (every_call_can_proceed Scenario.cfg Scenario.failingTools
           (Scenario.worldAfter Scenario.failingTools Scenario.sourceMissing)
           0 Scenario.rq08 (AwaitSyntheticWrite (Scenario.smallSynthetic 1000000))).
  - exists 1000000, Scenario.freshEnv, Scenario.sourceMissing. vm_compute. reflexivity.
  - vm_compute. reflexivity.
  - discriminate.
Defined.

Lemma registrations_are_released_witness :
  conversionsInFlight (Scenario.worldAfter Scenario.failingTools Scenario.twoCallersDone)
  = ∅.
Proof.
  refine (proj1 (proj2 (registrations_are_released Scenario.cfg Scenario.failingTools
                          (Scenario.worldAfter Scenario.failingTools Scenario.twoCallersDone)
                          _) _)).
  - exists 1000000, Scenario.freshEnv, Scenario.twoCallersDone. vm_compute. reflexivity.
  - intros tid rq t Ht.
    assert (Hlen : (tid < 2)%nat).
    { apply lookup_lt_Some in Ht. vm_compute in Ht. lia. }
    destruct tid as [|[|tid]]; [| | lia]; vm_compute in Ht; by injection Ht as <- <-.
Defined.

(** ** Orchestrator: where synthetic entries come from *)

Section SyntheticBranches.

Variable cfg : Config.
Variable rt : Runtime.

(** The entry of a call whose conversion fails is the one of the [catch]
    block. *)
Lemma settle_failure_entry w tid rq pid mtime e env' :
  singleFlight w ->
  tasks w !! tid = Some (rq, AwaitConversion pid mtime) ->
  convertGribToPngViaPipeline cfg rt (q_gribPath rq) (q_matchExprs rq) (q_paths rq) (env w)
  = (Throw e, env') ->
  exists w',
    settle cfg rt pid w = Some w'
    /\ tasks w' !! tid = Some (rq, AwaitFallbackWrite pid (syntheticPng rt (clock w)))
    /\ entryOf rq w' = onFailure e mtime (clock w) (entryOf rq w).
Proof.
  intros Hsf Ht Hc.
  destruct (sf_owner w Hsf _ _ _ pid Ht eq_refl) as (_ & st & Hp & ->).
  destruct (settle_enabled cfg rt _ _ _ Hp) as [w' Hs].
  exists w'. split; [done |].
  destruct (settle_inv _ _ _ _ _ Hs Hsf)
    as (rq0 & tid0 & mtime0 & res & env0 & Hp0 & H0 & Hc0 & ->).
  assert (tid = tid0) as <- by (by eapply (sf_unique w Hsf tid tid0)).
  rewrite Ht in H0. injection H0 as <- <-.
  rewrite Hc in Hc0. injection Hc0 as <- <-.
  assert (Hlt : (tid < length (tasks w))%nat) by (by eapply lookup_lt_Some).
  match goal with
  | |- context [resumeWaiters pid ?res ?w2] =>
      destruct (resumeWaiters_spec pid res w2) as (Ec & _ & _ & _ & _ & Et);
      pose proof (entryOf_caches rq _ _ Ec) as Hent
  end.
  simpl in Et, Hent |- *. split.
  - rewrite Et, list_lookup_insert_eq by done. done.
  - rewrite Hent. unfold entryOf. simpl. by rewrite lookup_insert_eq.
Qed.

(** The entry of a call that takes one of the two last branches. *)
Lemma afterProbes_fallback_entry tid rq now mtime prev h1 h2 h3 w :
  let cache := setPipelineAvailable (bool_decide (missingTools h1 h2 h3 = []))
                 (entryOf rq w) in
  let w' := afterProbes cfg rt tid rq now mtime prev h1 h2 h3 w in
  syntheticIsStale cache now rq (env w) = true ->
  (truthy mtime = false ->
   entryOf rq w' = onMissingSource rq (clock w) cache)
  /\ (truthy mtime = true -> missingTools h1 h2 h3 <> [] ->
      entryOf rq w' = onToolsMissing (missingTools h1 h2 h3) mtime (clock w) cache).
Proof.
  cbv zeta. intros Hstale. unfold afterProbes, regenerationWarranted.
  cbn [env setEntry setCaches]. rewrite Hstale. split.
  - intros Hm. rewrite Hm. simpl. unfold entryOf. simpl. by rewrite lookup_insert_eq.
  - intros Hm Hmiss. rewrite Hm. simpl.
    rewrite (bool_decide_eq_false_2 (Some (bool_decide (missingTools h1 h2 h3 = []))
                                     = Some true)).
    2:{ intros [= H]. by apply bool_decide_eq_true in H. }
    simpl. unfold entryOf. simpl. by rewrite lookup_insert_eq.
Qed.

(** C8. In every world the process can reach, an entry whose source is
    synthetic has the whole-region default bounds, and the four places that
    make an entry synthetic give it these bounds: the entry created for a
    new key, the entry of the call whose conversion fails, and the entry of
    the call that finds the source file missing or a tool missing while the
    placeholder is due. *)
Theorem synthetic_entries_have_default_bounds (w : World) :
  reachable cfg rt w ->
  (forall k e, caches w !! k = Some e -> source e = SrcSynthetic ->
               bounds e = FRANCE_BOUNDS)
  /\ (forall rq, caches w !! cacheKey (q_key rq) = None ->
        let e := entryOf rq (startRequest rq w) in
        caches (startRequest rq w) !! cacheKey (q_key rq) = Some e
        /\ source e = SrcSynthetic /\ bounds e = FRANCE_BOUNDS)
  /\ (forall tid rq pid mtime err env',
        tasks w !! tid = Some (rq, AwaitConversion pid mtime) ->
        convertGribToPngViaPipeline cfg rt (q_gribPath rq) (q_matchExprs rq) (q_paths rq)
          (env w) = (Throw err, env') ->
        exists w',
          settle cfg rt pid w = Some w'
          /\ source (entryOf rq w') = SrcSynthetic
          /\ bounds (entryOf rq w') = FRANCE_BOUNDS)
  /\ (forall tid rq now mtime prev h1 h2 h3,
        let cache := setPipelineAvailable (bool_decide (missingTools h1 h2 h3 = []))
                       (entryOf rq w) in
        let w' := afterProbes cfg rt tid rq now mtime prev h1 h2 h3 w in
        syntheticIsStale cache now rq (env w) = true ->
        truthy mtime = false \/ missingTools h1 h2 h3 <> [] ->
        source (entryOf rq w') = SrcSynthetic
        /\ bounds (entryOf rq w') = FRANCE_BOUNDS).
Proof.
  intros Hr. split_and!.
  - destruct Hr as (t0 & e0 & evs & Hrun). intros k e Hk.
    eapply (cachesDefault_run cfg rt evs); [done | | done].
    intros k' e'. unfold initialWorld. simpl. by rewrite lookup_empty.
  - intros rq Hnew. cbv zeta. unfold entryOf, startRequest, getCacheForKey.
    rewrite Hnew. cbn [caches setTasks setCaches fst].
    rewrite lookup_insert_eq. done.
  - intros tid rq pid mtime err env' Ht Hc.
    apply singleFlight_reachable in Hr.
    destruct (settle_failure_entry w tid rq pid mtime err env' Hr Ht Hc)
      as (w' & Hs & _ & He).
    exists w'. rewrite He. done.
  - intros tid rq now mtime prev h1 h2 h3. cbv zeta. intros Hstale Hwhy.
    destruct (afterProbes_fallback_entry tid rq now mtime prev h1 h2 h3 w Hstale)
      as [Hmiss Htools].
    destruct (truthy mtime) eqn:Hm.
    + destruct Hwhy as [? | Hwhy]; [done |]. by rewrite Htools.
    + by rewrite Hmiss.
Qed.

End SyntheticBranches.

Lemma synthetic_entries_have_default_bounds_witness :
  let w := Scenario.worldAfter Scenario.failingTools (take 10 Scenario.twoCallers) in
  exists w',
    settle Scenario.cfg Scenario.failingTools 0 w = Some w'
    /\ source (entryOf Scenario.rq08 w') = SrcSynthetic
    /\ bounds (entryOf Scenario.rq08 w') = FRANCE_BOUNDS.
Proof.
  cbv zeta.
  assert (Hc : exists err env',
            convertGribToPngViaPipeline Scenario.cfg Scenario.failingTools
              (q_gribPath Scenario.rq08) (q_matchExprs Scenario.rq08)
              (q_paths Scenario.rq08)
              (env (Scenario.worldAfter Scenario.failingTools (take 10 Scenario.twoCallers)))
            = (Throw err, env')) by (eexists _, _; vm_compute; reflexivity).
  destruct Hc as (err & env' & Hc).
  refine (proj1 (proj2 (proj2
            (synthetic_entries_have_default_bounds Scenario.cfg Scenario.failingTools
               (Scenario.worldAfter Scenario.failingTools (take 10 Scenario.twoCallers)) _)))
            0%nat Scenario.rq08 0%nat (Some 5000) err env' _ Hc).
  - exists 1000000, Scenario.freshEnv, (take 10 Scenario.twoCallers).
    vm_compute. reflexivity.
  - vm_compute. reflexivity.
Defined.

(** ** Reading a raster that may still be written *)

Section RetryFacts.



Lemma loop_time attempts delayMs obs i lastErr :
  0 <= delayMs ->
  0 <= snd (Retry.loop attempts delayMs obs i lastErr) <= Z.of_nat attempts * (25 + delayMs).
Proof.
  intros Hd. revert i lastErr. induction attempts as [|n IH]; intros i lastErr.
  - simpl. lia.
  - assert (Ht : 0 <= Retry.slept delayMs (obs i) <= 25 + delayMs).
    { unfold Retry.slept. destruct (Retry.stat1 (obs i)) as [s1|]; [destruct (s1 =? 0) |];
        destruct (Retry.pass (obs i)); lia. }
    cbn [Retry.loop]. destruct (Retry.pass (obs i)).
    + simpl. lia.
    + simpl. lia.
    + specialize (IH (S i) (Some e)).
      destruct (Retry.loop n delayMs obs (S i) (Some e)). simpl in *.
      lia.
    + specialize (IH (S i) lastErr). destruct (Retry.loop n delayMs obs (S i) lastErr). simpl in *.
      lia.
Qed.

(** The first pass that does not lead to another one decides. *)
Lemma loop_decided attempts delayMs obs i lastErr k :
  (k < attempts)%nat ->
  (forall j, (j < k)%nat -> Retry.goesOn (Retry.pass (obs (i + j)%nat))) ->
  match Retry.pass (obs (i + k)%nat) with
  | Retry.Return p => fst (Retry.loop attempts delayMs obs i lastErr) = Ok p
  | Retry.Rethrow e => fst (Retry.loop attempts delayMs obs i lastErr) = Throw e
  | _ => True
  end.
Proof.
  revert attempts i lastErr. induction k as [|k IH]; intros attempts i lastErr Hk Hgo.
  - destruct attempts as [|n]; [lia |]. rewrite Nat.add_0_r. cbn [Retry.loop].
    destruct (Retry.pass (obs i)); try done.
  - destruct attempts as [|n]; [lia |]. cbn [Retry.loop].
    pose proof (Hgo 0%nat ltac:(lia)) as H0. rewrite Nat.add_0_r in H0.
    assert (Hgo' : forall j, (j < k)%nat -> Retry.goesOn (Retry.pass (obs (S i + j)%nat))).
    { intros j Hj. specialize (Hgo (S j) ltac:(lia)).
      by replace (i + S j)%nat with (S i + j)%nat in Hgo by lia. }
    replace (i + S k)%nat with (S i + k)%nat by lia.
    destruct (Retry.pass (obs i)) as [| | e |]; try done.
    + specialize (IH n (S i) (Some e) ltac:(lia) Hgo').
      destruct (Retry.loop n delayMs obs (S i) (Some e)). exact IH.
    + specialize (IH n (S i) lastErr ltac:(lia) Hgo').
      destruct (Retry.loop n delayMs obs (S i) lastErr). exact IH.
Qed.

(** When every pass leads to the next one, the error thrown at the end is
    the one kept last. *)
Lemma loop_exhausted attempts delayMs obs i lastErr :
  (forall j, (j < attempts)%nat -> Retry.goesOn (Retry.pass (obs (i + j)%nat))) ->
  (forall j, (j < attempts)%nat -> Retry.pass (obs (i + j)%nat) = Retry.Changed) ->
  fst (Retry.loop attempts delayMs obs i lastErr)
  = Throw (default (newError (js "Lecture PNG impossible")) lastErr).
Proof.
  intros _. revert i lastErr. induction attempts as [|n IH]; intros i lastErr Hch; [done |].
  cbn [Retry.loop]. pose proof (Hch 0%nat ltac:(lia)) as H0. rewrite Nat.add_0_r in H0.
  rewrite H0. specialize (IH (S i) lastErr).
  destruct (Retry.loop n delayMs obs (S i) lastErr). simpl in *. apply IH.
  intros j Hj. specialize (Hch (S j) ltac:(lia)).
  by replace (i + S j)%nat with (S i + j)%nat in Hch by lia.
Qed.

Lemma loop_kept attempts delayMs obs i lastErr k e :
  (k < attempts)%nat ->
  (forall j, (j < k)%nat -> Retry.goesOn (Retry.pass (obs (i + j)%nat))) ->
  Retry.pass (obs (i + k)%nat) = Retry.Retry e ->
  (forall j, (k < j < attempts)%nat -> Retry.pass (obs (i + j)%nat) = Retry.Changed) ->
  fst (Retry.loop attempts delayMs obs i lastErr) = Throw e.
Proof.
  revert attempts i lastErr. induction k as [|k IH]; intros attempts i lastErr Hk Hgo He Hch.
  - destruct attempts as [|n]; [lia |]. rewrite Nat.add_0_r in He. cbn [Retry.loop]. rewrite He.
    assert (Hch' : forall j, (j < n)%nat -> Retry.pass (obs (S i + j)%nat) = Retry.Changed).
    { intros j Hj. replace (S i + j)%nat with (i + S j)%nat by lia. apply Hch. lia. }
    pose proof (loop_exhausted n delayMs obs (S i) (Some e)) as H.
    destruct (Retry.loop n delayMs obs (S i) (Some e)). apply H; [| exact Hch'].
    intros j Hj. by rewrite Hch'.
  - destruct attempts as [|n]; [lia |]. cbn [Retry.loop].
    pose proof (Hgo 0%nat ltac:(lia)) as H0. rewrite Nat.add_0_r in H0.
    assert (IH' : forall le, fst (Retry.loop n delayMs obs (S i) le) = Throw e).
    { intros le. apply IH; [lia | | |].
      - intros j Hj. replace (S i + j)%nat with (i + S j)%nat by lia. apply Hgo. lia.
      - by replace (S i + k)%nat with (i + S k)%nat by lia.
      - intros j Hj. replace (S i + j)%nat with (i + S j)%nat by lia. apply Hch. lia. }
    destruct (Retry.pass (obs i)) as [| | e0 |]; try done.
    + specialize (IH' (Some e0)). by destruct (Retry.loop n delayMs obs (S i) (Some e0)).
    + specialize (IH' lastErr). by destruct (Retry.loop n delayMs obs (S i) lastErr).
Qed.

Lemma loop_same_retry delayMs o e attempts i lastErr :
  Retry.pass o = Retry.Retry e -> attempts <> 0%nat ->
  fst (Retry.loop attempts delayMs (fun _ => o) i lastErr) = Throw e.
Proof.
  intros Hp. revert i lastErr. induction attempts as [|n IH]; intros i lastErr Hne; [done |].
  cbn [Retry.loop]. cbn beta. rewrite Hp.
  destruct n as [|n]; [done |].
  specialize (IH (S i) (Some e) ltac:(lia)).
  by destruct (Retry.loop (S n) delayMs (fun _ => o) (S i) (Some e)).
Qed.

(** X15. The loop of [readPngWithRetry]. It sleeps for no longer than its number
    of attempts allows. The first pass that does not lead to another one
    decides: its raster is returned, or its error rethrown, whatever the
    later passes would see. When all the passes allowed lead to another one,
    the error thrown is the last one caught, and a fresh one when every pass
    saw the size change; that is also what happens with no attempt at all. *)
Theorem read_png_retry_contract (attempts : nat) (delayMs : Z) (obs : nat -> Retry.Observation) :
  let out := Retry.readPngWithRetry attempts delayMs obs in
  (0 <= delayMs -> 0 <= snd out <= Z.of_nat attempts * (25 + delayMs))
  /\ (forall k, (k < attempts)%nat ->
        (forall j, (j < k)%nat -> Retry.goesOn (Retry.pass (obs j))) ->
        match Retry.pass (obs k) with
        | Retry.Return p => fst out = Ok p
        | Retry.Rethrow e => fst out = Throw e
        | _ => True
        end)
  /\ ((forall j, (j < attempts)%nat -> Retry.pass (obs j) = Retry.Changed) ->
      fst out = Throw (newError (js "Lecture PNG impossible")))
  /\ (forall k e, (k < attempts)%nat ->
        (forall j, (j < k)%nat -> Retry.goesOn (Retry.pass (obs j))) ->
        Retry.pass (obs k) = Retry.Retry e ->
        (forall j, (k < j < attempts)%nat -> Retry.pass (obs j) = Retry.Changed) ->
        fst out = Throw e).
Proof.
  cbv zeta. unfold Retry.readPngWithRetry. split_and!.
  - apply loop_time.
  - intros k Hk Hgo. apply (loop_decided attempts delayMs obs 0 None k Hk Hgo).
  - intros Hch. apply (loop_exhausted attempts delayMs obs 0 None); [| done].
    intros j Hj. simpl. by rewrite Hch.
  - intros k e Hk Hgo He Hch. by apply (loop_kept attempts delayMs obs 0 None k e).
Qed.

(** On a file that nobody is writing, the loop gives what the one-step
    reading of the pipeline gives, as soon as one attempt is allowed. *)
Lemma readPngWithRetry_on_still_file (attempts : nat) (delayMs : Z) (path : jsstring)
  (env : Env) :
  attempts <> 0%nat ->
  fst (Retry.readPngWithRetry attempts delayMs
         (fun _ => Retry.still path (fs env !! path)))
  = fst (readPngWithRetry path env).
Proof.
  unfold Retry.readPngWithRetry. intros Hn. unfold readPngWithRetry.
  set (o := Retry.still path (fs env !! path)).
  assert (Hfirst : forall p, Retry.pass o = p ->
            match p with
            | Retry.Return p => fst (Retry.loop attempts delayMs (fun _ => o) 0 None) = Ok p
            | Retry.Rethrow e =>
                fst (Retry.loop attempts delayMs (fun _ => o) 0 None) = Throw e
            | _ => True
            end).
  { intros p <-. apply (loop_decided attempts delayMs (fun _ => o) 0 None 0); [lia |].
    intros j Hj. lia. }
  assert (Hsame : forall e, Retry.pass o = Retry.Retry e ->
            fst (Retry.loop attempts delayMs (fun _ => o) 0 None) = Throw e).
  { intros e Hp. by apply loop_same_retry. }
  subst o. destruct (fs env !! path) as [[p | n |]|]; simpl.
  - exact (Hfirst _ eq_refl).
  - destruct (Z.eqb_spec n 0) as [-> | Hne].
    + by apply Hsame.
    + apply Hsame. unfold Retry.pass, Retry.still. simpl.
      destruct (Z.eqb_spec n 0); [done |]. by rewrite Z.eqb_refl.
  - by apply Hsame.
  - unfold Retry.pass, Retry.still, Retry.caught in Hfirst, Hsame. simpl in Hfirst, Hsame.
    destruct (Retry.retryable _) eqn:Er.
    + by apply Hsame.
    + exact (Hfirst _ eq_refl).
Qed.

End RetryFacts.

(** ** Start-up *)

Section StartupFacts.

Lemma trimStart_suffix s : exists pre, s = pre ++ trimStart s.
Proof.
  induction s as [|c s [pre IH]]; simpl; [by exists [] |].
  destruct (isWhiteSpace c); [| by exists []].
  exists (c :: pre). simpl. by rewrite <- IH.
Qed.

Lemma trimStart_headOk s : headOk (trimStart s).
Proof.
  induction s as [|c s IH]; simpl; [done |].
  by destruct (isWhiteSpace c) eqn:E.
Qed.

Lemma trimStart_fixed s : headOk s -> trimStart s = s.
Proof. destruct s as [|c s]; simpl; [done |]. by intros ->. Qed.

Lemma trimStart_elem c s : In c (trimStart s) -> In c s.
Proof.
  destruct (trimStart_suffix s) as [pre Hpre]. intros H.
  rewrite Hpre. apply in_or_app. by right.
Qed.

Lemma trim_elem c s : c ∈ trim s -> c ∈ s.
Proof.
  unfold trim, trimEnd. rewrite !list_elem_of_In. intros H.
  apply in_rev in H. apply trimStart_elem in H. apply in_rev in H.
  by apply trimStart_elem in H.
Qed.

Lemma trim_idempotent s : trim (trim s) = trim s.
Proof.
  unfold trim, trimEnd.
  set (u := trimStart s). set (v := trimStart (rev u)).
  assert (Hu : headOk u) by apply trimStart_headOk.
  assert (Hv : headOk v) by apply trimStart_headOk.
  destruct (trimStart_suffix (rev u)) as [pre Hpre]. fold v in Hpre.
  assert (Hrv : headOk (rev v)).
  { assert (Eu : u = rev v ++ rev pre).
    { rewrite <- (rev_involutive u), Hpre, rev_app_distr. done. }
    destruct (rev v) as [|c r] eqn:Er; [done |]. rewrite Eu in Hu. exact Hu. }
  rewrite (trimStart_fixed (rev v)) by done.
  rewrite rev_involutive. by rewrite (trimStart_fixed v).
Qed.

Lemma split_no_sep sep s piece : piece ∈ Startup.split sep s -> sep ∉ piece.
Proof.
  revert piece. induction s as [|c s IH]; simpl; intros piece H.
  - apply list_elem_of_singleton in H as ->. apply not_elem_of_nil.
  - destruct (N.eqb_spec c sep) as [-> | Hne].
    + apply elem_of_cons in H as [-> | H]; [apply not_elem_of_nil | by apply IH].
    + destruct (Startup.split sep s) as [|p rest].
      * apply list_elem_of_singleton in H as ->.
        intros Hin. apply list_elem_of_singleton in Hin. congruence.
      * apply elem_of_cons in H as [-> | H].
        -- intros Hin. apply elem_of_cons in Hin as [-> | Hin]; [done |].
           revert Hin. apply IH. by left.
        -- apply IH. by right.
Qed.

Lemma split_piece sep p s :
  sep ∉ p -> Startup.split sep (p ++ sep :: s) = p :: Startup.split sep s.
Proof.
  induction p as [|c p IH]; simpl; intros Hp.
  - by rewrite N.eqb_refl.
  - destruct (N.eqb_spec c sep) as [-> | Hne]; [destruct Hp; by left |].
    rewrite IH; [done |]. intros Hin. apply Hp. by right.
Qed.

Lemma split_last sep p : sep ∉ p -> Startup.split sep p = [p].
Proof.
  induction p as [|c p IH]; simpl; intros Hp; [done |].
  destruct (N.eqb_spec c sep) as [-> | Hne]; [destruct Hp; by left |].
  rewrite IH; [done |]. intros Hin. apply Hp. by right.
Qed.

Lemma split_join l :
  l <> [] -> Forall (fun e => 44%N ∉ e) l -> Startup.split 44 (join (js ",") l) = l.
Proof.
  induction l as [|p l IH]; [done |]. intros _ Hl.
  apply Forall_cons in Hl as [Hp Hl].
  destruct l as [|q l].
  - simpl. by apply split_last.
  - change (join (js ",") (p :: q :: l)) with (p ++ 44%N :: join (js ",") (q :: l)).
    rewrite split_piece by done. by rewrite IH.
Qed.

(** X16. The list of expressions the server reads when it starts. Each is not
    empty, has no white space around it and no comma in it. With neither
    variable set the list is the three expressions of rain. A list of such
    expressions, joined with commas and given in [GRIB_MATCHES], is read
    back as it is. *)
Theorem configured_expressions (env_GRIB_MATCHES env_GRIB_MATCH : option jsstring)
  (l : list jsstring) :
  Forall cleanMatch (Startup.GRIB_MATCHES env_GRIB_MATCHES env_GRIB_MATCH)
  /\ Startup.GRIB_MATCHES None None = [js ":RPRATE:"; js ":PRATE:"; js ":APCP:"]
  /\ Startup.GRIB_MATCHES (Some []) env_GRIB_MATCH = Startup.GRIB_MATCHES None env_GRIB_MATCH
  /\ (l <> [] -> Forall cleanMatch l ->
      Startup.GRIB_MATCHES (Some (join (js ",") l)) env_GRIB_MATCH = l).
Proof.
  split_and!.
  - unfold Startup.GRIB_MATCHES, Startup.parseMatches. apply Forall_forall.
    intros e He. apply list_elem_of_In, filter_In in He as [He Hne].
    apply in_map_iff in He as (piece & <- & Hp). apply list_elem_of_In in Hp.
    split; [by case_bool_decide |]. split; [apply trim_idempotent |].
    intros Hin. apply trim_elem in Hin. revert Hin. by eapply split_no_sep.
  - reflexivity.
  - done.
  - intros Hne Hl. unfold Startup.GRIB_MATCHES.
    assert (Hj : join (js ",") l <> []).
    { destruct l as [|p [|q l]]; [done | |].
      - apply Forall_cons in Hl as [[Hp _] _]. done.
      - apply Forall_cons in Hl as [[Hp _] _]. simpl. by destruct p. }
    assert (Ho : Startup.orElse (Some (join (js ",") l))
                   (Startup.orElse env_GRIB_MATCH (js ":RPRATE:,:PRATE:,:APCP:"))
                 = join (js ",") l).
    { unfold Startup.orElse. by destruct (join (js ",") l). }
    rewrite Ho. unfold Startup.parseMatches. rewrite split_join; [| done |].
    2:{ eapply Forall_impl; [exact Hl |]. by intros e (_ & _ & H). }
    clear Hne Hj Ho. induction l as [|e l IH]; [done |].
    apply Forall_cons in Hl as [(Hne & Ht & _) Hl]. simpl.
    rewrite Ht. rewrite bool_decide_false by done. simpl. f_equal. by apply IH.
Qed.

End StartupFacts.

(** ** The text of an error *)

Section MessageFacts.

Lemma collapseFrom_head inRun s :
  inRun = true -> head (collapseFrom inRun s) <> Some 32%N.
Proof.
  intros ->. induction s as [|c s IH]; simpl; [done |].
  destruct (isWhiteSpace c) eqn:E; [done |]. simpl. intros [= ->]. done.
Qed.

Lemma collapseFrom_oneLine inRun s : oneLine (collapseFrom inRun s).
Proof.
  revert inRun. induction s as [|c s IH]; intros inRun; simpl; [done |].
  destruct (isWhiteSpace c) eqn:E.
  - destruct inRun; [apply IH |]. simpl. split; [| apply IH].
    intros _. split; [done |]. by apply collapseFrom_head.
  - simpl. split; [| apply IH]. congruence.
Qed.

Lemma oneLine_take n s : oneLine s -> oneLine (take n s).
Proof.
  revert n. induction s as [|c s IH]; intros [|n]; simpl; try done.
  intros [Hc Hs]. split; [| by apply IH].
  intros Hw. destruct (Hc Hw) as [-> Hh]. split; [done |].
  destruct s as [|d s]; [by destruct n |]. destruct n; [done |]. exact Hh.
Qed.

(** X23. The text of an error as the diagnostic and the cache entry carry it: at
    most 600 code units, on one line, with single spaces for whatever white
    space the tool printed. *)
Theorem error_details_are_one_line (e : option JsError) (err : JsError)
  (mtime : option Z) (now : Z) (cache : CacheEntry) :
  (length (errorDetails e) <= 600)%nat
  /\ oneLine (errorDetails e)
  /\ exists d, message (onFailure err mtime now cache) = js "Erreur pipeline: " ++ d
               /\ (length d <= 600)%nat /\ oneLine d.
Proof.
  assert (H : forall e', oneLine (errorDetails e')).
  { intros e'. unfold errorDetails, slice0, collapseSpaces.
    apply oneLine_take, collapseFrom_oneLine. }
  split; [apply errorDetails_length |]. split; [apply H |].
  exists (errorDetails (Some err)). split; [done |].
  split; [apply errorDetails_length | apply H].
Qed.

End MessageFacts.

(** ** Orchestrator: where exceptions come from *)

Section ThrowFacts.

Variable cfg : Config.
Variable rt : Runtime.

Lemma tasks_setTask_ne tid tid' rq t w :
  tid' <> tid -> tasks (setTask tid rq t w) !! tid' = tasks w !! tid'.
Proof. intros H. unfold setTask. simpl. by apply list_lookup_insert_ne. Qed.



End ThrowFacts.


(** ** Orchestrator: calls only move forward *)

Section Forward.

Variable cfg : Config.
Variable rt : Runtime.

Lemma advances_refl w : advances w w.
Proof. intros tid rq t H. exists t. split; [done | by left]. Qed.

Lemma advances_trans w1 w2 w3 : advances w1 w2 -> advances w2 w3 -> advances w1 w3.
Proof.
  intros H12 H23 tid rq t H.
  destruct (H12 _ _ _ H) as (t2 & H2 & F2). destruct (H23 _ _ _ H2) as (t3 & H3 & F3).
  exists t3. split; [done |]. unfold forward in *.
  destruct F2 as [-> | F2], F3 as [-> | F3]; auto. right. lia.
Qed.

Lemma advances_frame w w' : tasks w' = tasks w -> advances w w'.
Proof. intros E tid rq t H. rewrite E. exists t. split; [done | by left]. Qed.

Lemma advances_setTask tid rq t0 t w :
  tasks w !! tid = Some (rq, t0) -> (remaining t < remaining t0)%nat ->
  advances w (setTask tid rq t w).
Proof.
  intros H0 Hlt tid' rq' t' H.
  assert (Hl : (tid < length (tasks w))%nat) by (by eapply lookup_lt_Some).
  destruct (decide (tid' = tid)) as [-> | Hne].
  - rewrite H0 in H. injection H as <- <-. exists t.
    split; [by apply tasks_setTask | by right].
  - exists t'. rewrite tasks_setTask_ne by done. split; [done | by left].
Qed.

Lemma advances_startRequest rq w : advances w (startRequest rq w).
Proof.
  intros tid rq' t H. exists t. split; [| by left].
  unfold startRequest. cbn [tasks setTasks setCaches].
  by apply lookup_app_l_Some.
Qed.

Lemma advances_awaitInflight tid rq t0 pid w :
  tasks w !! tid = Some (rq, t0) -> (1 < remaining t0)%nat ->
  advances w (awaitInflight tid rq pid w).
Proof.
  intros H0 Hlt. unfold awaitInflight.
  destruct (promises w !! pid) as [[? []]|]; eapply advances_setTask; try done; simpl; lia.
Qed.

Lemma advances_afterProbes tid rq now mtime prev h1 h2 h3 w :
  tasks w !! tid = Some (rq, AwaitHasGdaldem now mtime prev h1 h2) ->
  advances w (afterProbes cfg rt tid rq now mtime prev h1 h2 h3 w).
Proof.
  intros H0. unfold afterProbes.
  set (w1 := setEntry rq _ w).
  assert (H1 : tasks w1 !! tid = Some (rq, AwaitHasGdaldem now mtime prev h1 h2)) by done.
  apply (advances_trans _ w1); [by apply advances_frame |].
  destruct (regenerationWarranted _ _ _ _ _).
  - destruct (conversionsInFlight _ !! _).
    + eapply advances_awaitInflight; [done |]. simpl. lia.
    + match goal with
      | |- advances _ (setTask _ _ _ ?w2) =>
          apply (advances_trans _ w2); [by apply advances_frame |]
      end.
      eapply advances_setTask; [done |]. simpl. lia.
  - repeat (destruct (_ && _));
      match goal with
      | |- advances _ (setTask _ _ _ ?w2) =>
          apply (advances_trans _ w2); [by apply advances_frame |]
      end; (eapply advances_setTask; [done |]; simpl; lia).
Qed.

Lemma advances_resumeInitiator tid rq pid mtime res w :
  tasks w !! tid = Some (rq, AwaitConversion pid mtime) ->
  advances w (resumeInitiator rt tid rq pid mtime res w).
Proof.
  intros H0. unfold resumeInitiator.
  destruct res;
    match goal with
    | |- advances _ (setTask _ _ _ ?w2) =>
        apply (advances_trans _ w2); [by apply advances_frame |]
    end; (eapply advances_setTask; [done |]; simpl; lia).
Qed.

Lemma advances_resumeWaiter tid rq pid res w :
  tasks w !! tid = Some (rq, AwaitInflight pid) ->
  advances w (resumeWaiter tid rq res w).
Proof.
  intros H0. unfold resumeWaiter.
  destruct res; (eapply advances_setTask; [exact H0 |]; simpl; lia).
Qed.

Lemma advances_resumeInitiators pid res w : advances w (resumeInitiators rt pid res w).
Proof.
  unfold resumeInitiators.
  apply (fold_left_preserves (advances w)); [| apply advances_refl].
  intros w1 tid H1. eapply advances_trans; [exact H1 |].
  destruct (tasks w1 !! tid) as [[rq []]|] eqn:E; try apply advances_refl.
  match goal with
  | |- context [(?p =? pid)%nat] => destruct (Nat.eqb_spec p pid) as [-> | _]
  end; [| apply advances_refl].
  by apply advances_resumeInitiator.
Qed.

Lemma advances_resumeWaiters pid res w : advances w (resumeWaiters pid res w).
Proof.
  unfold resumeWaiters.
  apply (fold_left_preserves (advances w)); [| apply advances_refl].
  intros w1 tid H1. eapply advances_trans; [exact H1 |].
  destruct (tasks w1 !! tid) as [[rq []]|] eqn:E; try apply advances_refl.
  match goal with
  | |- context [(?p =? pid)%nat] => destruct (Nat.eqb_spec p pid) as [-> | _]
  end; [| apply advances_refl].
  by eapply advances_resumeWaiter.
Qed.

Lemma advances_settle pid w w' : settle cfg rt pid w = Some w' -> advances w w'.
Proof.
  unfold settle. destruct (promises w !! pid) as [[rq []]|]; try done.
  destruct (convertGribToPngViaPipeline _ _ _ _ _ _) as [res env']. intros [= <-].
  eapply advances_trans; [| apply advances_resumeWaiters].
  eapply advances_trans; [| apply advances_resumeInitiators].
  by apply advances_frame.
Qed.

Lemma advances_ioDone tid w w' : ioDone rt tid w = Some w' -> advances w w'.
Proof.
  assert (Hset : forall rq t0 t w2,
            tasks w !! tid = Some (rq, t0) -> tasks w2 = tasks w ->
            (remaining t < remaining t0)%nat -> advances w (setTask tid rq t w2)).
  { intros rq t0 t w2 H0 Et Hlt. apply (advances_trans _ w2); [by apply advances_frame |].
    eapply advances_setTask; [by rewrite Et | done]. }
  unfold ioDone. destruct (tasks w !! tid) as [[rq []]|] eqn:E; try done.
  - destruct (writeFails rt _ _); intros [= <-];
      (eapply Hset; [done | done | simpl; lia]).
  - intros [= <-]. eapply Hset; [done | done | simpl; lia].
  - destruct (rename _ _ _) as [[] env']; intros [= <-];
      (eapply Hset; [done | done | simpl; lia]).
  - destruct (writeFails rt _ _); intros [= <-];
      (eapply Hset; [done | done | simpl; lia]).
Qed.

Lemma advances_step w ev w' : step cfg rt w ev = Some w' -> advances w w'.
Proof.
  destruct ev as [rq | tid mtime | tid found | pid | tid | dt]; simpl.
  - intros [= <-]. apply advances_startRequest.
  - destruct (tasks w !! tid) as [[rq []]|] eqn:E; try done. intros [= <-].
    eapply advances_setTask; [done |]. simpl. lia.
  - destruct (tasks w !! tid) as [[rq []]|] eqn:E; try done; intros [= <-].
    + eapply advances_setTask; [done |]. simpl. lia.
    + eapply advances_setTask; [done |]. simpl. lia.
    + by apply advances_afterProbes.
  - apply advances_settle.
  - apply advances_ioDone.
  - destruct (0 <=? dt); [| done]. intros [= <-]. by apply advances_frame.
Qed.

Lemma advances_run evs w w' : run cfg rt w evs = Some w' -> advances w w'.
Proof.
  revert w. induction evs as [|ev evs IH]; simpl; intros w.
  - intros [= <-]. apply advances_refl.
  - destruct (step cfg rt w ev) as [w1|] eqn:E; [| done]. intros H.
    eapply advances_trans; [by eapply advances_step | by apply IH].
Qed.

(** X25. A call is never dropped, restarted or given another request: whatever
    happens next in the process, it is where it was or closer to its end,
    and once it has returned or thrown its outcome is final. *)
Theorem calls_only_move_forward (w w' : World) (evs : list Event) (tid : nat)
  (rq : Request) (t : Task) :
  run cfg rt w evs = Some w' ->
  tasks w !! tid = Some (rq, t) ->
  exists t', tasks w' !! tid = Some (rq, t')
             /\ (t' = t \/ (remaining t' < remaining t)%nat)
             /\ (remaining t = 0%nat -> t' = t).
Proof.
  intros Hrun Ht. destruct (advances_run _ _ _ Hrun _ _ _ Ht) as (t' & Ht' & F).
  exists t'. split; [done |]. split; [exact F |].
  intros Hz. destruct F as [-> | F]; [done | lia].
Qed.

End Forward.

Lemma calls_only_move_forward_witness :
  exists t',
    tasks (Scenario.worldAfter Scenario.failingTools (Scenario.sourceMissing ++ [EvIoDone 0]))
      !! 0%nat = Some (Scenario.rq08, t')
    /\ (t' = AwaitSyntheticWrite (Scenario.smallSynthetic 1000000)
        \/ (remaining t' < 1)%nat).
Proof.
  destruct (calls_only_move_forward Scenario.cfg Scenario.failingTools
              (Scenario.worldAfter Scenario.failingTools Scenario.sourceMissing)
              (Scenario.worldAfter Scenario.failingTools
                 (Scenario.sourceMissing ++ [EvIoDone 0]))
              [EvIoDone 0] 0 Scenario.rq08
              (AwaitSyntheticWrite (Scenario.smallSynthetic 1000000)))
    as (t' & H1 & H2 & _).
  - vm_compute. reflexivity.
  - vm_compute. reflexivity.
  - exists t'. split; [exact H1 | exact H2].
Defined.
